(** * CryptoMentor: the dashboard client and the confluence engine

    A shallow embedding of the TypeScript front end (the WebSocket client,
    the dashboard, the chart and the trade log) and, for the parts of the
    engine that live in the Python back end, of the behaviour the
    specification gives them.

    Conventions.
    - A JavaScript [number] that holds a price or an indicator value is a
      rational [Q]: the code only compares such numbers and takes their
      maximum and minimum, which are exact on every number that is not NaN.
    - A function value (an event callback) is a reference; references are
      compared by identity, so a callback is a [positive] name.
    - A [Map] or a [Set] is a [gmap] or a [gset]; an array is a [list]. *)

From Stdlib Require Import QArith Qminmax Qabs Lia Lqa.
From stdpp Require Import base option list gmap strings pretty sorting.

Set Default Proof Using "Type".
#[local] Set Warnings "-clear-no-such-hyp".

(* ===================================================================== *)
(** * frontend/src/lib/websocket.ts *)
(* ===================================================================== *)

Module WSClient.

(** [type EventCallback = (data: unknown) => void], as a reference. *)
Definition EventCallback : Type := positive.

(** What [JSON.parse] returns. An object lists each property once. *)
#[warnings="-register-all"]
Inductive json : Type :=
  | JNull
  | JBool (b : bool)
  | JNum (n : Q)
  | JStr (s : string)
  | JArr (items : list json)
  | JObj (props : list (string * json)).

(** A JavaScript value handed to a callback: [None] is [undefined]. *)
Definition jsvalue : Type := option json.

(** [private listeners: Map<string, EventCallback[]>]. *)
Abbreviation Listeners := (gmap string (list EventCallback)).

(** [this.listeners.get(event) || []]: an array is never falsy, so the
    fallback is taken exactly when the key is missing. *)
Definition get_listeners (listeners : Listeners) (event : string)
  : list EventCallback :=
  default [] (listeners !! event).

(** [on(event, callback)]: push onto the array, store it back. *)
Definition on (listeners : Listeners) (event : string)
    (callback : EventCallback) : Listeners :=
  let existing := get_listeners listeners event in
  <[event := existing ++ [callback]]> listeners.

(** [off(event, callback)]: store [existing.filter(cb => cb !== callback)]. *)
Definition off (listeners : Listeners) (event : string)
    (callback : EventCallback) : Listeners :=
  let existing := get_listeners listeners event in
  <[event := filter (λ cb, cb ≠ callback) existing]> listeners.

(** ** The [onmessage] handler *)

(** One call [cb(msg.data)] made by the handler. *)
Definition call : Type := EventCallback * jsvalue.

(** How a block of statements ends, with the calls it made. *)
Inductive completion : Type :=
  | Normal (calls : list call)
  | Throw (calls : list call).

Definition calls_of (c : completion) : list call :=
  match c with Normal calls | Throw calls => calls end.

(** [msg.name] for [name] one of ["event"], ["data"], which no prototype
    defines: reading a property of [null] raises a TypeError ([None]);
    a primitive or an array has no such property ([Some None]). *)
Definition get_prop (msg : json) (name : string) : option jsvalue :=
  match msg with
  | JNull => None
  | JObj props => Some (snd <$> List.find (λ p, String.eqb (fst p) name) props)
  | _ => Some None
  end.

(** [this.listeners.get(key) || []] for an arbitrary key: every key of the
    map is a string, so any other value finds nothing. *)
Definition listeners_for (listeners : Listeners) (key : jsvalue)
  : list EventCallback :=
  match key with
  | Some (JStr event) => get_listeners listeners event
  | _ => []
  end.

Section Handler.

(** [JSON.parse]: [None] when it raises a SyntaxError. *)
Variable JSON_parse : string → option json.

(** Whether the call [cb(data)] raises. *)
Variable throws : EventCallback → jsvalue → bool.

(** [callbacks.forEach((cb) => cb(data))]: calls in index order; an
    exception leaves the loop at once. *)
Fixpoint forEach (callbacks : list EventCallback) (data : jsvalue)
  : completion :=
  match callbacks with
  | [] => Normal []
  | cb :: rest =>
      if throws cb data then Throw [(cb, data)]
      else match forEach rest data with
           | Normal calls => Normal ((cb, data) :: calls)
           | Throw calls => Throw ((cb, data) :: calls)
           end
  end.

(** The body of the [try] block. *)
Definition try_body (listeners : Listeners) (event_data : string)
  : completion :=
  match JSON_parse event_data with
  | None => Throw []
  | Some msg =>
      match get_prop msg "event" with
      | None => Throw []
      | Some key =>
          let callbacks := listeners_for listeners key in
          forEach callbacks (default None (get_prop msg "data"))
      end
  end.

(** [try { ... } catch { }]: whatever the body raised is dropped. *)
Definition onmessage (listeners : Listeners) (event_data : string)
  : completion :=
  match try_body listeners event_data with
  | Normal calls => Normal calls
  | Throw calls => Normal calls
  end.

(** The callbacks up to and including the first one that raises. *)
Fixpoint through_first_throw (callbacks : list EventCallback)
    (data : jsvalue) : list EventCallback :=
  match callbacks with
  | [] => []
  | cb :: rest =>
      if throws cb data then [cb] else cb :: through_first_throw rest data
  end.

End Handler.

(** ** Facts about the listener map *)

Lemma filter_ne_absent (callback : EventCallback) (l : list EventCallback) :
  callback ∉ l → filter (λ cb, cb ≠ callback) l = l.
Proof.
  induction l as [|c l IH]; intros Hnotin; [done|].
  apply not_elem_of_cons in Hnotin as [Hne Hl].
  rewrite filter_cons_True; [|congruence].
  by rewrite IH.
Qed.

Lemma get_listeners_on (listeners : Listeners) (e e' : string)
    (cb : EventCallback) :
  get_listeners (on listeners e cb) e' =
  get_listeners listeners e' ++ (if decide (e = e') then [cb] else []).
Proof.
  unfold on, get_listeners. case_decide as He.
  - subst. by rewrite lookup_insert_eq.
  - rewrite lookup_insert_ne; [|done]. by rewrite app_nil_r.
Qed.

Lemma get_listeners_off (listeners : Listeners) (e : string)
    (cb : EventCallback) :
  get_listeners (off listeners e cb) e =
  filter (λ c, c ≠ cb) (get_listeners listeners e).
Proof. unfold off, get_listeners at 1. by rewrite lookup_insert_eq. Qed.

(** C10. [off(e, cb)] leaves under [e] the previous callbacks without the
    occurrences of [cb], in their order, and does not touch the entry of
    any other event; so when [cb] was not registered under [e], [on(e, cb)]
    followed by [off(e, cb)] gives back the listeners of [e]. *)
Theorem off_removes_cb_only (listeners : Listeners) (e : string)
    (cb : EventCallback) :
  get_listeners (off listeners e cb) e =
    filter (λ c, c ≠ cb) (get_listeners listeners e)
  ∧ (∀ e', e' ≠ e → off listeners e cb !! e' = listeners !! e')
  ∧ (cb ∉ get_listeners listeners e →
     get_listeners (off (on listeners e cb) e cb) e =
       get_listeners listeners e).
Proof.
  split; [apply get_listeners_off|]. split.
  - intros e' Hne. unfold off. by rewrite lookup_insert_ne.
  - intros Hfresh. rewrite get_listeners_off, get_listeners_on.
    rewrite decide_True by done. rewrite filter_app, filter_ne_absent by done.
    rewrite filter_cons_False; [|naive_solver]. by rewrite filter_nil, app_nil_r.
Qed.

Lemma off_removes_cb_only_witness :
  (2%positive ∉ get_listeners (on ∅ "new_trade" 1%positive) "new_trade")
  ∧ get_listeners
      (off (on (on ∅ "new_trade" 1%positive) "new_trade" 2%positive)
         "new_trade" 2%positive) "new_trade" = [1%positive].
Proof.
  assert (Hget : get_listeners (on ∅ "new_trade" 1%positive) "new_trade"
                 = [1%positive]).
  { rewrite get_listeners_on, decide_True by done. done. }
  assert (Hfresh : 2%positive ∉
            get_listeners (on ∅ "new_trade" 1%positive) "new_trade").
  { rewrite Hget. intros Hin. apply list_elem_of_singleton in Hin. lia. }
  split; [exact Hfresh|].
  rewrite <- Hget.
  exact (proj2 (proj2 (off_removes_cb_only
                  (on ∅ "new_trade" 1%positive) "new_trade" 2%positive))
           Hfresh).
Defined.

(** ** Facts about the handler *)

Section HandlerFacts.

Variable JSON_parse : string → option json.
Variable throws : EventCallback → jsvalue → bool.

Lemma forEach_calls (callbacks : list EventCallback) (data : jsvalue) :
  calls_of (forEach throws callbacks data) =
  (λ cb, (cb, data)) <$> through_first_throw throws callbacks data.
Proof.
  induction callbacks as [|cb rest IH]; simpl; [done|].
  destruct (throws cb data); [done|].
  destruct (forEach throws rest data); simpl in *; by rewrite IH.
Qed.

Lemma through_first_throw_none (callbacks : list EventCallback)
    (data : jsvalue) :
  (∀ cb, cb ∈ callbacks → throws cb data = false) →
  through_first_throw throws callbacks data = callbacks.
Proof.
  induction callbacks as [|cb rest IH]; intros Hquiet; simpl; [done|].
  rewrite Hquiet by apply list_elem_of_here.
  rewrite IH; [done|]. intros c Hc. apply Hquiet. by apply list_elem_of_further.
Qed.

Lemma through_first_throw_prefix (callbacks : list EventCallback)
    (data : jsvalue) :
  through_first_throw throws callbacks data `prefix_of` callbacks.
Proof.
  induction callbacks as [|cb rest IH]; simpl; [done|].
  destruct (throws cb data).
  - by apply (prefix_cons cb [] rest), prefix_nil.
  - by apply prefix_cons.
Qed.

Lemma onmessage_calls (listeners : Listeners) (event_data : string) :
  onmessage JSON_parse throws listeners event_data =
  Normal (calls_of (try_body JSON_parse throws listeners event_data)).
Proof. unfold onmessage. by destruct (try_body _ _ _ _). Qed.

Lemma onmessage_event (listeners : Listeners) (event_data : string)
    (msg : json) (event : string) :
  JSON_parse event_data = Some msg →
  get_prop msg "event" = Some (Some (JStr event)) →
  onmessage JSON_parse throws listeners event_data =
  Normal ((λ cb, (cb, default None (get_prop msg "data"))) <$>
          through_first_throw throws (get_listeners listeners event)
            (default None (get_prop msg "data"))).
Proof.
  intros Hparse Hevent. rewrite onmessage_calls. unfold try_body.
  rewrite Hparse, Hevent. simpl. apply f_equal, forEach_calls.
Qed.

End HandlerFacts.

End WSClient.

(* ===================================================================== *)
(** * The dashboard page: its subscriptions *)
(* ===================================================================== *)

Module Dashboard.

Import WSClient.

(** One run of the effect: [wsClient.on("price_update", () => loadData())]
    then [wsClient.on("new_trade", () => loadData())]. Each run makes two
    new closures; the clean-up only disconnects. *)
Definition subscribe (listeners : Listeners)
    (on_price_update on_new_trade : EventCallback) : Listeners :=
  on (on listeners "price_update" on_price_update) "new_trade" on_new_trade.

(** What one run of the effect adds under an event name. *)
Definition subscribed (event : string)
    (on_price_update on_new_trade : EventCallback) : list EventCallback :=
  if decide (event = "price_update") then [on_price_update]
  else if decide (event = "new_trade") then [on_new_trade]
  else [].

(** The dispatch rule as the claim words it: every callback registered under
    the event name of a parsed message is called with the message's data. *)
Definition dispatches_to_all_registered : Prop :=
  ∀ (JSON_parse : string → option json)
    (throws : EventCallback → jsvalue → bool)
    (listeners : Listeners) (event_data : string) (msg : json)
    (event : string),
    JSON_parse event_data = Some msg →
    get_prop msg "event" = Some (Some (JStr event)) →
    calls_of (onmessage JSON_parse throws listeners event_data) =
    (λ cb, (cb, default None (get_prop msg "data"))) <$>
      get_listeners listeners event.

Lemma get_listeners_subscribe (listeners : Listeners) (event : string)
    (on_price_update on_new_trade : EventCallback) :
  get_listeners (subscribe listeners on_price_update on_new_trade) event =
  get_listeners listeners event ++
  subscribed event on_price_update on_new_trade.
Proof.
  unfold subscribe, subscribed. rewrite !get_listeners_on.
  repeat case_decide; subst; try done; by rewrite <- app_assoc.
Qed.

(** C6, as the code has it. One run of the dashboard's effect adds one
    callback under "price_update", one under "new_trade" and nothing under
    any other name. For a message that parses and whose [event] is a string,
    the handler calls, in registration order and with the message's [data],
    the callbacks registered under that name up to and including the first
    one that raises, hence all of them when none raises, and it calls no
    other callback. A message whose [event] is not a string, or that does
    not parse, causes no call, and the handler never propagates an
    exception. *)
Theorem dispatch_by_event_name (JSON_parse : string → option json)
    (throws : EventCallback → jsvalue → bool) (listeners : Listeners) :
  (∀ event on_price_update on_new_trade,
     get_listeners (subscribe listeners on_price_update on_new_trade) event =
     get_listeners listeners event ++
     subscribed event on_price_update on_new_trade)
  ∧ (∀ event on_price_update on_new_trade,
       subscribed event on_price_update on_new_trade ≠ [] ↔
       event = "price_update" ∨ event = "new_trade")
  ∧ (∀ event_data msg event,
       JSON_parse event_data = Some msg →
       get_prop msg "event" = Some (Some (JStr event)) →
       let data := default None (get_prop msg "data") in
       let called := through_first_throw throws
                       (get_listeners listeners event) data in
       onmessage JSON_parse throws listeners event_data =
         Normal ((λ cb, (cb, data)) <$> called)
       ∧ called `prefix_of` get_listeners listeners event
       ∧ ((∀ cb, cb ∈ get_listeners listeners event →
                 throws cb data = false) →
          called = get_listeners listeners event))
  ∧ (∀ event_data msg,
       JSON_parse event_data = Some msg →
       (∀ event, get_prop msg "event" ≠ Some (Some (JStr event))) →
       onmessage JSON_parse throws listeners event_data = Normal [])
  ∧ (∀ event_data,
       JSON_parse event_data = None →
       onmessage JSON_parse throws listeners event_data = Normal [])
  ∧ (∀ event_data, ∃ calls,
       onmessage JSON_parse throws listeners event_data = Normal calls).
Proof.
  split; [intros; apply get_listeners_subscribe|].
  split.
  { intros event a b. unfold subscribed.
    case_decide as Hp; [split; [by left|done]|].
    case_decide as Ht; [split; [by right|done]|].
    split; [done|]. by intros [?|?]. }
  split.
  { intros event_data msg event Hparse Hevent data called.
    split; [by apply onmessage_event|].
    split; [apply through_first_throw_prefix|].
    apply through_first_throw_none. }
  split.
  { intros event_data msg Hparse Hevent. rewrite onmessage_calls.
    unfold try_body. rewrite Hparse.
    destruct (get_prop msg "event") as [[[]|]|] eqn:Hkey; try done.
    by destruct (Hevent s). }
  split.
  { intros event_data Hparse. rewrite onmessage_calls. unfold try_body.
    by rewrite Hparse. }
  intros event_data. eexists. apply onmessage_calls.
Qed.

(** A message for "new_trade" with two callbacks registered, the first of
    which raises. *)
Definition msg_new_trade : json :=
  JObj [("event", JStr "new_trade"); ("data", JNum 1%Q)].

Definition two_listeners : Listeners :=
  on (on ∅ "new_trade" 1%positive) "new_trade" 2%positive.

Definition first_raises (cb : EventCallback) (_ : jsvalue) : bool :=
  bool_decide (cb = 1%positive).

Lemma two_listeners_new_trade :
  get_listeners two_listeners "new_trade" = [1%positive; 2%positive].
Proof.
  unfold two_listeners. rewrite !get_listeners_on, !decide_True by done. done.
Qed.

Lemma dispatch_by_event_name_witness :
  onmessage (λ _, Some msg_new_trade) (λ _ _, false) two_listeners "{}" =
  Normal [(1%positive, Some (JNum 1%Q)); (2%positive, Some (JNum 1%Q))].
Proof.
  pose proof (dispatch_by_event_name (λ _, Some msg_new_trade) (λ _ _, false)
                two_listeners) as (_ & _ & Hdispatch & _).
  destruct (Hdispatch "{}" msg_new_trade "new_trade" eq_refl eq_refl)
    as (Hcalls & _ & Hall).
  rewrite Hcalls, Hall by done. by rewrite two_listeners_new_trade.
Defined.

(** The second callback never sees the message: the claim's dispatch rule
    fails when a callback raises. *)
Lemma dispatch_stops_at_first_throw : ¬ dispatches_to_all_registered.
Proof.
  intros Hall.
  specialize (Hall (λ _, Some msg_new_trade) first_raises two_listeners "{}"
                msg_new_trade "new_trade" eq_refl eq_refl).
  rewrite (onmessage_event _ _ _ _ msg_new_trade "new_trade") in Hall by done.
  rewrite two_listeners_new_trade in Hall. simpl in Hall. discriminate Hall.
Qed.

End Dashboard.

(* ===================================================================== *)
(** * The chart component: overlays, line series and live ticks *)
(* ===================================================================== *)

Module Chart.

(** ** The set of active overlays *)

(** [type OverlayKey = keyof typeof OVERLAY_CONFIGS]; the imperative handle
    casts any string to it, so a key is a string at run time. *)
Definition OverlayKey : Type := string.

Record OverlayConfig : Type := {
  label : string;
  color : string;
  default_on : bool;
}.

Definition OVERLAY_CONFIGS : list (OverlayKey * OverlayConfig) :=
  [ ("ema_9", {| label := "EMA 9"; color := "#58a6ff"; default_on := true |});
    ("ema_21", {| label := "EMA 21"; color := "#d29922"; default_on := true |});
    ("ema_50", {| label := "EMA 50"; color := "#bc8cff"; default_on := false |});
    ("ema_200",
      {| label := "EMA 200"; color := "#f85149"; default_on := false |});
    ("bb", {| label := "Bollinger"; color := "#8b949e"; default_on := true |});
    ("support",
      {| label := "Support"; color := "#00c853"; default_on := true |});
    ("resistance",
      {| label := "Resistance"; color := "#ff1744"; default_on := true |}) ].

(** A [Set<OverlayKey>] object: the reference it lives at and its members.
    The component only asks [has], so the insertion order is left out. *)
Record SetObject : Type := {
  ref : positive;
  members : gset OverlayKey;
}.

(** The initial state: the keys whose config has [default: true]. *)
Definition initial_overlays (fresh : positive) : SetObject :=
  {| ref := fresh;
     members :=
       list_to_set (fst <$> filter (λ kc, default_on (snd kc) = true)
                                   OVERLAY_CONFIGS) |}.

(** The updater of [toggleOverlay]: [next = new Set(prev)], allocated at
    [fresh]; then delete the key if present, add it otherwise. *)
Definition toggleOverlay (fresh : positive) (prev : SetObject)
    (key : OverlayKey) : SetObject :=
  let next := members prev in
  {| ref := fresh;
     members := if decide (key ∈ next) then next ∖ {[key]}
                else next ∪ {[key]} |}.

(** The updater of [ensureOverlay]: [if (prev.has(key)) return prev],
    otherwise a copy at [fresh] with the key added. *)
Definition ensureOverlay (fresh : positive) (prev : SetObject)
    (key : OverlayKey) : SetObject :=
  if decide (key ∈ members prev) then prev
  else {| ref := fresh; members := members prev ∪ {[key]} |}.

(** ** Line series *)

(** [Time]: seconds since the epoch. *)
Definition Time : Type := Q.

Record LineData : Type := {
  line_time : Time;
  line_value : Q;
}.

Inductive LineStyle : Type := Solid | Dotted | Dashed.

Record LineSeries : Type := {
  series_color : string;
  series_lineWidth : nat;
  series_lineStyle : LineStyle;
  series_data : list LineData;
}.

(** [interface Overlays]: an entry is a number or [null] ([None]). *)
Record Overlays : Type := {
  ov_ema_9 : list (option Q);
  ov_ema_21 : list (option Q);
  ov_ema_50 : list (option Q);
  ov_ema_200 : list (option Q);
  ov_bb_upper : list (option Q);
  ov_bb_middle : list (option Q);
  ov_bb_lower : list (option Q);
  ov_timestamps : list string;
}.

(** The loop of [addLine], from index [i] on: for every timestamp, push a
    point when [values[i]] is neither [null] nor [undefined] (an index past
    the end of [values] reads [undefined]). *)
Fixpoint addLine_data (i : nat) (timestamps : list Time)
    (values : list (option Q)) : list LineData :=
  match timestamps with
  | [] => []
  | t :: rest =>
      match values !! i with
      | Some (Some v) =>
          {| line_time := t; line_value := v |}
            :: addLine_data (S i) rest values
      | _ => addLine_data (S i) rest values
      end
  end.

(** The point that [addLine] plots for index [j] and timestamp [t], if
    [values[j]] holds a number. *)
Definition point_at (values : list (option Q)) (jt : nat * Time)
  : option LineData :=
  v ← mjoin (values !! jt.1);
  Some {| line_time := jt.2; line_value := v |}.

(** [addLine]: no series when there is no point; otherwise a series with
    the points, remembered under [key]. *)
Definition addLine (timestamps : list Time)
    (lineSeries : gmap string LineSeries) (key : string)
    (values : list (option Q)) (color : string) (lineWidth : nat)
    (lineStyle : LineStyle) : gmap string LineSeries :=
  let data := addLine_data 0 timestamps values in
  if decide (length data = 0) then lineSeries
  else <[key := {| series_color := color; series_lineWidth := lineWidth;
                   series_lineStyle := lineStyle; series_data := data |}]>
         lineSeries.

(** ** Candles and the refs of the component *)

(** [interface Candle], a bar as the back end sends it. *)
Module Candle.
Record t : Type := {
  timestamp : string;
  open : Q;
  high : Q;
  low : Q;
  close : Q;
  volume : Q;
}.
End Candle.

(** [CandlestickData], a bar as the chart library takes it. *)
Record CandlestickData : Type := {
  time : Time;
  open : Q;
  high : Q;
  low : Q;
  close : Q;
}.

(** The refs the effects read and write: whether the chart and its candle
    series exist (the creating effect sets both), the data last given to
    [setData], the bars since given to [update], the tracked last candle,
    and the line series by key. *)
Record ChartState : Type := {
  seriesRef : bool;
  candle_data : list CandlestickData;
  series_updates : list CandlestickData;
  lastCandleRef : option CandlestickData;
  lineSeriesRefs : gmap string LineSeries;
}.

Section Render.

(** [new Date(t).getTime() / 1000]. *)
Variable seconds_of : string → Time.

Definition chartData (candles : list Candle.t) : list CandlestickData :=
  (λ c, {| time := seconds_of (Candle.timestamp c);
           open := Candle.open c;
           high := Candle.high c;
           low := Candle.low c;
           close := Candle.close c |}) <$> candles.

(** The overlay part of the data effect, after the old series were removed:
    nothing without overlays or timestamps, else one line per active key. *)
Definition render_lines (activeOverlays : SetObject)
    (overlays : option Overlays) : gmap string LineSeries :=
  match overlays with
  | None => ∅
  | Some ov =>
      if decide (length (ov_timestamps ov) = 0) then ∅
      else
        let timestamps := seconds_of <$> ov_timestamps ov in
        let has key := bool_decide (key ∈ members activeOverlays) in
        let s0 : gmap string LineSeries := ∅ in
        let s1 := if has "ema_9"
                  then addLine timestamps s0 "ema_9" (ov_ema_9 ov)
                         "#58a6ff" 1 Solid
                  else s0 in
        let s2 := if has "ema_21"
                  then addLine timestamps s1 "ema_21" (ov_ema_21 ov)
                         "#d29922" 1 Solid
                  else s1 in
        let s3 := if has "ema_50"
                  then addLine timestamps s2 "ema_50" (ov_ema_50 ov)
                         "#bc8cff" 2 Solid
                  else s2 in
        let s4 := if has "ema_200"
                  then addLine timestamps s3 "ema_200" (ov_ema_200 ov)
                         "#f85149" 2 Dashed
                  else s3 in
        if has "bb"
        then
          let s5 := addLine timestamps s4 "bb_upper" (ov_bb_upper ov)
                      "rgba(139,148,158,0.5)" 1 Dotted in
          let s6 := addLine timestamps s5 "bb_middle" (ov_bb_middle ov)
                      "rgba(139,148,158,0.3)" 1 Dashed in
          addLine timestamps s6 "bb_lower" (ov_bb_lower ov)
            "rgba(139,148,158,0.5)" 1 Dotted
        else s4
  end.

(** The data effect, as far as the candle series, the tracked candle and
    the line series go (it also sets the trade markers and the support and
    resistance price lines, which touch none of these): nothing happens
    without a chart or without candles; else the candles are set, the last
    one is tracked, the old lines are removed and the new ones added. *)
Definition data_effect (st : ChartState) (candles : list Candle.t)
    (overlays : option Overlays) (activeOverlays : SetObject) : ChartState :=
  match seriesRef st, candles with
  | true, _ :: _ =>
      let data := chartData candles in
      {| seriesRef := true;
         candle_data := data;
         series_updates := [];
         lastCandleRef := match last data with
                          | Some lc => Some lc
                          | None => lastCandleRef st
                          end;
         lineSeriesRefs := render_lines activeOverlays overlays |}
  | _, _ => st
  end.

End Render.

(** ** Live ticks *)

Record TickUpdate : Type := {
  price : Q;
  timestamp : string;
}.

(** The object [updated] built by the live tick effect. *)
Definition updated (lc : CandlestickData) (latestTick : TickUpdate)
  : CandlestickData :=
  {| time := time lc;
     open := open lc;
     high := Qmax (high lc) (price latestTick);
     low := Qmin (low lc) (price latestTick);
     close := price latestTick |}.

(** The live tick effect: return at once without a tick, a series or a
    tracked candle; else update the series and track the new candle. *)
Definition live_tick (st : ChartState) (latestTick : option TickUpdate)
  : ChartState :=
  match latestTick, seriesRef st, lastCandleRef st with
  | Some tick, true, Some lc =>
      let u := updated lc tick in
      {| seriesRef := true;
         candle_data := candle_data st;
         series_updates := series_updates st ++ [u];
         lastCandleRef := Some u;
         lineSeriesRefs := lineSeriesRefs st |}
  | _, _, _ => st
  end.

(** Low below the body, high above it. *)
Definition ohlc_consistent (c : CandlestickData) : Prop :=
  (low c <= Qmin (open c) (close c))%Q ∧ (Qmax (open c) (close c) <= high c)%Q.

(** ** Facts about the overlay set *)

(** C9. Toggling a key twice gives back the members of the set; ensuring a
    key that is already a member returns the very same object; ensuring a
    key twice is ensuring it once. *)
Theorem toggle_involutive_ensure_idempotent (prev : SetObject)
    (k : OverlayKey) (fresh1 fresh2 : positive) :
  members (toggleOverlay fresh2 (toggleOverlay fresh1 prev k) k) = members prev
  ∧ (k ∈ members prev → ensureOverlay fresh1 prev k = prev)
  ∧ ensureOverlay fresh2 (ensureOverlay fresh1 prev k) k =
    ensureOverlay fresh1 prev k.
Proof.
  split; [|split].
  - unfold toggleOverlay; simpl.
    destruct (decide (k ∈ members prev)) as [Hin|Hout].
    + rewrite decide_False by set_solver.
      apply set_eq; intros x. destruct (decide (x = k)); set_solver.
    + rewrite decide_True by set_solver. set_solver.
  - intros Hin. unfold ensureOverlay. by rewrite decide_True.
  - unfold ensureOverlay.
    destruct (decide (k ∈ members prev)) as [Hin|Hout].
    + by rewrite decide_True.
    + simpl. rewrite decide_True by set_solver. done.
Qed.

Lemma toggle_involutive_ensure_idempotent_witness :
  "bb" ∈ members (initial_overlays 1%positive)
  ∧ ensureOverlay 2%positive (initial_overlays 1%positive) "bb" =
    initial_overlays 1%positive.
Proof.
  assert (Hin : "bb" ∈ members (initial_overlays 1%positive)).
  { unfold initial_overlays; simpl. set_solver. }
  split; [exact Hin|].
  exact (proj1 (proj2 (toggle_involutive_ensure_idempotent
                         (initial_overlays 1%positive) "bb"
                         2%positive 3%positive)) Hin).
Defined.

(** ** Facts about live ticks *)

(** C8. The candle built from the tracked candle [c] and a tick keeps the
    time and the open of [c], closes at the tick's price, and stretches the
    high and the low to it; it is the candle the effect hands to the series
    and tracks next; and it is consistent when [c] was. *)
Theorem live_tick_update (c : CandlestickData) (tick : TickUpdate) :
  let u := updated c tick in
  time u = time c
  ∧ open u = open c
  ∧ close u = price tick
  ∧ high u = Qmax (high c) (price tick)
  ∧ low u = Qmin (low c) (price tick)
  ∧ (∀ st, seriesRef st = true → lastCandleRef st = Some c →
       lastCandleRef (live_tick st (Some tick)) = Some u
       ∧ series_updates (live_tick st (Some tick)) = series_updates st ++ [u])
  ∧ (ohlc_consistent c → ohlc_consistent u).
Proof.
  simpl. repeat (split; [reflexivity|]). split.
  - intros st Hseries Hlast. unfold live_tick. by rewrite Hseries, Hlast.
  - unfold ohlc_consistent; simpl. intros [Hlow Hhigh].
    destruct (Q.min_spec (open c) (close c)) as [[? ?]|[? ?]];
    destruct (Q.max_spec (open c) (close c)) as [[? ?]|[? ?]];
    destruct (Q.min_spec (low c) (price tick)) as [[? ?]|[? ?]];
    destruct (Q.max_spec (high c) (price tick)) as [[? ?]|[? ?]];
    destruct (Q.min_spec (open c) (price tick)) as [[? ?]|[? ?]];
    destruct (Q.max_spec (open c) (price tick)) as [[? ?]|[? ?]];
    split; lra.
Qed.

Definition candle_100 : CandlestickData :=
  {| time := 1700000000%Q; open := 100%Q; high := 105%Q; low := 98%Q;
     close := 101%Q |}.

Definition tick_107 : TickUpdate :=
  {| price := 107%Q; timestamp := "2023-11-14T22:13:20Z" |}.

Lemma live_tick_update_witness :
  ohlc_consistent candle_100 ∧ ohlc_consistent (updated candle_100 tick_107).
Proof.
  assert (Hc : ohlc_consistent candle_100).
  { unfold ohlc_consistent; simpl. split; vm_compute; discriminate. }
  split; [exact Hc|].
  exact (proj2 (proj2 (proj2 (proj2 (proj2 (proj2
           (live_tick_update candle_100 tick_107)))))) Hc).
Defined.

(** ** Facts about [addLine] *)

Lemma addLine_data_elem (i : nat) (timestamps : list Time)
    (values : list (option Q)) (pt : LineData) :
  pt ∈ addLine_data i timestamps values ↔
  ∃ j, timestamps !! j = Some (line_time pt)
       ∧ values !! (i + j)%nat = Some (Some (line_value pt)).
Proof.
  revert i. induction timestamps as [|t rest IH]; intros i; simpl.
  - split; [by intros ?%elem_of_nil|]. by intros (j & Hj & _).
  - assert (Hrest : pt ∈ addLine_data (S i) rest values ↔
              ∃ j, (t :: rest) !! S j = Some (line_time pt)
                   ∧ values !! (i + S j)%nat = Some (Some (line_value pt))).
    { rewrite IH. by setoid_rewrite Nat.add_succ_r. }
    assert (Hsplit : ∀ P : nat → Prop, (∃ j, P j) ↔ P 0%nat ∨ ∃ j, P (S j)).
    { intros P. split.
      - intros ([|j] & HP); eauto.
      - intros [HP|(j & HP)]; eauto. }
    rewrite (Hsplit (λ j, _ ∧ _)), <- Hrest, Nat.add_0_r. simpl.
    destruct (values !! i) as [[v|]|] eqn:Hv.
    + rewrite elem_of_cons. split.
      * intros [->|Hin]; [left|right]; done.
      * intros [[Ht Hval]|Hin]; [left|by right].
        destruct pt; simpl in *; congruence.
    + split; [by right|]. by intros [[_ ?]|?].
    + split; [by right|]. by intros [[_ ?]|?].
Qed.

Lemma addLine_data_points (i : nat) (timestamps : list Time)
    (values : list (option Q)) :
  addLine_data i timestamps values =
  omap (point_at values) (zip (seq i (length timestamps)) timestamps).
Proof.
  revert i. induction timestamps as [|t rest IH]; intros i; simpl; [done|].
  rewrite IH.
  assert (Hpt : point_at values (i, t) =
                match values !! i with
                | Some (Some v) => Some {| line_time := t; line_value := v |}
                | _ => None
                end).
  { unfold point_at; simpl. by destruct (values !! i) as [[v|]|]. }
  rewrite Hpt. by destruct (values !! i) as [[v|]|].
Qed.

Lemma addLine_data_all_null (i : nat) (timestamps : list Time)
    (values : list (option Q)) :
  (∀ j v, values !! j ≠ Some (Some v)) → addLine_data i timestamps values = [].
Proof.
  intros Hnull. revert i. induction timestamps as [|t rest IH]; intros i;
    simpl; [done|].
  destruct (values !! i) as [[v|]|] eqn:Hv; [|by apply IH..].
  by destruct (Hnull i v).
Qed.

Lemma addLine_all_null (timestamps : list Time)
    (lineSeries : gmap string LineSeries) (key : string)
    (values : list (option Q)) (color : string) (lineWidth : nat)
    (lineStyle : LineStyle) :
  (∀ j v, values !! j ≠ Some (Some v)) →
  addLine timestamps lineSeries key values color lineWidth lineStyle =
  lineSeries.
Proof.
  intros Hnull. unfold addLine. by rewrite addLine_data_all_null.
Qed.

Lemma addLine_lookup_ne (timestamps : list Time)
    (lineSeries : gmap string LineSeries) (key other : string)
    (values : list (option Q)) (color : string) (lineWidth : nat)
    (lineStyle : LineStyle) :
  key ≠ other →
  addLine timestamps lineSeries key values color lineWidth lineStyle !! other =
  lineSeries !! other.
Proof.
  intros Hne. unfold addLine. case_decide; [done|].
  by rewrite lookup_insert_ne.
Qed.

End Chart.

(* ===================================================================== *)
(** * The trade log and the trade page: how a confluence score is shown *)
(* ===================================================================== *)

Module TradeLog.

(** The palette of [ConfidenceBadge], indexed by score. *)
Definition colors : list string :=
  [ "";
    "bg-red-500/20 text-red-400";
    "bg-yellow-500/20 text-yellow-400";
    "bg-blue-500/20 text-blue-400";
    "bg-green-500/20 text-green-400";
    "bg-purple-500/20 text-purple-400" ].

(** [colors[score]] for a score that is an integer, as a vote count is:
    [undefined] off the array. *)
Definition colors_at (score : Z) : option string :=
  if (score <? 0)%Z then None else colors !! Z.to_nat score.

(** [colors[score] || colors[1]]: the empty string and [undefined] are
    falsy. *)
Definition badge_color (score : Z) : string :=
  match colors_at score with
  | Some c => if decide (c = "") then default "" (colors !! 1%nat) else c
  | None => default "" (colors !! 1%nat)
  end.

(** What [ConfidenceBadge] renders: the class of the span and its text
    [{score}/5]. *)
Record Badge : Type := {
  className : string;
  text : string;
}.

Definition ConfidenceBadge (score : Z) : Badge :=
  {| className := "px-1.5 py-0.5 rounded text-xs font-mono " +:+ badge_color score;
     text := pretty score +:+ "/5" |}.

(** The text of the strong element after "Confluence: " on the trade page:
    [{trade.confluence_score}/5]. *)
Definition TradeDetailPage_confluence (confluence_score : Z) : string :=
  pretty confluence_score +:+ "/5".

(** The claim's reading: the score is shown out of the number of enabled
    strategies, of which there are at most four. *)
Definition shows_score_out_of_enabled : Prop :=
  ∀ (score : Z) (enabled : nat), (enabled ≤ 4)%nat →
    text (ConfidenceBadge score) = pretty score +:+ "/" +:+ pretty enabled
    ∧ TradeDetailPage_confluence score =
      pretty score +:+ "/" +:+ pretty enabled.

(** The claim's own words: the display never uses the denominator 5. *)
Definition display_avoids_five : Prop :=
  ∀ score : Z,
    text (ConfidenceBadge score) ≠ pretty score +:+ "/5"
    ∧ TradeDetailPage_confluence score ≠ pretty score +:+ "/5".

Lemma string_app_inv_head (s x y : string) : s +:+ x = s +:+ y → x = y.
Proof.
  induction s as [|c s IH]; simpl; [done|].
  intros Heq. apply IH. by injection Heq.
Qed.

(** C3, as the code has it. On the trade log and on the trade page the
    score is followed by the fixed text "/5", whatever the configuration;
    so the denominator shown is never a number of enabled strategies, which
    is at most four. *)
Theorem score_shown_out_of_five (score : Z) :
  text (ConfidenceBadge score) = pretty score +:+ "/5"
  ∧ TradeDetailPage_confluence score = pretty score +:+ "/5"
  ∧ (∀ enabled : nat, (enabled ≤ 4)%nat →
       text (ConfidenceBadge score) ≠ pretty score +:+ "/" +:+ pretty enabled
       ∧ TradeDetailPage_confluence score ≠
         pretty score +:+ "/" +:+ pretty enabled).
Proof.
  split; [done|]. split; [done|].
  intros enabled Hle.
  assert (Hne : pretty score +:+ "/5" ≠ pretty score +:+ "/" +:+ pretty enabled).
  { intros Heq. apply string_app_inv_head in Heq.
    apply (string_app_inv_head "/" "5" (pretty enabled)) in Heq.
    change "5" with (pretty 5%nat) in Heq.
    apply (inj pretty) in Heq. lia. }
  by split.
Qed.

Lemma score_shown_out_of_five_witness :
  text (ConfidenceBadge 3) ≠ pretty 3%Z +:+ "/" +:+ pretty 4%nat.
Proof.
  apply (proj2 (proj2 (score_shown_out_of_five 3)) 4%nat). lia.
Defined.

(** A trade with score 3 under four enabled strategies is shown as "3/5",
    on both readings of the claim. *)
Lemma score_three_of_four_shown_as_3_5 :
  text (ConfidenceBadge 3) = "3/5"
  ∧ TradeDetailPage_confluence 3 = "3/5"
  ∧ ¬ shows_score_out_of_enabled
  ∧ ¬ display_avoids_five.
Proof.
  split; [reflexivity|]. split; [reflexivity|]. split.
  - intros Hclaim. destruct (Hclaim 3%Z 4%nat) as [Hbadge _]; [lia|].
    vm_compute in Hbadge. discriminate Hbadge.
  - intros Hclaim. by destruct (Hclaim 3%Z) as [Hbadge _].
Qed.

End TradeLog.

(* ===================================================================== *)
(** * The indicator engine (back end; from the specification) *)
(* ===================================================================== *)

Module Indicators.

(** Modelled from the spec: the [Candle] of the absent engine's data model,
    {timestamp, open, high, low, close, volume}. *)
Record Candle : Type := {
  timestamp : string;
  open : Q;
  high : Q;
  low : Q;
  close : Q;
  volume : Q;
}.

(** Modelled from the spec: the fixed indicator set of the absent engine's
    [IndicatorSet]. *)
Inductive Indicator : Type :=
  | rsi
  | macd | macd_signal | macd_histogram
  | adx
  | ema_9 | ema_21 | ema_50 | ema_200
  | bb_upper | bb_middle | bb_lower.

(** Modelled from the spec: the period of each indicator ("warm-up = the
    indicator's period"), which the absent engine fixes as rsi(14),
    macd(12,26,9), adx(14), ema 9/21/50/200 and bollinger(20). For the MACD
    family the period is that of the slow average. *)
Definition period (ind : Indicator) : nat :=
  match ind with
  | rsi => 14
  | macd | macd_signal | macd_histogram => 26
  | adx => 14
  | ema_9 => 9 | ema_21 => 21 | ema_50 => 50 | ema_200 => 200
  | bb_upper | bb_middle | bb_lower => 20
  end.

(** Modelled from the spec: the first index at which the absent engine
    gives a value, section 4.1: RSI "undefined for indices < 14", MACD
    "undefined until ... index ≥ 26", ADX "undefined before index 14×2",
    EMA "undefined before index = period−1", Bollinger "undefined before
    index 19". *)
Definition first_defined (ind : Indicator) : nat :=
  match ind with
  | rsi => 14
  | macd | macd_signal | macd_histogram => 26
  | adx => 14 * 2
  | ema_9 | ema_21 | ema_50 | ema_200 => period ind - 1
  | bb_upper | bb_middle | bb_lower => 19
  end.

Section Engine.

(** The number an indicator takes at the last candle of a history that is
    long enough for it. The engine's arithmetic is floating point and is
    left open; no statement below depends on it. *)
Variable value_at_last : Indicator → list Candle → Q.

(** Modelled from the spec: the absent [IndicatorEngine], one series per
    indicator, "aligned by index to the candle list"; the entry at index
    [i] is absent before [first_defined] and otherwise is computed from the
    candles up to [i] alone ("a partial re-run over a longer candle set must
    reproduce identical values at overlapping indices"). *)
Definition series (ind : Indicator) (candles : list Candle)
  : list (option Q) :=
  imap (λ i _, if (i <? first_defined ind)%nat then None
               else Some (value_at_last ind (take (S i) candles)))
       candles.

(** Modelled from the spec: the [IndicatorSet] of the absent engine, the
    series of every indicator. *)
Definition IndicatorSet : Type := Indicator → list (option Q).

(** Modelled from the spec: the output of the absent engine for a candle
    history. *)
Definition compute (candles : list Candle) : IndicatorSet :=
  λ ind, series ind candles.

End Engine.

(** ** The exponential moving average, step by step *)

Definition mean (l : list Q) : Q :=
  (fold_right Qplus 0 l / inject_Z (Z.of_nat (length l)))%Q.

(** Modelled from the spec: the smoothing of the absent engine's "standard
    exponential moving average", each value from the close and the value
    before it. *)
Fixpoint ema_from (alpha prev : Q) (closes : list Q) : list (option Q) :=
  match closes with
  | [] => []
  | x :: rest =>
      let e := (alpha * x + (1 - alpha) * prev)%Q in
      Some e :: ema_from alpha e rest
  end.

(** Modelled from the spec: EMA(n) of the absent engine, "seeded by a
    simple average of the first period candles; undefined before index =
    period−1"; with fewer than [n] closes there is no seed and no value. *)
Definition ema (n : nat) (closes : list Q) : list (option Q) :=
  match n with
  | 0%nat => replicate (length closes) None
  | S m =>
      if (length closes <? n)%nat then replicate (length closes) None
      else
        let seed := mean (take n closes) in
        replicate m None ++
        Some seed :: ema_from (2 / inject_Z (Z.of_nat (n + 1))) seed
                       (drop n closes)
  end.

(** The value of EMA(n) at the last candle of a history, 0 when it has
    none. *)
Definition ema_last (n : nat) (history : list Candle) : Q :=
  default 0%Q (mjoin (last (ema n (close <$> history)))).

(** The engine with the moving averages computed step by step; the other
    indicators are given the value 0. *)
Definition ema_engine (ind : Indicator) (history : list Candle) : Q :=
  match ind with
  | ema_9 | ema_21 | ema_50 | ema_200 => ema_last (period ind) history
  | _ => 0%Q
  end.

Definition flat_candle (c : Q) : Candle :=
  {| timestamp := ""; open := c; high := c; low := c; close := c;
     volume := 1%Q |}.

(** ** Facts about the moving average *)

Lemma ema_from_length (alpha prev : Q) (closes : list Q) :
  length (ema_from alpha prev closes) = length closes.
Proof.
  revert prev. induction closes as [|x rest IH]; intros prev; simpl; [done|].
  by rewrite IH.
Qed.

Lemma ema_from_take (alpha prev : Q) (closes : list Q) (k : nat) :
  take k (ema_from alpha prev closes) = ema_from alpha prev (take k closes).
Proof.
  revert prev k. induction closes as [|x rest IH]; intros prev k; simpl.
  - by rewrite !take_nil.
  - destruct k as [|k]; simpl; [done|]. by rewrite IH.
Qed.

Lemma ema_from_defined (alpha prev : Q) (closes : list Q) (i : nat) :
  (i < length closes)%nat →
  ∃ v, ema_from alpha prev closes !! i = Some (Some v).
Proof.
  revert prev i. induction closes as [|x rest IH]; intros prev i Hi;
    simpl in *; [lia|].
  destruct i as [|i]; simpl; [by eexists|]. apply IH. lia.
Qed.

Lemma ema_length (n : nat) (closes : list Q) :
  length (ema n closes) = length closes.
Proof.
  unfold ema. destruct n as [|m]; [by rewrite length_replicate|].
  destruct (length closes <? S m)%nat eqn:Hlen;
    [by rewrite length_replicate|].
  apply Nat.ltb_ge in Hlen.
  rewrite length_app, length_replicate. simpl.
  rewrite ema_from_length, length_drop. lia.
Qed.

Lemma ema_short (n : nat) (closes : list Q) :
  (length closes < n)%nat → ema n closes = replicate (length closes) None.
Proof.
  intros Hshort. unfold ema. destruct n as [|m]; [done|].
  apply Nat.ltb_lt in Hshort. by rewrite Hshort.
Qed.

Lemma ema_lookup_before (n : nat) (closes : list Q) (i : nat) :
  (i < length closes)%nat → (S i < n)%nat → ema n closes !! i = Some None.
Proof.
  intros Hi Hn. unfold ema. destruct n as [|m]; [lia|].
  destruct (length closes <? S m)%nat; [by apply lookup_replicate_2|].
  rewrite lookup_app_l by (rewrite length_replicate; lia).
  apply lookup_replicate_2. lia.
Qed.

Lemma ema_lookup_from (n : nat) (closes : list Q) (i : nat) :
  (i < length closes)%nat → (0 < n ≤ S i)%nat →
  ∃ v, ema n closes !! i = Some (Some v).
Proof.
  intros Hi Hn. unfold ema. destruct n as [|m]; [lia|].
  assert (Hlen : (length closes <? S m)%nat = false) by (apply Nat.ltb_ge; lia).
  rewrite Hlen.
  rewrite lookup_app_r by (rewrite length_replicate; lia).
  rewrite length_replicate.
  destruct (i - m)%nat as [|j] eqn:Hj; simpl; [by eexists|].
  apply ema_from_defined. rewrite length_drop. lia.
Qed.

(** A shorter history gives the beginning of the series of a longer one. *)
Lemma ema_take (n : nat) (closes : list Q) (k : nat) :
  take k (ema n closes) = ema n (take k closes).
Proof.
  destruct (decide (length closes ≤ k)%nat) as [Hk|Hk].
  { rewrite !take_ge; [done|lia|rewrite ema_length; lia]. }
  assert (Hlk : length (take k closes) = k) by (rewrite length_take; lia).
  unfold ema. destruct n as [|m].
  { rewrite take_replicate, Hlk. f_equal. lia. }
  rewrite Hlk.
  destruct (length closes <? S m)%nat eqn:Hlen.
  - apply Nat.ltb_lt in Hlen.
    assert (Hkm : (k <? S m)%nat = true) by (apply Nat.ltb_lt; lia).
    rewrite Hkm, take_replicate. f_equal. lia.
  - apply Nat.ltb_ge in Hlen.
    destruct (k <? S m)%nat eqn:Hkm.
    + apply Nat.ltb_lt in Hkm.
      rewrite take_app_le by (rewrite length_replicate; lia).
      rewrite take_replicate. f_equal. lia.
    + apply Nat.ltb_ge in Hkm.
      rewrite take_app_ge by (rewrite length_replicate; lia).
      rewrite length_replicate.
      replace (k - m)%nat with (S (k - S m)) by lia.
      rewrite firstn_cons, ema_from_take.
      rewrite take_take, Nat.min_l by lia.
      by rewrite skipn_firstn_comm.
Qed.

Lemma ema_last_defined (n : nat) (history : list Candle) (i : nat) (v : Q) :
  length history = S i →
  ema n (close <$> history) !! i = Some (Some v) →
  ema_last n history = v.
Proof.
  intros Hlen Hv. unfold ema_last.
  rewrite last_lookup, ema_length, length_fmap, Hlen. simpl.
  by rewrite Hv.
Qed.

(** ** Facts about the series *)

Section EngineFacts.

Variable value_at_last : Indicator → list Candle → Q.

Lemma series_length (ind : Indicator) (candles : list Candle) :
  length (series value_at_last ind candles) = length candles.
Proof. unfold series. apply length_imap. Qed.

Lemma series_lookup (ind : Indicator) (candles : list Candle) (i : nat) :
  series value_at_last ind candles !! i =
  if decide (i < length candles)%nat
  then Some (if (i <? first_defined ind)%nat then None
             else Some (value_at_last ind (take (S i) candles)))
  else None.
Proof.
  unfold series. rewrite list_lookup_imap.
  case_decide as Hi.
  - apply lookup_lt_is_Some in Hi as [c Hc]. by rewrite Hc.
  - rewrite lookup_ge_None_2; [done|lia].
Qed.

Lemma period_le_first_defined (ind : Indicator) :
  (period ind ≤ S (first_defined ind))%nat.
Proof. destruct ind; simpl; lia. Qed.

Lemma series_absent_before (ind : Indicator) (candles : list Candle)
    (i : nat) (v : Q) :
  (i < first_defined ind)%nat →
  series value_at_last ind candles !! i ≠ Some (Some v).
Proof.
  intros Hi. rewrite series_lookup. case_decide; [|done].
  apply Nat.ltb_lt in Hi. by rewrite Hi.
Qed.

Lemma series_short_history (ind : Indicator) (candles : list Candle) :
  (length candles < period ind)%nat →
  series value_at_last ind candles = replicate (length candles) None.
Proof.
  intros Hshort. apply list_eq; intros i. rewrite series_lookup.
  pose proof (period_le_first_defined ind).
  case_decide as Hi.
  - rewrite lookup_replicate_2 by done.
    assert (Hlt : (i <? first_defined ind)%nat = true) by (apply Nat.ltb_lt; lia).
    by rewrite Hlt.
  - rewrite lookup_ge_None_2; [done|]. rewrite length_replicate. lia.
Qed.

(** Prefix stability: a longer history gives the same entries at the
    indices it shares with a shorter one. *)
Lemma series_prefix_stable (ind : Indicator) (candles more : list Candle)
    (i : nat) :
  (i < length candles)%nat →
  series value_at_last ind (candles ++ more) !! i =
  series value_at_last ind candles !! i.
Proof.
  intros Hi. rewrite !series_lookup, length_app.
  rewrite !decide_True by lia.
  by rewrite take_app_le by lia.
Qed.

End EngineFacts.

Definition is_ema (ind : Indicator) : Prop :=
  ind = ema_9 ∨ ind = ema_21 ∨ ind = ema_50 ∨ ind = ema_200.

(** The series of a moving average, entry by entry from the candles up to
    each index, is the average computed step by step over the whole
    history. *)
Lemma series_ema_engine (ind : Indicator) (candles : list Candle) :
  is_ema ind →
  series ema_engine ind candles = ema (period ind) (close <$> candles).
Proof.
  intros Hema.
  assert (Hfirst : S (first_defined ind) = period ind ∧
                   ema_engine ind = ema_last (period ind)).
  { destruct Hema as [Hind|[Hind|[Hind|Hind]]]; by rewrite Hind. }
  destruct Hfirst as [Hfirst Hengine].
  apply list_eq; intros i. rewrite series_lookup. case_decide as Hi.
  - destruct (i <? first_defined ind)%nat eqn:Hbefore.
    + apply Nat.ltb_lt in Hbefore. symmetry.
      apply ema_lookup_before; [by rewrite length_fmap|lia].
    + apply Nat.ltb_ge in Hbefore.
      destruct (ema_lookup_from (period ind) (close <$> candles) i)
        as [v Hv]; [by rewrite length_fmap|lia|].
      rewrite Hv, Hengine. do 2 f_equal.
      apply (ema_last_defined _ _ i); [rewrite length_take; lia|].
      rewrite fmap_take, <- ema_take, lookup_take_lt by lia. exact Hv.
  - symmetry. apply lookup_ge_None_2. rewrite ema_length, length_fmap. lia.
Qed.

End Indicators.

(* ===================================================================== *)
(** * From the indicator engine to the chart *)
(* ===================================================================== *)

Module ChartOverlays.

Import Indicators.

Section Payload.

Variable value_at_last : Indicator → list Candle → Q.

(** Modelled from the spec: the [overlays] object of the candle endpoint,
    built by the absent back end from the indicator set; the chart's
    [Overlays] interface gives its shape. *)
Definition overlays_of (candles : list Candle) : Chart.Overlays :=
  let ind := compute value_at_last candles in
  {| Chart.ov_ema_9 := ind ema_9;
     Chart.ov_ema_21 := ind ema_21;
     Chart.ov_ema_50 := ind ema_50;
     Chart.ov_ema_200 := ind ema_200;
     Chart.ov_bb_upper := ind bb_upper;
     Chart.ov_bb_middle := ind bb_middle;
     Chart.ov_bb_lower := ind bb_lower;
     Chart.ov_timestamps := timestamp <$> candles |}.

(** Modelled from the spec: the [candles] array of the candle endpoint,
    the history of the absent back end with the fields of the chart's
    [Candle] interface. *)
Definition candle_payload (c : Candle) : Chart.Candle.t :=
  {| Chart.Candle.timestamp := timestamp c;
     Chart.Candle.open := open c;
     Chart.Candle.high := high c;
     Chart.Candle.low := low c;
     Chart.Candle.close := close c;
     Chart.Candle.volume := volume c |}.

(** The key under which the chart keeps the line of an indicator. *)
Definition line_key (ind : Indicator) : option string :=
  match ind with
  | ema_9 => Some "ema_9"
  | ema_21 => Some "ema_21"
  | ema_50 => Some "ema_50"
  | ema_200 => Some "ema_200"
  | bb_upper => Some "bb_upper"
  | bb_middle => Some "bb_middle"
  | bb_lower => Some "bb_lower"
  | _ => None
  end.

Lemma series_short_null (ind : Indicator) (candles : list Candle) :
  (length candles < period ind)%nat →
  ∀ j v, series value_at_last ind candles !! j ≠ Some (Some v).
Proof.
  intros Hshort j v.
  rewrite (series_short_history value_at_last ind candles Hshort).
  intros Hj. apply lookup_replicate in Hj as [Hj _]. discriminate Hj.
Qed.

Lemma render_lines_short (seconds_of : string → Chart.Time)
    (activeOverlays : Chart.SetObject) (ind : Indicator)
    (candles : list Candle) (key : string) :
  (length candles < period ind)%nat →
  line_key ind = Some key →
  Chart.render_lines seconds_of activeOverlays (Some (overlays_of candles))
    !! key = None.
Proof.
  intros Hshort Hkey.
  pose proof (series_short_null ind candles Hshort) as Hnull.
  unfold Chart.render_lines, overlays_of, compute; simpl.
  case_decide; [apply lookup_empty|].
  destruct ind; simplify_eq/=;
    repeat match goal with
           | |- context [bool_decide ?P] => destruct (bool_decide P)
           end;
    repeat first
      [ rewrite Chart.addLine_lookup_ne by done
      | match goal with
        | Hn : ∀ j v, series _ ?i _ !! j ≠ _ |- _ =>
            rewrite (Chart.addLine_all_null _ _ _
                       (series value_at_last i candles)) by exact Hn
        end ];
    apply lookup_empty.
Qed.

(** C5. With a history shorter than an indicator's period, the series of
    the indicator is as long as the history and holds no value at any index
    below the period, and the functions that compute it are total. The
    chart's [addLine] plots exactly the entries that hold a value, in
    index order, each at its timestamp; on the series of a short history it plots nothing and
    adds no line series, so after the data effect has run on such a
    history the chart holds no line for that indicator. For the moving
    averages the series is the one computed step by step from the seed,
    which has no seed and no value on a short history. *)
Theorem short_history_absent_and_skipped (ind : Indicator)
    (candles : list Candle) :
  (length candles < period ind)%nat →
  length (series value_at_last ind candles) = length candles
  ∧ (∀ i v, (i < period ind)%nat →
       series value_at_last ind candles !! i ≠ Some (Some v))
  ∧ (∀ i, (i < length candles)%nat →
       series value_at_last ind candles !! i = Some None)
  ∧ (∀ timestamps values,
       Chart.addLine_data 0 timestamps values =
       omap (Chart.point_at values)
            (zip (seq 0 (length timestamps)) timestamps))
  ∧ (∀ timestamps values pt,
       pt ∈ Chart.addLine_data 0 timestamps values ↔
       ∃ j, timestamps !! j = Some (Chart.line_time pt)
            ∧ values !! j = Some (Some (Chart.line_value pt)))
  ∧ (∀ timestamps lineSeries key color lineWidth lineStyle,
       Chart.addLine_data 0 timestamps (series value_at_last ind candles) = []
       ∧ Chart.addLine timestamps lineSeries key
           (series value_at_last ind candles) color lineWidth lineStyle =
         lineSeries)
  ∧ (∀ seconds_of st activeOverlays key,
       line_key ind = Some key →
       Chart.lineSeriesRefs
         (Chart.data_effect seconds_of st (candle_payload <$> candles)
            (Some (overlays_of candles)) activeOverlays) !! key =
       if Chart.seriesRef st && bool_decide (candles ≠ [])
       then None else Chart.lineSeriesRefs st !! key)
  ∧ (is_ema ind →
     ema (period ind) (close <$> candles) = replicate (length candles) None
     ∧ series ema_engine ind candles = ema (period ind) (close <$> candles)).
Proof.
  intros Hshort.
  pose proof (series_short_history value_at_last ind candles Hshort) as Hnone.
  assert (Hnull : ∀ j v,
            series value_at_last ind candles !! j ≠ Some (Some v)).
  { intros j v. rewrite Hnone. intros Hj.
    apply lookup_replicate in Hj as [Hj _]. discriminate Hj. }
  split; [apply series_length|].
  split; [intros i v _; apply Hnull|].
  split.
  { intros i Hi. rewrite Hnone. by apply lookup_replicate_2. }
  split; [intros timestamps values; apply Chart.addLine_data_points|].
  split.
  { intros timestamps values pt. apply (Chart.addLine_data_elem 0). }
  split.
  { intros timestamps lineSeries key color lineWidth lineStyle. split.
    - by apply Chart.addLine_data_all_null.
    - by apply Chart.addLine_all_null. }
  split.
  { intros seconds_of st activeOverlays key Hkey. unfold Chart.data_effect.
    destruct (Chart.seriesRef st); [|done].
    destruct candles as [|c rest]; [done|].
    rewrite fmap_cons, bool_decide_true by done.
    exact (render_lines_short seconds_of activeOverlays ind (c :: rest) key
             Hshort Hkey). }
  intros Hema. split; [|by apply series_ema_engine].
  rewrite ema_short by (by rewrite length_fmap). by rewrite length_fmap.
Qed.

End Payload.

(** Fifty candles and the 200-candle average: every entry is absent and the
    chart draws no "ema_200" line. *)
Lemma short_history_absent_and_skipped_witness :
  series ema_engine ema_200 (replicate 50 (flat_candle 100%Q)) =
    replicate 50 None
  ∧ Chart.addLine (replicate 50 0%Q) ∅ "ema_200"
      (series ema_engine ema_200 (replicate 50 (flat_candle 100%Q)))
      "#f85149" 2 Chart.Dashed = ∅.
Proof.
  assert (Hshort : (length (replicate 50 (flat_candle 100%Q))
                    < period ema_200)%nat).
  { rewrite length_replicate. simpl. lia. }
  pose proof (short_history_absent_and_skipped ema_engine ema_200
                (replicate 50 (flat_candle 100%Q)) Hshort)
    as (_ & _ & _ & _ & _ & Hline & _ & _).
  split; [reflexivity|].
  apply Hline.
Defined.

End ChartOverlays.

(* ===================================================================== *)
(** * The support and resistance detector (back end; from the
      specification) *)
(* ===================================================================== *)

Module SupportResistance.

(** Modelled from the spec: the [type] of a level of the absent detector. *)
Inductive LevelType : Type := support | resistance.

(** Modelled from the spec: the [SRLevel] of the absent detector's data
    model, {price, type, strength ∈ [1,5], touches ≥ 1}. *)
Record SRLevel : Type := {
  price : Q;
  type : LevelType;
  strength : nat;
  touches : nat;
}.

(** Modelled from the spec: a cluster of the absent detector, the swing
    prices grouped so far, the latest first. *)
Definition cluster : Type := list Q.

(** Modelled from the spec: the tolerance band of the absent detector, "a
    relative tolerance band (e.g., 0.1% of current price)". *)
Definition tolerance (fraction current : Q) : Q := (fraction * current)%Q.

(** The order of prices. *)
Definition price_le (p q : Q) : Prop := Qle_bool p q = true.

#[global] Instance price_le_dec (p q : Q) : Decision (price_le p q).
Proof. unfold price_le. apply _. Defined.

(** Modelled from the spec: the points as the absent detector takes them.
    Section 4.2 has the levels "regardless of scan order", which a merge of
    the points in the order they are met does not give; so the detector is
    taken to merge them in ascending price order, the order in which 4.2
    iterates the clusters, each price in lowest terms so that one price is
    one value. *)
Definition ascending (points : list Q) : list Q :=
  merge_sort price_le (Qred <$> points).

Section Detector.

(** The price of a cluster, from its points. The spec does not say how the
    absent detector takes it, and nothing below depends on it. *)
Variable cluster_price : cluster → Q.

(** Modelled from the spec: the search of the absent detector for "the
    nearest cluster within tolerance", "iterating clusters in ascending
    price order"; of two clusters at the same distance the first met, the
    lower one, is kept. [best] is the index and distance of the nearest
    cluster met so far. *)
Fixpoint nearest_from (tol p : Q) (i : nat) (best : option (nat * Q))
    (clusters : list cluster) : option nat :=
  match clusters with
  | [] => fst <$> best
  | c :: rest =>
      let d := Qabs (cluster_price c - p) in
      let best' :=
        if Qle_bool d tol then
          match best with
          | Some (_, db) => if Qle_bool db d then best else Some (i, d)
          | None => Some (i, d)
          end
        else best in
      nearest_from tol p (S i) best' rest
  end.

Definition nearest (tol p : Q) (clusters : list cluster) : option nat :=
  nearest_from tol p 0 None clusters.

(** Modelled from the spec: the absent detector keeps its clusters "in
    ascending price order"; a cluster is put back in its place. *)
Fixpoint insert_cluster (c : cluster) (clusters : list cluster)
  : list cluster :=
  match clusters with
  | [] => [c]
  | c' :: rest =>
      if Qle_bool (cluster_price c) (cluster_price c') then c :: clusters
      else c' :: insert_cluster c rest
  end.

Definition sort_clusters (clusters : list cluster) : list cluster :=
  foldr insert_cluster [] clusters.

(** Modelled from the spec: one step of the absent detector, "merging any
    new point into the nearest cluster within tolerance (else starts a new
    cluster)". *)
Definition add_point (tol : Q) (clusters : list cluster) (p : Q)
  : list cluster :=
  match nearest tol p clusters with
  | Some i => sort_clusters (alter (cons p) i clusters)
  | None => sort_clusters ([p] :: clusters)
  end.

(** Modelled from the spec: the clusters of the absent detector for the
    points of a scan. *)
Definition clusters_of (tol : Q) (points : list Q) : list cluster :=
  foldl (add_point tol) [] (ascending points).

(** Modelled from the spec: the level the absent detector derives from a
    cluster: "touches = point count per cluster; strength = min(touches,
    5); type = support if cluster price < current close, resistance if
    above". A cluster at the current close, of which the spec says nothing,
    counts as resistance. *)
Definition level_of (current : Q) (c : cluster) : SRLevel :=
  {| price := cluster_price c;
     type := if Qle_bool current (cluster_price c) then resistance
             else support;
     strength := Nat.min (length c) 5;
     touches := length c |}.

(** Modelled from the spec: the absent [SupportResistanceDetector], on the
    swing highs and lows of the window in the order a scan met them. *)
Definition detect (fraction current : Q) (points : list Q) : list SRLevel :=
  level_of current <$> clusters_of (tolerance fraction current) points.

End Detector.

Definition total_touches (levels : list SRLevel) : nat :=
  foldr Nat.add 0%nat (touches <$> levels).

(** Two levels are the same level. *)
Definition level_equiv (a b : SRLevel) : Prop :=
  (price a == price b)%Q ∧ type a = type b
  ∧ strength a = strength b ∧ touches a = touches b.

(** Two lists hold the same set of levels. *)
Definition same_level_set (l1 l2 : list SRLevel) : Prop :=
  (∀ a, a ∈ l1 → ∃ b, b ∈ l2 ∧ level_equiv a b)
  ∧ (∀ b, b ∈ l2 → ∃ a, a ∈ l1 ∧ level_equiv b a).

(** For the examples: the mean of the points as the price of a cluster. *)
Definition mean_price (c : cluster) : Q :=
  (fold_right Qplus 0%Q c / inject_Z (Z.of_nat (length c)))%Q.

Definition ascending_scan : list Q := [10000%Q; 10009%Q; 10018%Q].
Definition descending_scan : list Q := [10018%Q; 10009%Q; 10000%Q].

(** ** Facts about the order of the points *)

#[local] Instance price_le_trans : Transitive price_le.
Proof.
  intros p q r Hpq Hqr. unfold price_le in *.
  apply Qle_bool_iff in Hpq, Hqr. apply Qle_bool_iff.
  exact (Qle_trans _ _ _ Hpq Hqr).
Qed.

#[local] Instance price_le_total : Total price_le.
Proof.
  intros p q. unfold price_le.
  destruct (Qlt_le_dec q p) as [Hlt|Hle].
  - right. apply Qle_bool_iff. by apply Qlt_le_weak.
  - left. by apply Qle_bool_iff.
Qed.

Lemma price_le_antisym_reduced (p q : Q) :
  Qred p = p → Qred q = q → price_le p q → price_le q p → p = q.
Proof.
  intros Hp Hq Hpq Hqp. unfold price_le in *.
  apply Qle_bool_iff in Hpq, Hqp.
  rewrite <- Hp, <- Hq. apply Qred_complete. by apply Qle_antisym.
Qed.

Lemma ascending_reduced (points : list Q) (p : Q) :
  p ∈ ascending points → Qred p = p.
Proof.
  unfold ascending. rewrite merge_sort_Permutation.
  intros (q & -> & _)%list_elem_of_fmap. apply Qcanon.Qred_involutive.
Qed.

Lemma ascending_sorted (points : list Q) :
  StronglySorted price_le (ascending points).
Proof. apply StronglySorted_merge_sort; apply _. Qed.

Lemma ascending_perm (points points' : list Q) :
  points ≡ₚ points' → ascending points = ascending points'.
Proof.
  intros Hperm.
  apply (StronglySorted_unique_strong price_le).
  - intros p q Hp Hq. apply price_le_antisym_reduced.
    + by apply (ascending_reduced points).
    + by apply (ascending_reduced points').
  - apply ascending_sorted.
  - apply ascending_sorted.
  - unfold ascending. rewrite !merge_sort_Permutation. by rewrite Hperm.
Qed.

Lemma ascending_same_prices (points points' : list Q) :
  Forall2 Qeq points points' → ascending points = ascending points'.
Proof.
  intros Hsame. unfold ascending. f_equal.
  induction Hsame as [|p q ps qs Hpq _ IH]; [done|].
  rewrite !fmap_cons, IH. f_equal. by apply Qred_complete.
Qed.

(** ** Facts about the clusters *)

Section DetectorFacts.

Variable cluster_price : cluster → Q.

Lemma insert_cluster_perm (c : cluster) (clusters : list cluster) :
  insert_cluster cluster_price c clusters ≡ₚ c :: clusters.
Proof.
  induction clusters as [|c' rest IH]; simpl; [done|].
  destruct (Qle_bool _ _); [done|].
  rewrite IH. apply Permutation_swap.
Qed.

Lemma sort_clusters_perm (clusters : list cluster) :
  sort_clusters cluster_price clusters ≡ₚ clusters.
Proof.
  induction clusters as [|c rest IH]; simpl; [done|].
  by rewrite insert_cluster_perm, IH.
Qed.

Lemma nearest_from_bound (tol p : Q) (clusters : list cluster) :
  ∀ (i : nat) (best : option (nat * Q)) (j : nat),
    nearest_from cluster_price tol p i best clusters = Some j →
    (∃ d, best = Some (j, d)) ∨ (i ≤ j < i + length clusters)%nat.
Proof.
  induction clusters as [|c rest IH]; intros i best j; simpl.
  - destruct best as [[k d]|]; simpl; [|done].
    intros [= ->]. left. by exists d.
  - intros Hj. apply IH in Hj as [[d Hbest]|Hrange]; [|right; lia].
    destruct (Qle_bool _ tol); [|by left; exists d].
    destruct best as [[k db]|].
    + destruct (Qle_bool db _); [by left; exists d|].
      injection Hbest as -> _. right; lia.
    + injection Hbest as -> _. right; lia.
Qed.

Lemma nearest_lt_length (tol p : Q) (clusters : list cluster) (j : nat) :
  nearest cluster_price tol p clusters = Some j → (j < length clusters)%nat.
Proof.
  intros Hj. apply nearest_from_bound in Hj as [[d Hd]|Hrange]; [done|lia].
Qed.

Lemma concat_alter_cons (p : Q) (clusters : list cluster) (i : nat) :
  (i < length clusters)%nat →
  concat (alter (cons p) i clusters) ≡ₚ p :: concat clusters.
Proof.
  revert i. induction clusters as [|c rest IH]; intros i Hi; simpl in *; [lia|].
  destruct i as [|i]; simpl; [done|].
  change (list_alter (cons p) i rest) with (alter (cons p) i rest).
  rewrite IH by lia. by rewrite Permutation_middle.
Qed.

Lemma add_point_concat (tol : Q) (clusters : list cluster) (p : Q) :
  concat (add_point cluster_price tol clusters p) ≡ₚ p :: concat clusters.
Proof.
  unfold add_point.
  destruct (nearest cluster_price tol p clusters) as [i|] eqn:Hnear.
  - rewrite sort_clusters_perm. apply concat_alter_cons.
    by eapply nearest_lt_length.
  - by rewrite sort_clusters_perm.
Qed.

Lemma foldl_add_point_concat (tol : Q) (points : list Q) :
  ∀ clusters,
    concat (foldl (add_point cluster_price tol) clusters points) ≡ₚ
    concat clusters ++ points.
Proof.
  induction points as [|p rest IH]; intros clusters; simpl.
  - by rewrite app_nil_r.
  - rewrite IH, add_point_concat. by rewrite <- Permutation_middle.
Qed.

Lemma clusters_of_concat (tol : Q) (points : list Q) :
  concat (clusters_of cluster_price tol points) ≡ₚ Qred <$> points.
Proof.
  unfold clusters_of. rewrite foldl_add_point_concat. simpl.
  unfold ascending. apply merge_sort_Permutation.
Qed.

Lemma total_touches_concat (current : Q) (clusters : list cluster) :
  total_touches (level_of cluster_price current <$> clusters) =
  length (concat clusters).
Proof.
  induction clusters as [|c rest IH]; [done|].
  unfold total_touches in *. rewrite !fmap_cons, foldr_cons, IH.
  simpl. by rewrite length_app.
Qed.

Lemma total_touches_detect (fraction current : Q) (points : list Q) :
  total_touches (detect cluster_price fraction current points) = length points.
Proof.
  unfold detect.
  by rewrite total_touches_concat, clusters_of_concat, length_fmap.
Qed.

Lemma same_level_set_refl (levels : list SRLevel) :
  same_level_set levels levels.
Proof.
  split; intros a Ha; exists a; (split; [done|]); by repeat split.
Qed.


End DetectorFacts.

Lemma descending_scan_perm : ascending_scan ≡ₚ descending_scan.
Proof.
  unfold ascending_scan, descending_scan.
  change [10018%Q; 10009%Q; 10000%Q] with (reverse [10000%Q; 10009%Q; 10018%Q]).
  by rewrite reverse_Permutation.
Qed.

(** Three swing prices nine apart with a band of ten, scanned upwards and
    downwards: the two lower ones merge either way. *)
Example three_swings :
  detect mean_price (1 # 1000) 10000 ascending_scan =
    [ {| price := 20009 # 2; type := resistance; strength := 2; touches := 2 |};
      {| price := 10018; type := resistance; strength := 1; touches := 1 |} ]
  ∧ detect mean_price (1 # 1000) 10000 descending_scan =
    detect mean_price (1 # 1000) 10000 ascending_scan.
Proof. split; reflexivity. Qed.


End SupportResistance.

(* ===================================================================== *)
(** * The confluence aggregator, the explanation generator and the ledger's
      entry point (back end; from the specification) *)
(* ===================================================================== *)

Module Confluence.

(** Modelled from the spec: the direction of a signal or a decision of the
    absent engine. *)
Inductive Direction : Type := BUY | SELL | NONE.

#[global] Instance Direction_eq_dec : EqDecision Direction.
Proof. solve_decision. Defined.

(** Modelled from the spec: the four fixed strategy variants of the absent
    evaluator set. *)
Inductive Strategy : Type := Technical | PriceAction | Trend | Scalping.

#[global] Instance Strategy_eq_dec : EqDecision Strategy.
Proof. solve_decision. Defined.

Definition all_strategies : list Strategy :=
  [Technical; PriceAction; Trend; Scalping].

Definition strategy_label (k : Strategy) : string :=
  match k with
  | Technical => "Technical"
  | PriceAction => "PriceAction"
  | Trend => "Trend"
  | Scalping => "Scalping"
  end.

(** Modelled from the spec: the [MarketSnapshot] of the absent engine,
    {pair, timeframe, candles, indicators, sr_levels}. *)
Record MarketSnapshot : Type := {
  pair : string;
  timeframe : string;
  candles : list Indicators.Candle;
  indicators : Indicators.IndicatorSet;
  sr_levels : list SupportResistance.SRLevel;
}.

(** Modelled from the spec: the [StrategySignal] of the absent engine,
    {strategy_name, direction, confidence, reasons, indicator_snapshot}. *)
Module StrategySignal.
Record t : Type := {
  strategy_name : Strategy;
  direction : Direction;
  confidence : Q;
  reasons : list string;
  indicator_snapshot : gmap string Q;
}.
End StrategySignal.

(** Modelled from the spec: what one evaluator of the absent engine
    answers; the aggregator names the signal after the strategy it ran. *)
Record Evaluation : Type := {
  vote : Direction;
  vote_confidence : Q;
  vote_reasons : list string;
  vote_indicators : gmap string Q;
}.

(** Modelled from the spec: an entry of the absent [StrategyConfigStore],
    per strategy {enabled, parameters}. *)
Record StrategyConfig : Type := {
  enabled : bool;
  parameters : gmap string Q;
}.

(** Modelled from the spec: the configuration value the absent engine
    reads for one cycle. *)
Record Config : Type := {
  strategy_config : Strategy → StrategyConfig;
  minimum_confluence : nat;
}.

(** Modelled from the spec: the [ConfluenceDecision] of the absent
    aggregator, {direction, score, contributing_signals, risk_reward_ratio,
    stop_loss, take_profit}. *)
Module ConfluenceDecision.
Record t : Type := {
  direction : Direction;
  score : nat;
  contributing_signals : list StrategySignal.t;
  risk_reward_ratio : option Q;
  stop_loss : option Q;
  take_profit : option Q;
}.
End ConfluenceDecision.

(** Modelled from the spec: the [Explanation] of the absent generator,
    {full_text, reasons, learning_points, risk_reward_ratio, indicators}. *)
Module Explanation.
Record t : Type := {
  full_text : string;
  reasons : list string;
  learning_points : list string;
  risk_reward_ratio : option Q;
  indicators : gmap string Q;
}.
End Explanation.

(** Modelled from the spec: the part of a [Trade] of the absent ledger
    that the decision seeds. *)
Record Trade : Type := {
  trade_pair : string;
  side : Direction;
  entry_price : Q;
  trade_stop_loss : option Q;
  trade_take_profit : option Q;
  strategy : string;
  trade_timeframe : string;
  confluence_score : nat;
}.

(** ** Tally *)

(** Modelled from the spec: the tally of the absent aggregator, "tallies
    votes by direction (abstentions/NONE excluded from the tally)". *)
Definition votes (d : Direction) (signals : list StrategySignal.t) : nat :=
  match d with
  | NONE => 0
  | _ => length (filter (λ s, StrategySignal.direction s = d) signals)
  end.

(** Modelled from the spec: the winner chosen by the absent aggregator,
    the direction with strictly more votes than the other; "if two
    directions tie for the maximum count (including a BUY/SELL tie),
    decision direction = NONE". *)
Definition winning_direction (signals : list StrategySignal.t) : Direction :=
  let buys := votes BUY signals in
  let sells := votes SELL signals in
  if (sells <? buys)%nat then BUY
  else if (buys <? sells)%nat then SELL
  else NONE.

(** ** Risk and reward *)

(** Modelled from the spec: the entry price the absent aggregator measures
    risk and reward from, the close of the snapshot's last candle. *)
Definition entry_of (snapshot : MarketSnapshot) : option Q :=
  Indicators.close <$> last (candles snapshot).

(** Modelled from the spec: the "nearest qualifying SR level" of the absent
    aggregator, the level price nearest to [entry] among those [above] it
    or below it. *)
Definition nearest_level (above : bool) (entry : Q)
    (levels : list SupportResistance.SRLevel) : option Q :=
  let side p := if above then negb (Qle_bool p entry)
                else negb (Qle_bool entry p) in
  let nearer p best := Qle_bool (Qabs (p - entry)) (Qabs (best - entry)) in
  foldr (λ lv best,
           let p := SupportResistance.price lv in
           if side p then
             match best with
             | Some b => if nearer p b then Some p else best
             | None => Some p
             end
           else best)
        None levels.

(** Modelled from the spec: the targets of the absent aggregator, "the
    nearest qualifying SR level in the trade's favor (take-profit) and
    against it (stop-loss)". *)
Definition take_profit_of (d : Direction) (snapshot : MarketSnapshot)
  : option Q :=
  entry ← entry_of snapshot;
  match d with
  | BUY => nearest_level true entry (sr_levels snapshot)
  | SELL => nearest_level false entry (sr_levels snapshot)
  | NONE => None
  end.

Definition stop_loss_of (d : Direction) (snapshot : MarketSnapshot)
  : option Q :=
  entry ← entry_of snapshot;
  match d with
  | BUY => nearest_level false entry (sr_levels snapshot)
  | SELL => nearest_level true entry (sr_levels snapshot)
  | NONE => None
  end.

(** Modelled from the spec: the ratio of the absent aggregator,
    |take_profit − entry| / |entry − stop_loss|, "undefined if no
    qualifying SR level exists on the loss side". *)
Definition risk_reward_of (d : Direction) (snapshot : MarketSnapshot)
  : option Q :=
  entry ← entry_of snapshot;
  sl ← stop_loss_of d snapshot;
  tp ← take_profit_of d snapshot;
  Some (Qabs (tp - entry) / Qabs (entry - sl))%Q.

(** ** The aggregator *)

(** Modelled from the spec: the decision of the absent
    [ConfluenceAggregator] from the signals of one cycle: "score = vote
    count for the winning direction"; below [minimum_confluence] "the
    decision is forced to NONE"; the contributing signals are the votes for
    the direction decided, none when it is NONE. *)
Definition decide_signals (minimum_confluence : nat)
    (snapshot : MarketSnapshot) (signals : list StrategySignal.t)
  : ConfluenceDecision.t :=
  let winner := winning_direction signals in
  let score := votes winner signals in
  let direction :=
    if (minimum_confluence <=? score)%nat then winner else NONE in
  {| ConfluenceDecision.direction := direction;
     ConfluenceDecision.score := score;
     ConfluenceDecision.contributing_signals :=
       match direction with
       | NONE => []
       | _ => filter (λ s, StrategySignal.direction s = direction) signals
       end;
     ConfluenceDecision.risk_reward_ratio := risk_reward_of direction snapshot;
     ConfluenceDecision.stop_loss := stop_loss_of direction snapshot;
     ConfluenceDecision.take_profit := take_profit_of direction snapshot |}.

Section Cycle.

(** The four evaluators, [evaluate(snapshot) -> StrategySignal], with the
    parameters of the cycle. Their rules are not needed below. *)
Variable evaluate : Strategy → StrategyConfig → MarketSnapshot → Evaluation.

(** Whether the parameters of a strategy are in their valid range. *)
Variable parameters_valid : Strategy → StrategyConfig → bool.

(** Modelled from the spec: the enabled strategies of a configuration of
    the absent engine. *)
Definition enabled_strategies (cfg : Config) : list Strategy :=
  filter (λ k, enabled (strategy_config cfg k) = true) all_strategies.

(** Modelled from the spec: the strategies of the absent aggregator that
    take part in a cycle: the enabled ones, less those with a
    ConfigurationError ("strategy excluded from the vote tally"). *)
Definition voting_strategies (cfg : Config) : list Strategy :=
  filter (λ k, parameters_valid k (strategy_config cfg k) = true)
         (enabled_strategies cfg).

(** Modelled from the spec: the signal the absent aggregator gets from one
    strategy. *)
Definition run (cfg : Config) (snapshot : MarketSnapshot) (k : Strategy)
  : StrategySignal.t :=
  let e := evaluate k (strategy_config cfg k) snapshot in
  {| StrategySignal.strategy_name := k;
     StrategySignal.direction := vote e;
     StrategySignal.confidence := vote_confidence e;
     StrategySignal.reasons := vote_reasons e;
     StrategySignal.indicator_snapshot := vote_indicators e |}.

(** Modelled from the spec: the signals of one cycle of the absent
    aggregator, one per voting strategy. *)
Definition signals_of (cfg : Config) (snapshot : MarketSnapshot)
  : list StrategySignal.t :=
  run cfg snapshot <$> voting_strategies cfg.

(** Modelled from the spec: one cycle of the absent aggregator, which "runs
    every enabled strategy against the same MarketSnapshot". *)
Definition aggregate (cfg : Config) (snapshot : MarketSnapshot)
  : ConfluenceDecision.t :=
  decide_signals (minimum_confluence cfg) snapshot (signals_of cfg snapshot).

End Cycle.

(** ** The explanation generator *)

(** Modelled from the spec: the "fixed priority order (Trend, Technical,
    PriceAction, Scalping)" of the absent generator. *)
Definition priority_order : list Strategy :=
  [Trend; Technical; PriceAction; Scalping].

(** Modelled from the spec: the signals as the absent generator lists
    them, by strategy in priority order. *)
Definition by_priority (signals : list StrategySignal.t)
  : list StrategySignal.t :=
  k ← priority_order;
  filter (λ s, StrategySignal.strategy_name s = k) signals.

(** Modelled from the spec: an entry of the absent [ConceptGlossary],
    lookup(indicator_key) → {name, short, explanation, formula}. *)
Record Concept : Type := {
  name : string;
  short : string;
  explanation : string;
  formula : string;
}.

Section Generator.

Variable glossary : gmap string Concept.

(** The indicator keys a reason refers to. *)
Variable concepts_in : string → list string.

(** The paragraph template, from pair, side, leading strategy and reasons. *)
Variable template : string → Direction → option Strategy → list string → string.

(** Modelled from the spec: the absent [ExplanationGenerator]: "reasons
    list = each contributing signal's reasons, concatenated in a fixed
    priority order (Trend, Technical, PriceAction, Scalping)";
    learning points are the glossary entries of the concepts the reasons
    refer to, "deduplicated, preserving first-seen order". *)
Definition explain (snapshot : MarketSnapshot) (d : ConfluenceDecision.t)
  : Explanation.t :=
  let contributing := by_priority (ConfluenceDecision.contributing_signals d) in
  let reasons := contributing ≫= StrategySignal.reasons in
  let keys := remove_dups (reasons ≫= concepts_in) in
  {| Explanation.full_text :=
       template (pair snapshot) (ConfluenceDecision.direction d)
         (StrategySignal.strategy_name <$> head contributing) reasons;
     Explanation.reasons := reasons;
     Explanation.learning_points :=
       omap (λ key, explanation <$> glossary !! key) keys;
     Explanation.risk_reward_ratio := ConfluenceDecision.risk_reward_ratio d;
     Explanation.indicators :=
       foldr (λ s acc, StrategySignal.indicator_snapshot s ∪ acc) ∅
             contributing |}.

End Generator.

(** ** The ledger's entry point *)

(** Modelled from the spec: how the absent [PaperTradeLedger] "opens a
    Trade from a ConfluenceDecision": a decision with direction NONE opens
    none. *)
Definition open_trade (snapshot : MarketSnapshot) (d : ConfluenceDecision.t)
  : option Trade :=
  match ConfluenceDecision.direction d with
  | NONE => None
  | side =>
      entry ← entry_of snapshot;
      Some {| trade_pair := pair snapshot;
              side := side;
              entry_price := entry;
              trade_stop_loss := ConfluenceDecision.stop_loss d;
              trade_take_profit := ConfluenceDecision.take_profit d;
              strategy :=
                default ""
                  (strategy_label ∘ StrategySignal.strategy_name <$>
                   head (by_priority
                           (ConfluenceDecision.contributing_signals d)));
              trade_timeframe := timeframe snapshot;
              confluence_score := ConfluenceDecision.score d |}
  end.

(** ** Facts about the tally *)

Lemma votes_le_length (d : Direction) (signals : list StrategySignal.t) :
  (votes d signals ≤ length signals)%nat.
Proof. destruct d; simpl; try apply length_filter; lia. Qed.

Lemma winning_direction_tie (signals : list StrategySignal.t) :
  votes BUY signals = votes SELL signals → winning_direction signals = NONE.
Proof.
  intros Htie. unfold winning_direction. rewrite Htie.
  by rewrite Nat.ltb_irrefl.
Qed.

Lemma votes_pos_voted (d : Direction) (signals : list StrategySignal.t) :
  (0 < votes d signals)%nat →
  ∃ s, s ∈ signals ∧ StrategySignal.direction s = d.
Proof.
  intros Hpos.
  assert (Hlen : (0 < length (filter (λ s, StrategySignal.direction s = d)
                                     signals))%nat).
  { destruct d; simpl in Hpos; (done || lia). }
  destruct (filter (λ s, StrategySignal.direction s = d) signals)
    as [|s l] eqn:Hf; [simpl in Hlen; lia|].
  assert (Hs : s ∈ filter (λ s, StrategySignal.direction s = d) signals).
  { rewrite Hf. apply list_elem_of_here. }
  apply list_elem_of_filter in Hs as [Hd Hs]. by exists s.
Qed.

Lemma winning_direction_voted (signals : list StrategySignal.t) :
  winning_direction signals ≠ NONE →
  ∃ s, s ∈ signals ∧ StrategySignal.direction s = winning_direction signals.
Proof.
  unfold winning_direction.
  destruct (votes SELL signals <? votes BUY signals)%nat eqn:Hbuy.
  - intros _. apply Nat.ltb_lt in Hbuy. apply votes_pos_voted. lia.
  - destruct (votes BUY signals <? votes SELL signals)%nat eqn:Hsell; [|done].
    intros _. apply Nat.ltb_lt in Hsell. apply votes_pos_voted. lia.
Qed.

Lemma decide_signals_direction (minimum : nat) (snapshot : MarketSnapshot)
    (signals : list StrategySignal.t) :
  ConfluenceDecision.direction (decide_signals minimum snapshot signals) ≠ NONE →
  ConfluenceDecision.direction (decide_signals minimum snapshot signals) =
  winning_direction signals.
Proof. simpl. by destruct (minimum <=? _)%nat. Qed.

Lemma by_priority_elem (signals : list StrategySignal.t)
    (s : StrategySignal.t) :
  s ∈ by_priority signals ↔ s ∈ signals.
Proof.
  unfold by_priority. rewrite list_elem_of_bind. split.
  - intros (k & Hs & _). by apply list_elem_of_filter in Hs as [_ ?].
  - intros Hs. exists (StrategySignal.strategy_name s). split.
    + by apply list_elem_of_filter.
    + unfold priority_order.
      destruct (StrategySignal.strategy_name s); set_solver.
Qed.

Lemma decide_signals_none_contributing (minimum : nat)
    (snapshot : MarketSnapshot) (signals : list StrategySignal.t) :
  ConfluenceDecision.direction (decide_signals minimum snapshot signals) = NONE →
  ConfluenceDecision.contributing_signals
    (decide_signals minimum snapshot signals) = [].
Proof. simpl. by intros ->. Qed.

Lemma decide_signals_contributing (minimum : nat)
    (snapshot : MarketSnapshot) (signals : list StrategySignal.t)
    (s : StrategySignal.t) :
  ConfluenceDecision.direction (decide_signals minimum snapshot signals) ≠ NONE →
  s ∈ signals →
  StrategySignal.direction s =
    ConfluenceDecision.direction (decide_signals minimum snapshot signals) →
  s ∈ ConfluenceDecision.contributing_signals
        (decide_signals minimum snapshot signals).
Proof.
  simpl. intros Hdir Hs Hsd.
  destruct (if (minimum <=? _)%nat then _ else _); [| |done];
    by apply list_elem_of_filter.
Qed.

Lemma explain_reasons_elem (glossary : gmap string Concept)
    (concepts_in : string → list string)
    (template : string → Direction → option Strategy → list string → string)
    (snapshot : MarketSnapshot) (d : ConfluenceDecision.t) (r : string) :
  r ∈ Explanation.reasons (explain glossary concepts_in template snapshot d) ↔
  ∃ s, s ∈ ConfluenceDecision.contributing_signals d
       ∧ r ∈ StrategySignal.reasons s.
Proof.
  unfold explain; simpl. rewrite list_elem_of_bind. split.
  - intros (s & Hr & Hs). exists s. split; [by apply by_priority_elem|done].
  - intros (s & Hs & Hr). exists s. split; [done|by apply by_priority_elem].
Qed.

Section CycleFacts.

Variable evaluate : Strategy → StrategyConfig → MarketSnapshot → Evaluation.
Variable parameters_valid : Strategy → StrategyConfig → bool.

Lemma enabled_strategies_le_4 (cfg : Config) :
  (length (enabled_strategies cfg) ≤ 4)%nat.
Proof. unfold enabled_strategies. apply (length_filter _ all_strategies). Qed.

Lemma signals_of_length (cfg : Config) (snapshot : MarketSnapshot) :
  (length (signals_of evaluate parameters_valid cfg snapshot)
   ≤ length (enabled_strategies cfg))%nat.
Proof.
  unfold signals_of, voting_strategies. rewrite length_fmap.
  apply length_filter.
Qed.

(** C1. When BUY and SELL have the same number of votes among the signals
    of a cycle, whichever strategies cast them and in whatever order, the
    decision has direction NONE and opens no trade. *)
Theorem tie_decides_none (cfg : Config) (snapshot : MarketSnapshot) :
  (∀ minimum signals,
     votes BUY signals = votes SELL signals →
     ConfluenceDecision.direction (decide_signals minimum snapshot signals)
       = NONE
     ∧ open_trade snapshot (decide_signals minimum snapshot signals) = None)
  ∧ (votes BUY (signals_of evaluate parameters_valid cfg snapshot) =
     votes SELL (signals_of evaluate parameters_valid cfg snapshot) →
     ConfluenceDecision.direction
       (aggregate evaluate parameters_valid cfg snapshot) = NONE
     ∧ open_trade snapshot (aggregate evaluate parameters_valid cfg snapshot)
       = None).
Proof.
  assert (Htie : ∀ minimum signals,
            votes BUY signals = votes SELL signals →
            ConfluenceDecision.direction
              (decide_signals minimum snapshot signals) = NONE
            ∧ open_trade snapshot (decide_signals minimum snapshot signals)
              = None).
  { intros minimum signals Heq.
    assert (Hdir : ConfluenceDecision.direction
                     (decide_signals minimum snapshot signals) = NONE).
    { simpl. rewrite (winning_direction_tie signals Heq).
      by destruct (minimum <=? _)%nat. }
    split; [exact Hdir|]. unfold open_trade. by rewrite Hdir. }
  split; [exact Htie|]. intros Heq. by apply Htie.
Qed.

(** C2. The score of the decision of a cycle lies between 0 and the number
    of strategies enabled in the cycle's configuration, which is at most
    4. *)
Theorem score_at_most_enabled (cfg : Config) (snapshot : MarketSnapshot) :
  (0 ≤ ConfluenceDecision.score
         (aggregate evaluate parameters_valid cfg snapshot)
     ≤ length (enabled_strategies cfg))%nat
  ∧ (length (enabled_strategies cfg) ≤ 4)%nat.
Proof.
  split; [|apply enabled_strategies_le_4].
  split; [lia|]. simpl.
  etrans; [apply votes_le_length|apply signals_of_length].
Qed.

Section GeneratorFacts.

Variable glossary : gmap string Concept.
Variable concepts_in : string → list string.
Variable template : string → Direction → option Strategy → list string → string.

(** When every signal of the cycle that votes BUY or SELL carries a
    reason, the explanation has a reason exactly when the decision has a
    direction. *)
Lemma explained_iff_decided (cfg : Config) (snapshot : MarketSnapshot) :
  (∀ s, s ∈ signals_of evaluate parameters_valid cfg snapshot →
        StrategySignal.direction s ≠ NONE → StrategySignal.reasons s ≠ []) →
  let d := aggregate evaluate parameters_valid cfg snapshot in
  Explanation.reasons (explain glossary concepts_in template snapshot d) ≠ []
  ↔ ConfluenceDecision.direction d ≠ NONE.
Proof.
  intros Hcites d. unfold d, aggregate.
  set (signals := signals_of evaluate parameters_valid cfg snapshot).
  set (dec := decide_signals (minimum_confluence cfg) snapshot signals).
  split.
  - intros Hreasons Hnone. apply Hreasons.
    destruct (Explanation.reasons _) as [|r rs] eqn:Hr; [done|].
    assert (Hin : r ∈ Explanation.reasons
                        (explain glossary concepts_in template snapshot dec)).
    { rewrite Hr. apply list_elem_of_here. }
    apply explain_reasons_elem in Hin as (s & Hs & _).
    unfold dec in Hs.
    rewrite decide_signals_none_contributing in Hs by exact Hnone.
    by apply elem_of_nil in Hs.
  - intros Hdir.
    pose proof (decide_signals_direction _ _ _ Hdir) as Hwin. fold dec in Hwin.
    destruct (winning_direction_voted signals) as (s & Hs & Hsd);
      [by rewrite <- Hwin|].
    rewrite <- Hwin in Hsd.
    pose proof (decide_signals_contributing _ _ _ s Hdir Hs Hsd) as Hcontrib.
    assert (Hsr : StrategySignal.reasons s ≠ []).
    { apply Hcites; [exact Hs|]. rewrite Hsd. exact Hdir. }
    destruct (StrategySignal.reasons s) as [|r rs] eqn:Hr; [done|].
    intros Hempty.
    assert (Hin : r ∈ Explanation.reasons
                        (explain glossary concepts_in template snapshot dec)).
    { apply explain_reasons_elem. exists s. split; [exact Hcontrib|].
      rewrite Hr. apply list_elem_of_here. }
    rewrite Hempty in Hin. by apply elem_of_nil in Hin.
Qed.

End GeneratorFacts.

End CycleFacts.

(** ** The scenarios of the specification *)

Definition snapshot_btc : MarketSnapshot :=
  {| pair := "BTCUSDT"; timeframe := "15m";
     candles := [Indicators.flat_candle 100%Q];
     indicators := λ _, [None];
     sr_levels := [] |}.

(** Evaluators that vote as [ballot] says and give one reason when they
    vote. *)
Definition evaluate_ballot (ballot : Strategy → Direction) (k : Strategy)
    (_ : StrategyConfig) (_ : MarketSnapshot) : Evaluation :=
  {| vote := ballot k;
     vote_confidence := 1%Q;
     vote_reasons := match ballot k with
                     | NONE => []
                     | _ => [strategy_label k +:+ " setup"]
                     end;
     vote_indicators := ∅ |}.

Definition all_enabled (minimum : nat) : Config :=
  {| strategy_config := λ _, {| enabled := true; parameters := ∅ |};
     minimum_confluence := minimum |}.

Definition always_valid (_ : Strategy) (_ : StrategyConfig) : bool := true.

Definition no_concepts (_ : string) : list string := [].

Definition plain_template (pair : string) (_ : Direction)
    (_ : option Strategy) (_ : list string) : string := pair.

(** Scenario 1: Technical and Trend vote BUY. *)
Definition ballot_two_buy (k : Strategy) : Direction :=
  match k with Technical | Trend => BUY | _ => NONE end.

(** Scenario 2: two strategies vote BUY, two vote SELL. *)
Definition ballot_split (k : Strategy) : Direction :=
  match k with Technical | Trend => BUY | _ => SELL end.

Example scenario_1 :
  let d := aggregate (evaluate_ballot ballot_two_buy) always_valid
             (all_enabled 2) snapshot_btc in
  ConfluenceDecision.direction d = BUY ∧ ConfluenceDecision.score d = 2%nat.
Proof. by vm_compute. Qed.

Example scenario_2 :
  let d := aggregate (evaluate_ballot ballot_split) always_valid
             (all_enabled 2) snapshot_btc in
  ConfluenceDecision.direction d = NONE ∧ open_trade snapshot_btc d = None.
Proof. by vm_compute. Qed.

Example scenario_5 :
  let d := aggregate (evaluate_ballot ballot_two_buy) always_valid
             (all_enabled 3) snapshot_btc in
  ConfluenceDecision.direction d = NONE ∧ ConfluenceDecision.score d = 2%nat.
Proof. by vm_compute. Qed.

Lemma tie_decides_none_witness :
  votes BUY (signals_of (evaluate_ballot ballot_split) always_valid
               (all_enabled 2) snapshot_btc) =
  votes SELL (signals_of (evaluate_ballot ballot_split) always_valid
                (all_enabled 2) snapshot_btc)
  ∧ ConfluenceDecision.direction
      (aggregate (evaluate_ballot ballot_split) always_valid (all_enabled 2)
         snapshot_btc) = NONE.
Proof.
  split; [reflexivity|].
  exact (proj1 (proj2 (tie_decides_none (evaluate_ballot ballot_split)
                         always_valid (all_enabled 2) snapshot_btc)
                 eq_refl)).
Defined.


(** ** The evaluators and their reasons *)

(** Modelled from the spec: what the rule of each strategy of the absent
    evaluator set looks at, section 4.3: Technical the RSI, the MACD
    histogram and the ADX; PriceAction a candle pattern and a support or
    resistance level; Trend the four moving averages; Scalping the volume
    and the two short moving averages. *)
Definition contributing (k : Strategy) : list string :=
  match k with
  | Technical => ["rsi"; "macd_histogram"; "adx"]
  | PriceAction => ["candle_pattern"; "sr_level"]
  | Trend => ["ema_9"; "ema_21"; "ema_50"; "ema_200"]
  | Scalping => ["volume"; "ema_9"; "ema_21"]
  end.

Section Evaluators.

(** The direction the rule of a strategy gives on a snapshot (section
    4.3), BUY, SELL or an abstention; which one is not needed below. *)
Variable rule : Strategy → StrategyConfig → MarketSnapshot → Direction.

Variable confidence_of : Strategy → StrategyConfig → MarketSnapshot → Q.

(** The sentence that cites an indicator for a vote. *)
Variable cite : Strategy → Direction → MarketSnapshot → string → string.

(** What an evaluator that abstains says, if anything. *)
Variable abstention : Strategy → MarketSnapshot → list string.

(** The indicator values an evaluator reports. *)
Variable values_of : Strategy → MarketSnapshot → gmap string Q.

(** Modelled from the spec: an evaluator of the absent set, which "turns
    the indicator/level snapshot into a directional vote with reasons"
    (section 2), "citing each contributing indicator in reasons" (section
    4.3): a vote for BUY or SELL cites each indicator its rule looks at. *)
Definition evaluate (k : Strategy) (c : StrategyConfig)
    (snapshot : MarketSnapshot) : Evaluation :=
  let d := rule k c snapshot in
  {| vote := d;
     vote_confidence := confidence_of k c snapshot;
     vote_reasons := match d with
                     | NONE => abstention k snapshot
                     | _ => cite k d snapshot <$> contributing k
                     end;
     vote_indicators := values_of k snapshot |}.

Lemma evaluate_cites (k : Strategy) (c : StrategyConfig)
    (snapshot : MarketSnapshot) :
  vote (evaluate k c snapshot) ≠ NONE →
  vote_reasons (evaluate k c snapshot) ≠ [].
Proof.
  unfold evaluate; simpl. destruct (rule k c snapshot); [| |done];
    intros _; by destruct k.
Qed.

Variable parameters_valid : Strategy → StrategyConfig → bool.
Variable glossary : gmap string Concept.
Variable concepts_in : string → list string.
Variable template : string → Direction → option Strategy → list string → string.


End Evaluators.

(** Scenario 1 with its reasons: Trend's four, then Technical's three. *)
Example scenario_1_reasons :
  Explanation.reasons
    (explain ∅ no_concepts plain_template snapshot_btc
       (aggregate
          (evaluate (λ k _ _, ballot_two_buy k) (λ _ _ _, 1%Q)
             (λ k _ _ key, strategy_label k +:+ ": " +:+ key) (λ _ _, [])
             (λ _ _, ∅))
          always_valid (all_enabled 2) snapshot_btc))
  = [ "Trend: ema_9"; "Trend: ema_21"; "Trend: ema_50"; "Trend: ema_200";
      "Technical: rsi"; "Technical: macd_histogram"; "Technical: adx" ].
Proof. by vm_compute. Qed.

End Confluence.

(* ===================================================================== *)
(** * frontend/src/lib/websocket.ts: the connection *)
(* ===================================================================== *)

Module WSConnection.

Import WSClient.

(** [WebSocket.readyState]. *)
Inductive ReadyState : Type := CONNECTING | OPEN | CLOSING | CLOSED.

#[global] Instance ReadyState_eq_dec : EqDecision ReadyState.
Proof. solve_decision. Defined.

(** What a pending [setTimeout] will run: the reconnect callback (3 s) or
    [() => this.ping()] (30 s). *)
Inductive Timer : Type := ReconnectTimer | PingTimer.

#[global] Instance Timer_eq_dec : EqDecision Timer.
Proof. solve_decision. Defined.

(** A frame handed to [ws.send]; the client only sends
    [JSON.stringify({ type: "ping" })]. *)
Inductive Frame : Type := PingFrame.

(** The client object and the part of the browser it acts on: the fields
    [ws], [reconnectTimer] and [listeners]; every socket the client has
    created, with its ready state (each keeps the four handlers [connect]
    gave it); the timeouts that are pending; the frames sent; the callback
    calls made by the message handler. Sockets and timeouts are named by
    the order of their creation. *)
Record Client : Type := {
  ws : option nat;
  reconnectTimer : option nat;
  listeners : Listeners;
  sockets : gmap nat ReadyState;
  next_socket : nat;
  timers : gmap nat Timer;
  next_timer : nat;
  sent : list (nat * Frame);
  calls : list call;
}.

(** [new WSClient(url)]. *)
Definition new_client : Client :=
  {| ws := None; reconnectTimer := None; listeners := ∅;
     sockets := ∅; next_socket := 0; timers := ∅; next_timer := 1;
     sent := []; calls := [] |}.

Definition set_ws (v : option nat) (c : Client) : Client :=
  {| ws := v; reconnectTimer := reconnectTimer c; listeners := listeners c;
     sockets := sockets c; next_socket := next_socket c; timers := timers c;
     next_timer := next_timer c; sent := sent c; calls := calls c |}.

Definition set_reconnectTimer (v : option nat) (c : Client) : Client :=
  {| ws := ws c; reconnectTimer := v; listeners := listeners c;
     sockets := sockets c; next_socket := next_socket c; timers := timers c;
     next_timer := next_timer c; sent := sent c; calls := calls c |}.

Definition set_listeners (v : Listeners) (c : Client) : Client :=
  {| ws := ws c; reconnectTimer := reconnectTimer c; listeners := v;
     sockets := sockets c; next_socket := next_socket c; timers := timers c;
     next_timer := next_timer c; sent := sent c; calls := calls c |}.

Definition set_sockets (v : gmap nat ReadyState) (c : Client) : Client :=
  {| ws := ws c; reconnectTimer := reconnectTimer c; listeners := listeners c;
     sockets := v; next_socket := next_socket c; timers := timers c;
     next_timer := next_timer c; sent := sent c; calls := calls c |}.

Definition set_timers (v : gmap nat Timer) (c : Client) : Client :=
  {| ws := ws c; reconnectTimer := reconnectTimer c; listeners := listeners c;
     sockets := sockets c; next_socket := next_socket c; timers := v;
     next_timer := next_timer c; sent := sent c; calls := calls c |}.

(** [setTimeout(callback, delay)]: a new pending timeout; its id. *)
Definition setTimeout (k : Timer) (c : Client) : nat * Client :=
  (next_timer c,
   {| ws := ws c; reconnectTimer := reconnectTimer c;
      listeners := listeners c; sockets := sockets c;
      next_socket := next_socket c;
      timers := <[next_timer c := k]> (timers c);
      next_timer := S (next_timer c); sent := sent c; calls := calls c |}).

(** [clearTimeout(id)]. *)
Definition clearTimeout (t : nat) (c : Client) : Client :=
  set_timers (delete t (timers c)) c.

(** [new WebSocket(url)] when it does not raise: a socket that is
    connecting. *)
Definition new_WebSocket (c : Client) : nat * Client :=
  (next_socket c,
   {| ws := ws c; reconnectTimer := reconnectTimer c;
      listeners := listeners c;
      sockets := <[next_socket c := CONNECTING]> (sockets c);
      next_socket := S (next_socket c); timers := timers c;
      next_timer := next_timer c; sent := sent c; calls := calls c |}).

(** [this.ws?.readyState]. *)
Definition readyState (c : Client) : option ReadyState :=
  s ← ws c; sockets c !! s.

(** [socket.close()]: a socket that is connecting or open starts closing;
    otherwise nothing happens. *)
Definition close (s : nat) (c : Client) : Client :=
  match sockets c !! s with
  | Some CONNECTING | Some OPEN => set_sockets (<[s := CLOSING]> (sockets c)) c
  | _ => c
  end.

(** [this.ws?.close()]. *)
Definition close_ws (c : Client) : Client :=
  match ws c with
  | Some s => close s c
  | None => c
  end.

(** [reconnect()]: nothing when a timer is recorded (a timer id is never
    0, so it is truthy); else a 3 s timeout is set and recorded. *)
Definition reconnect (c : Client) : Client :=
  match reconnectTimer c with
  | Some _ => c
  | None =>
      let '(t, c') := setTimeout ReconnectTimer c in
      set_reconnectTimer (Some t) c'
  end.

(** [connect()]: nothing when the current socket is open; else a new
    socket replaces [this.ws] and gets the four handlers; when
    [new WebSocket] raises ([raises]), [this.ws] stays and [reconnect] is
    called. *)
Definition connect (raises : bool) (c : Client) : Client :=
  if decide (readyState c = Some OPEN) then c
  else if raises then reconnect c
  else let '(s, c') := new_WebSocket c in set_ws (Some s) c'.

(** [ping()]: when the current socket is open, send a ping and call
    [ping] again in 30 s. *)
Definition ping (c : Client) : Client :=
  match ws c with
  | Some s =>
      if decide (sockets c !! s = Some OPEN) then
        snd (setTimeout PingTimer
               {| ws := ws c; reconnectTimer := reconnectTimer c;
                  listeners := listeners c; sockets := sockets c;
                  next_socket := next_socket c; timers := timers c;
                  next_timer := next_timer c;
                  sent := sent c ++ [(s, PingFrame)]; calls := calls c |})
      else c
  | None => c
  end.

(** [disconnect()]: clear and forget the reconnect timer, close the
    current socket, forget it. *)
Definition disconnect (c : Client) : Client :=
  let c1 := match reconnectTimer c with
            | Some t => set_reconnectTimer None (clearTimeout t c)
            | None => c
            end in
  set_ws None (close_ws c1).

(** What happens to the client: a method is called, a socket raises an
    event, a timeout fires. [Connect] and a firing reconnect timeout say
    whether [new WebSocket] raises. *)
Inductive Label : Type :=
  | Connect (raises : bool)
  | Disconnect
  | On (event : string) (callback : EventCallback)
  | Off (event : string) (callback : EventCallback)
  | SockOpen (s : nat)
  | SockMessage (s : nat) (data : string)
  | SockError (s : nat)
  | SockClose (s : nat)
  | TimerFire (t : nat) (raises : bool).

Section Steps.

Variable JSON_parse : string → option json.
Variable throws : EventCallback → jsvalue → bool.

(** One step; [None] when the browser cannot raise the event: a socket
    opens only while connecting, delivers messages only while open, and
    raises no event once closed; only a pending timeout fires. The handlers
    are those [connect] installs: [onopen] pings, [onmessage] dispatches,
    [onerror] closes the current socket, [onclose] reconnects. *)
Definition step (c : Client) (l : Label) : option Client :=
  match l with
  | Connect raises => Some (connect raises c)
  | Disconnect => Some (disconnect c)
  | On event callback =>
      Some (set_listeners (on (listeners c) event callback) c)
  | Off event callback =>
      Some (set_listeners (off (listeners c) event callback) c)
  | SockOpen s =>
      match sockets c !! s with
      | Some CONNECTING => Some (ping (set_sockets (<[s := OPEN]> (sockets c)) c))
      | _ => None
      end
  | SockMessage s data =>
      match sockets c !! s with
      | Some OPEN =>
          Some {| ws := ws c; reconnectTimer := reconnectTimer c;
                  listeners := listeners c; sockets := sockets c;
                  next_socket := next_socket c; timers := timers c;
                  next_timer := next_timer c; sent := sent c;
                  calls := calls c ++
                    calls_of (onmessage JSON_parse throws (listeners c) data) |}
      | _ => None
      end
  | SockError s =>
      match sockets c !! s with
      | Some CLOSED | None => None
      | Some _ => Some (close_ws c)
      end
  | SockClose s =>
      match sockets c !! s with
      | Some CLOSED | None => None
      | Some _ => Some (reconnect (set_sockets (<[s := CLOSED]> (sockets c)) c))
      end
  | TimerFire t raises =>
      match timers c !! t with
      | Some ReconnectTimer =>
          Some (connect raises (set_reconnectTimer None (clearTimeout t c)))
      | Some PingTimer => Some (ping (clearTimeout t c))
      | None => None
      end
  end.

(** A run: the steps in order, as long as each can happen. *)
Fixpoint run (c : Client) (ls : list Label) : option Client :=
  match ls with
  | [] => Some c
  | l :: rest => c' ← step c l; run c' rest
  end.

End Steps.

(** The record and the browser agree: the recorded reconnect timer is
    pending, a pending reconnect timeout is the recorded one, and ids in use
    are below the next ones. *)
Record consistent (c : Client) : Prop := {
  timer_recorded :
    ∀ t, timers c !! t = Some ReconnectTimer → reconnectTimer c = Some t;
  timer_pending :
    ∀ t, reconnectTimer c = Some t → timers c !! t = Some ReconnectTimer;
  timers_below : ∀ t, is_Some (timers c !! t) → (t < next_timer c)%nat;
  sockets_below : ∀ s, is_Some (sockets c !! s) → (s < next_socket c)%nat;
  ws_created : ∀ s, ws c = Some s → is_Some (sockets c !! s);
}.

(** ** The record and the browser stay in agreement *)

Lemma new_client_consistent : consistent new_client.
Proof.
  split; simpl; intros t Ht; try done;
    rewrite lookup_empty in Ht; by destruct Ht.
Qed.

Lemma set_sockets_consistent (c : Client) (s : nat) (r : ReadyState) :
  is_Some (sockets c !! s) → consistent c →
  consistent (set_sockets (<[s := r]> (sockets c)) c).
Proof.
  intros Hs [Ha Hb Hc Hd He]. split; simpl; try done.
  - intros s' Hs'. apply Hd. destruct (decide (s = s')) as [<-|Hne]; [done|].
    by rewrite lookup_insert_ne in Hs'.
  - intros s' Hws. destruct (decide (s = s')) as [<-|Hne].
    + by rewrite lookup_insert_eq.
    + rewrite lookup_insert_ne by done. by apply He.
Qed.

Lemma close_consistent (c : Client) (s : nat) :
  consistent c → consistent (close s c).
Proof.
  intros Hc. unfold close.
  destruct (sockets c !! s) as [[]|] eqn:Hs; try done;
    apply set_sockets_consistent; try done; by rewrite Hs.
Qed.

Lemma close_ws_consistent (c : Client) : consistent c → consistent (close_ws c).
Proof.
  intros Hc. unfold close_ws. destruct (ws c); [|done].
  by apply close_consistent.
Qed.

Lemma reconnect_consistent (c : Client) :
  consistent c → consistent (reconnect c).
Proof.
  intros Hcons. unfold reconnect.
  destruct (reconnectTimer c) as [t0|] eqn:Hrec; [done|].
  destruct Hcons as [Ha Hb Hc Hd He]. split; simpl; try done.
  - intros t Ht. destruct (decide (next_timer c = t)) as [<-|Hne]; [done|].
    rewrite lookup_insert_ne in Ht by done. apply Ha in Ht. congruence.
  - intros t [= <-]. by rewrite lookup_insert_eq.
  - intros t Ht. destruct (decide (next_timer c = t)) as [<-|Hne]; [lia|].
    rewrite lookup_insert_ne in Ht by done. apply Hc in Ht. lia.
Qed.

Lemma connect_consistent (raises : bool) (c : Client) :
  consistent c → consistent (connect raises c).
Proof.
  intros Hcons. unfold connect.
  destruct (decide (readyState c = Some OPEN)); [done|].
  destruct raises; [by apply reconnect_consistent|].
  destruct Hcons as [Ha Hb Hc Hd He]. split; simpl; try done.
  - intros s Hs. destruct (decide (next_socket c = s)) as [<-|Hne]; [lia|].
    rewrite lookup_insert_ne in Hs by done. apply Hd in Hs. lia.
  - intros s [= <-]. by rewrite lookup_insert_eq.
Qed.

Lemma ping_consistent (c : Client) : consistent c → consistent (ping c).
Proof.
  intros Hcons. unfold ping.
  destruct (ws c) as [s|] eqn:Hws; [|done].
  destruct (decide (sockets c !! s = Some OPEN)) as [Hopen|]; [|done].
  destruct Hcons as [Ha Hb Hc Hd He]. split; simpl; try done.
  - intros t Ht. destruct (decide (next_timer c = t)) as [<-|Hne].
    + by rewrite lookup_insert_eq in Ht.
    + rewrite lookup_insert_ne in Ht by done. by apply Ha.
  - intros t Ht. pose proof (Hb t Ht) as Hpend.
    assert (t < next_timer c)%nat by (apply Hc; by rewrite Hpend).
    rewrite lookup_insert_ne by lia. done.
  - intros t Ht. destruct (decide (next_timer c = t)) as [<-|Hne]; [lia|].
    rewrite lookup_insert_ne in Ht by done. apply Hc in Ht. lia.
  - intros s' [= <-]. by rewrite Hopen.
Qed.

Lemma forget_reconnect_consistent (c : Client) (t : nat) :
  timers c !! t = Some ReconnectTimer → consistent c →
  consistent (set_reconnectTimer None (clearTimeout t c)).
Proof.
  intros Ht [Ha Hb Hc Hd He]. split; simpl; try done.
  - intros t' Ht'. destruct (decide (t = t')) as [<-|Hne].
    + by rewrite lookup_delete_eq in Ht'.
    + rewrite lookup_delete_ne in Ht' by done.
      apply Ha in Ht. apply Ha in Ht'. congruence.
  - intros t' Ht'. apply Hc. destruct (decide (t = t')) as [<-|Hne].
    + rewrite lookup_delete_eq in Ht'. by destruct Ht'.
    + by rewrite lookup_delete_ne in Ht'.
Qed.

Lemma clear_ping_consistent (c : Client) (t : nat) :
  timers c !! t = Some PingTimer → consistent c →
  consistent (clearTimeout t c).
Proof.
  intros Ht [Ha Hb Hc Hd He]. split; simpl; try done.
  - intros t' Ht'. destruct (decide (t = t')) as [<-|Hne].
    + by rewrite lookup_delete_eq in Ht'.
    + rewrite lookup_delete_ne in Ht' by done. by apply Ha.
  - intros t' Ht'. pose proof (Hb t' Ht') as Hpend.
    rewrite lookup_delete_ne; [done|congruence].
  - intros t' Ht'. apply Hc. destruct (decide (t = t')) as [<-|Hne].
    + rewrite lookup_delete_eq in Ht'. by destruct Ht'.
    + by rewrite lookup_delete_ne in Ht'.
Qed.

Lemma disconnect_consistent (c : Client) :
  consistent c → consistent (disconnect c).
Proof.
  intros Hcons. unfold disconnect.
  assert (Hc1 : consistent
                  match reconnectTimer c with
                  | Some t => set_reconnectTimer None (clearTimeout t c)
                  | None => c
                  end).
  { destruct (reconnectTimer c) as [t|] eqn:Hrec; [|done].
    apply forget_reconnect_consistent; [|done].
    by apply (timer_pending c Hcons). }
  apply close_ws_consistent in Hc1.
  destruct Hc1 as [Ha Hb Hc Hd He]. by split.
Qed.

Section StepFacts.

Variable JSON_parse : string → option json.
Variable throws : EventCallback → jsvalue → bool.

Lemma step_consistent (c c' : Client) (l : Label) :
  consistent c → step JSON_parse throws c l = Some c' → consistent c'.
Proof.
  intros Hcons Hstep. destruct l as [raises| |e cb|e cb|s|s data|s|s|t raises];
    simpl in Hstep.
  - injection Hstep as <-. by apply connect_consistent.
  - injection Hstep as <-. by apply disconnect_consistent.
  - injection Hstep as <-. destruct Hcons. by split.
  - injection Hstep as <-. destruct Hcons. by split.
  - destruct (sockets c !! s) as [[]|] eqn:Hs; try done.
    injection Hstep as <-. apply ping_consistent.
    apply set_sockets_consistent; [by rewrite Hs|done].
  - destruct (sockets c !! s) as [[]|] eqn:Hs; try done.
    injection Hstep as <-. destruct Hcons. by split.
  - destruct (sockets c !! s) as [[]|] eqn:Hs; try done;
      injection Hstep as <-; by apply close_ws_consistent.
  - destruct (sockets c !! s) as [[]|] eqn:Hs; try done;
      injection Hstep as <-; apply reconnect_consistent;
      (apply set_sockets_consistent; [by rewrite Hs|done]).
  - destruct (timers c !! t) as [[]|] eqn:Ht; try done;
      injection Hstep as <-.
    + apply connect_consistent. by apply forget_reconnect_consistent.
    + apply ping_consistent. by apply clear_ping_consistent.
Qed.

Lemma run_consistent (ls : list Label) :
  ∀ c c', consistent c → run JSON_parse throws c ls = Some c' → consistent c'.
Proof.
  induction ls as [|l rest IH]; intros c c' Hcons Hrun; simpl in Hrun.
  - by injection Hrun as <-.
  - destruct (step JSON_parse throws c l) as [c1|] eqn:Hstep; [|done].
    simpl in Hrun. eapply IH; [|exact Hrun]. by eapply step_consistent.
Qed.

(** X1. Whatever methods are called and whatever the sockets and timeouts
    do, at most one reconnect timeout is pending, and it is the one the
    client has recorded. *)
Theorem one_reconnect_timeout (ls : list Label) (c : Client) (t1 t2 : nat) :
  run JSON_parse throws new_client ls = Some c →
  timers c !! t1 = Some ReconnectTimer →
  timers c !! t2 = Some ReconnectTimer →
  t1 = t2 ∧ reconnectTimer c = Some t1.
Proof.
  intros Hrun Ht1 Ht2.
  pose proof (run_consistent ls _ _ new_client_consistent Hrun) as Hcons.
  pose proof (timer_recorded c Hcons t1 Ht1) as H1.
  pose proof (timer_recorded c Hcons t2 Ht2) as H2.
  split; [congruence|done].
Qed.

(** The listeners after a step: only [on] and [off] change them. *)
Definition subscribe_step (listeners : Listeners) (l : Label) : Listeners :=
  match l with
  | On event callback => on listeners event callback
  | Off event callback => off listeners event callback
  | _ => listeners
  end.

Lemma reconnect_listeners (c : Client) :
  listeners (reconnect c) = listeners c.
Proof. unfold reconnect. by destruct (reconnectTimer c). Qed.

Lemma connect_listeners (raises : bool) (c : Client) :
  listeners (connect raises c) = listeners c.
Proof.
  unfold connect. destruct (decide _); [done|].
  destruct raises; [apply reconnect_listeners|done].
Qed.

Lemma ping_listeners (c : Client) : listeners (ping c) = listeners c.
Proof.
  unfold ping. destruct (ws c); [|done]. by destruct (decide _).
Qed.

Lemma close_ws_listeners (c : Client) : listeners (close_ws c) = listeners c.
Proof.
  unfold close_ws, close. destruct (ws c) as [s|]; [|done].
  by destruct (sockets c !! s) as [[]|].
Qed.

Lemma disconnect_listeners (c : Client) :
  listeners (disconnect c) = listeners c.
Proof.
  unfold disconnect. simpl. rewrite close_ws_listeners.
  by destruct (reconnectTimer c).
Qed.

Lemma step_listeners (c c' : Client) (l : Label) :
  step JSON_parse throws c l = Some c' →
  listeners c' = subscribe_step (listeners c) l.
Proof.
  intros Hstep. destruct l as [raises| |e cb|e cb|s|s data|s|s|t raises];
    simpl in Hstep.
  - injection Hstep as <-. apply connect_listeners.
  - injection Hstep as <-. apply disconnect_listeners.
  - by injection Hstep as <-.
  - by injection Hstep as <-.
  - destruct (sockets c !! s) as [[]|]; try done.
    injection Hstep as <-. by rewrite ping_listeners.
  - destruct (sockets c !! s) as [[]|]; try done. by injection Hstep as <-.
  - destruct (sockets c !! s) as [[]|]; try done;
      injection Hstep as <-; by rewrite close_ws_listeners.
  - destruct (sockets c !! s) as [[]|]; try done;
      injection Hstep as <-; by rewrite reconnect_listeners.
  - destruct (timers c !! t) as [[]|]; try done; injection Hstep as <-.
    + by rewrite connect_listeners.
    + by rewrite ping_listeners.
Qed.

Lemma run_listeners (ls : list Label) :
  ∀ c c', run JSON_parse throws c ls = Some c' →
          listeners c' = foldl subscribe_step (listeners c) ls.
Proof.
  induction ls as [|l rest IH]; intros c c' Hrun; simpl in Hrun.
  - by injection Hrun as <-.
  - destruct (step JSON_parse throws c l) as [c1|] eqn:Hstep; [|done].
    simpl in Hrun. rewrite (IH _ _ Hrun). simpl.
    by rewrite (step_listeners _ _ _ Hstep).
Qed.

(** X2. Subscriptions outlive the connection: after any run the listeners
    are what the calls of [on] and [off] made of them, in their order;
    [connect], [disconnect], socket events and timeouts leave them as they
    are. *)
Theorem listeners_follow_on_off (ls : list Label) (c c' : Client) :
  run JSON_parse throws c ls = Some c' →
  listeners c' = foldl subscribe_step (listeners c) ls.
Proof. apply run_listeners. Qed.

(** X3. [disconnect] does not end the connection for good: the socket it
    closed still has its [onclose] handler, so once the browser reports it
    closed a reconnect timeout is set, and when that fires the client is
    connecting again on a new socket. *)
Theorem disconnect_then_close_reconnects (c : Client) (s : nat) :
  consistent c →
  ws c = Some s →
  sockets c !! s = Some OPEN ∨ sockets c !! s = Some CONNECTING →
  ∃ c', run JSON_parse throws c
          [Disconnect; SockClose s; TimerFire (next_timer c) false] = Some c'
        ∧ ws c' = Some (next_socket c)
        ∧ sockets c' !! next_socket c = Some CONNECTING
        ∧ sockets c' !! s = Some CLOSED.
Proof.
  intros Hcons Hws Hs.
  assert (Hlt : (s < next_socket c)%nat).
  { apply (sockets_below c Hcons). destruct Hs as [Hs|Hs]; by rewrite Hs. }
  clear Hcons.
  destruct c as [w r ls so ns ti nt se ca]. simpl in *. subst w.
  unfold run, step, disconnect, close_ws, close, clearTimeout, reconnect,
    connect, readyState.
  destruct r as [t|]; destruct Hs as [Hs|Hs]; simpl; rewrite Hs; simpl;
    rewrite lookup_insert_eq; simpl; rewrite lookup_insert_eq; simpl;
    (eexists; split; [reflexivity|]; simpl; split; [done|];
     split; [by rewrite lookup_insert_eq|];
     rewrite lookup_insert_ne by lia; by rewrite lookup_insert_eq).
Qed.

(** X4. A socket that [connect] has replaced is neither closed nor
    silenced: calling [connect] while the current socket is still
    connecting makes a second socket current, and when the first one opens
    and receives a message the message is dispatched to the listeners all
    the same (and no ping is sent on it). *)
Theorem replaced_socket_still_dispatches (c : Client) (s : nat)
    (data : string) :
  consistent c →
  ws c = Some s →
  sockets c !! s = Some CONNECTING →
  ∃ c', run JSON_parse throws c
          [Connect false; SockOpen s; SockMessage s data] = Some c'
        ∧ ws c' = Some (next_socket c)
        ∧ next_socket c ≠ s
        ∧ sockets c' !! s = Some OPEN
        ∧ sockets c' !! next_socket c = Some CONNECTING
        ∧ sent c' = sent c
        ∧ calls c' = calls c ++
            calls_of (onmessage JSON_parse throws (listeners c) data).
Proof.
  intros Hcons Hws Hs.
  assert (Hlt : (s < next_socket c)%nat).
  { apply (sockets_below c Hcons). by rewrite Hs. }
  clear Hcons.
  destruct c as [w r ls so ns ti nt se ca]. simpl in *. subst w.
  unfold run, step, connect, readyState, ping. simpl. rewrite Hs. simpl.
  rewrite lookup_insert_ne by lia. rewrite Hs. simpl.
  rewrite lookup_insert_ne by lia. rewrite lookup_insert_eq. simpl.
  rewrite lookup_insert_eq. simpl.
  eexists; split; [reflexivity|]; simpl.
  split; [done|]. split; [lia|]. split; [by rewrite lookup_insert_eq|].
  split; [|done]. rewrite lookup_insert_ne by lia. by rewrite lookup_insert_eq.
Qed.

(** X5. A heartbeat is never cancelled: when the open socket closes and the
    client reconnects before the pending ping timeout fires, the new
    socket's [onopen] starts a second heartbeat and the old one goes on
    pinging the new socket, so two ping timeouts are pending from then on. *)
Theorem reconnect_doubles_heartbeat (c : Client) (s p : nat) :
  consistent c →
  ws c = Some s →
  sockets c !! s = Some OPEN →
  reconnectTimer c = None →
  timers c !! p = Some PingTimer →
  ∃ c', run JSON_parse throws c
          [SockClose s; TimerFire (next_timer c) false;
           SockOpen (next_socket c); TimerFire p false] = Some c'
        ∧ ws c' = Some (next_socket c)
        ∧ sent c' = sent c ++ [(next_socket c, PingFrame);
                               (next_socket c, PingFrame)]
        ∧ timers c' !! S (next_timer c) = Some PingTimer
        ∧ timers c' !! S (S (next_timer c)) = Some PingTimer.
Proof.
  intros Hcons Hws Hs Hrec Hp.
  assert (Hlt : (s < next_socket c)%nat).
  { apply (sockets_below c Hcons). by rewrite Hs. }
  assert (Hpt : (p < next_timer c)%nat).
  { apply (timers_below c Hcons). by rewrite Hp. }
  clear Hcons.
  destruct c as [w r ls so ns ti nt se ca]. simpl in *. subst w r.
  unfold run, step, reconnect, connect, readyState, clearTimeout. simpl.
  rewrite Hs. simpl. rewrite lookup_insert_eq. simpl.
  rewrite lookup_insert_eq. simpl. rewrite lookup_insert_eq. simpl.
  unfold ping. simpl. rewrite lookup_insert_eq. simpl.
  rewrite lookup_insert_ne by lia. rewrite lookup_delete_ne by lia.
  rewrite lookup_insert_ne by lia. rewrite Hp.
  rewrite decide_True by (by rewrite lookup_insert_eq).
  eexists; split; [reflexivity|]; simpl.
  split; [done|]. split; [by rewrite <- app_assoc|].
  split; [|by rewrite lookup_insert_eq].
  rewrite lookup_insert_ne by lia. rewrite lookup_delete_ne by lia.
  by rewrite lookup_insert_eq.
Qed.

End StepFacts.

Lemma one_reconnect_timeout_witness :
  run (λ _, None) (λ _ _, false) new_client
      [Connect true; Connect true; SockError 0] =
    None
  ∧ ∃ c, run (λ _, None) (λ _ _, false) new_client
             [Connect true; Connect true] = Some c
         ∧ timers c !! 1%nat = Some ReconnectTimer
         ∧ reconnectTimer c = Some 1%nat.
Proof.
  split; [reflexivity|].
  eexists. split; [reflexivity|]. split; [reflexivity|].
  exact (proj2 (one_reconnect_timeout (λ _, None) (λ _ _, false)
                  [Connect true; Connect true] _ 1%nat 1%nat
                  eq_refl eq_refl eq_refl)).
Defined.

(** A client whose first socket is connecting, and one whose first socket
    is open. *)
Definition connecting_client : Client :=
  connect false new_client.

Definition open_client : Client :=
  ping (set_sockets (<[0%nat := OPEN]> (sockets connecting_client))
          connecting_client).

Lemma connecting_client_consistent : consistent connecting_client.
Proof. apply connect_consistent, new_client_consistent. Qed.

Lemma open_client_consistent : consistent open_client.
Proof.
  apply ping_consistent, set_sockets_consistent;
    [by eexists|apply connecting_client_consistent].
Qed.

Lemma disconnect_then_close_reconnects_witness :
  ∃ c', run (λ _, None) (λ _ _, false) open_client
          [Disconnect; SockClose 0; TimerFire (next_timer open_client) false]
        = Some c'
        ∧ ws c' = Some (next_socket open_client)
        ∧ sockets c' !! next_socket open_client = Some CONNECTING
        ∧ sockets c' !! 0%nat = Some CLOSED.
Proof.
  exact (disconnect_then_close_reconnects (λ _, None) (λ _ _, false)
           open_client 0 open_client_consistent eq_refl (or_introl eq_refl)).
Defined.

Lemma replaced_socket_still_dispatches_witness :
  ∃ c', run (λ _, None) (λ _ _, false) connecting_client
          [Connect false; SockOpen 0; SockMessage 0 "x"] = Some c'
        ∧ ws c' = Some (next_socket connecting_client)
        ∧ next_socket connecting_client ≠ 0%nat
        ∧ sockets c' !! 0%nat = Some OPEN
        ∧ sockets c' !! next_socket connecting_client = Some CONNECTING
        ∧ sent c' = sent connecting_client
        ∧ calls c' = calls connecting_client ++
            calls_of (onmessage (λ _, None) (λ _ _, false)
                        (listeners connecting_client) "x").
Proof.
  exact (replaced_socket_still_dispatches (λ _, None) (λ _ _, false)
           connecting_client 0 "x" connecting_client_consistent
           eq_refl eq_refl).
Defined.

Lemma reconnect_doubles_heartbeat_witness :
  ∃ c', run (λ _, None) (λ _ _, false) open_client
          [SockClose 0; TimerFire (next_timer open_client) false;
           SockOpen (next_socket open_client); TimerFire 1 false] = Some c'
        ∧ ws c' = Some (next_socket open_client)
        ∧ sent c' = sent open_client ++
            [(next_socket open_client, PingFrame);
             (next_socket open_client, PingFrame)]
        ∧ timers c' !! S (next_timer open_client) = Some PingTimer
        ∧ timers c' !! S (S (next_timer open_client)) = Some PingTimer.
Proof.
  exact (reconnect_doubles_heartbeat (λ _, None) (λ _ _, false)
           open_client 0 1 open_client_consistent
           eq_refl eq_refl eq_refl eq_refl).
Defined.

Lemma listeners_follow_on_off_witness :
  ∃ c, run (λ _, None) (λ _ _, false) new_client
         [Connect false; On "new_trade" 1%positive; Disconnect; SockClose 0;
          TimerFire 1 false] = Some c
       ∧ get_listeners (listeners c) "new_trade" = [1%positive].
Proof.
  eexists. split; [reflexivity|].
  rewrite (listeners_follow_on_off (λ _, None) (λ _ _, false)
             [Connect false; On "new_trade" 1%positive; Disconnect;
              SockClose 0; TimerFire 1 false] new_client _ eq_refl).
  simpl. by rewrite get_listeners_on, decide_True.
Defined.

End WSConnection.

(* ===================================================================== *)
(** * The dashboard page over its life: mounts, clean-ups, messages *)
(* ===================================================================== *)

Module DashboardLifecycle.

Import WSClient WSConnection.

(** The calls the dashboard's effect makes on the client:
    [wsClient.connect()], then the two [wsClient.on]; [raises] says whether
    [new WebSocket] raises in this run. *)
Definition effect (raises : bool) (on_price_update on_new_trade : EventCallback)
  : list Label :=
  [Connect raises; On "price_update" on_price_update;
   On "new_trade" on_new_trade].

(** The call its clean-up makes: [wsClient.disconnect()]. *)
Definition cleanup : list Label := [Disconnect].

Definition is_subscription (l : Label) : bool :=
  match l with
  | On _ _ | Off _ _ => true
  | _ => false
  end.

(** The [on] calls of the effect runs with the given pairs of closures. *)
Definition effect_subscriptions (cbs : list (EventCallback * EventCallback))
  : list Label :=
  cbs ≫= λ ab, [On "price_update" ab.1; On "new_trade" ab.2].

Lemma foldl_subscribe_filter (ls : list Label) :
  ∀ listeners,
    foldl subscribe_step listeners ls =
    foldl subscribe_step listeners (filter (λ l, is_subscription l = true) ls).
Proof.
  induction ls as [|l rest IH]; intros listeners; [done|].
  destruct l; simpl;
    rewrite ?filter_cons_True, ?filter_cons_False by done; simpl; apply IH.
Qed.

Lemma foldl_effect_subscriptions (cbs : list (EventCallback * EventCallback)) :
  ∀ listeners event,
    get_listeners (foldl subscribe_step listeners (effect_subscriptions cbs))
      event =
    get_listeners listeners event ++
    (cbs ≫= λ ab, Dashboard.subscribed event ab.1 ab.2).
Proof.
  induction cbs as [|[a b] rest IH]; intros listeners event; simpl.
  - by rewrite app_nil_r.
  - unfold effect_subscriptions in IH. rewrite IH.
    change (on (on listeners "price_update" a) "new_trade" b)
      with (Dashboard.subscribe listeners a b).
    by rewrite Dashboard.get_listeners_subscribe, <- app_assoc.
Qed.

Lemma bind_subscribed_price (cbs : list (EventCallback * EventCallback)) :
  (cbs ≫= λ ab, Dashboard.subscribed "price_update" ab.1 ab.2) = cbs.*1.
Proof.
  induction cbs as [|[a b] rest IH]; [done|].
  rewrite bind_cons, fmap_cons, IH. done.
Qed.

Lemma bind_subscribed_trade (cbs : list (EventCallback * EventCallback)) :
  (cbs ≫= λ ab, Dashboard.subscribed "new_trade" ab.1 ab.2) = cbs.*2.
Proof.
  induction cbs as [|[a b] rest IH]; [done|].
  rewrite bind_cons, fmap_cons, IH. done.
Qed.

Section Lifecycle.

Variable JSON_parse : string → option json.
Variable throws : EventCallback → jsvalue → bool.

(** X6. The dashboard's subscriptions pile up: the effect registers two new
    closures on each run and its clean-up only disconnects, so after any
    run of the client whose [on] calls are those of n runs of the effect,
    each of the two events has n more callbacks than before, in the order
    of the runs; a "price_update" message then makes one call per callback,
    that is one data refresh for every time the effect has run, when no
    callback raises. *)
Theorem subscriptions_pile_up (ls : list Label) (c c' : Client)
    (cbs : list (EventCallback * EventCallback)) :
  run JSON_parse throws c ls = Some c' →
  filter (λ l, is_subscription l = true) ls = effect_subscriptions cbs →
  get_listeners (listeners c') "price_update" =
    get_listeners (listeners c) "price_update" ++ cbs.*1
  ∧ get_listeners (listeners c') "new_trade" =
    get_listeners (listeners c) "new_trade" ++ cbs.*2
  ∧ (∀ event_data msg,
       JSON_parse event_data = Some msg →
       get_prop msg "event" = Some (Some (JStr "price_update")) →
       (∀ cb data, throws cb data = false) →
       length (calls_of (onmessage JSON_parse throws (listeners c') event_data))
       = (length (get_listeners (listeners c) "price_update") + length cbs)%nat).
Proof.
  intros Hrun Hsubs.
  assert (Hget : ∀ event,
            get_listeners (listeners c') event =
            get_listeners (listeners c) event ++
            (cbs ≫= λ ab, Dashboard.subscribed event ab.1 ab.2)).
  { intros event. rewrite (run_listeners _ _ ls c c' Hrun).
    rewrite foldl_subscribe_filter, Hsubs. apply foldl_effect_subscriptions. }
  assert (Hprice := Hget "price_update"). rewrite bind_subscribed_price in Hprice.
  assert (Htrade := Hget "new_trade"). rewrite bind_subscribed_trade in Htrade.
  split; [done|]. split; [done|].
  intros event_data msg Hparse Hevent Hquiet.
  rewrite (onmessage_event _ _ _ _ msg "price_update") by done. simpl.
  rewrite length_fmap, through_first_throw_none by (intros; apply Hquiet).
  by rewrite Hprice, length_app, length_fmap.
Qed.

End Lifecycle.

(** The page mounted, unmounted and mounted again, the old socket closing
    in between. *)
Lemma subscriptions_pile_up_witness :
  ∃ c', run (λ _, Some Dashboard.msg_new_trade) (λ _ _, false) new_client
          (effect false 1%positive 2%positive ++ cleanup ++ [SockClose 0] ++
           effect false 3%positive 4%positive) = Some c'
        ∧ get_listeners (listeners c') "price_update" = [1%positive; 3%positive]
        ∧ get_listeners (listeners c') "new_trade" = [2%positive; 4%positive].
Proof.
  eexists. split; [reflexivity|].
  destruct (subscriptions_pile_up (λ _, Some Dashboard.msg_new_trade)
              (λ _ _, false)
              (effect false 1%positive 2%positive ++ cleanup ++ [SockClose 0]
               ++ effect false 3%positive 4%positive)
              new_client _ [(1%positive, 2%positive); (3%positive, 4%positive)]
              eq_refl eq_refl) as (Hprice & Htrade & _).
  split; [exact Hprice|exact Htrade].
Defined.

End DashboardLifecycle.

(* ===================================================================== *)
(** * frontend/src/lib/websocket.ts: more on [on] and [off] *)
(* ===================================================================== *)

Module WSListeners.

Import WSClient.

(** [on(event, callback)] called [n] times in a row. *)
Fixpoint on_times (n : nat) (listeners : Listeners) (event : string)
    (callback : EventCallback) : Listeners :=
  match n with
  | 0%nat => listeners
  | S n' => on (on_times n' listeners event callback) event callback
  end.

Lemma get_listeners_on_times (n : nat) (listeners : Listeners)
    (event : string) (callback : EventCallback) :
  get_listeners (on_times n listeners event callback) event =
  get_listeners listeners event ++ replicate n callback.
Proof.
  induction n as [|n IH]; simpl; [by rewrite app_nil_r|].
  rewrite get_listeners_on, decide_True by done.
  rewrite IH, <- app_assoc. f_equal. symmetry. apply replicate_S_end.
Qed.

Lemma filter_ne_replicate (callback : EventCallback) (n : nat) :
  filter (λ cb, cb ≠ callback) (replicate n callback) = [].
Proof.
  induction n as [|n IH]; simpl; [done|].
  rewrite filter_cons_False; [done|]. by intros Hne.
Qed.

(** X7. A callback registered several times is kept, and called, that many
    times, but a single [off] removes every registration: after [n] calls
    of [on(e, cb)] the listeners of [e] end with [n] copies of [cb], and
    one [off(e, cb)] leaves the earlier listeners without any [cb]; if
    [cb] was not registered before, that is exactly the earlier list. *)
Theorem off_cancels_every_registration (n : nat) (listeners : Listeners)
    (e : string) (cb : EventCallback) :
  get_listeners (on_times n listeners e cb) e =
    get_listeners listeners e ++ replicate n cb
  ∧ get_listeners (off (on_times n listeners e cb) e cb) e =
    filter (λ c, c ≠ cb) (get_listeners listeners e)
  ∧ (cb ∉ get_listeners (off (on_times n listeners e cb) e cb) e)
  ∧ (cb ∉ get_listeners listeners e →
     get_listeners (off (on_times n listeners e cb) e cb) e =
     get_listeners listeners e).
Proof.
  assert (Hoff : get_listeners (off (on_times n listeners e cb) e cb) e =
                 filter (λ c, c ≠ cb) (get_listeners listeners e)).
  { rewrite get_listeners_off, get_listeners_on_times, filter_app.
    by rewrite filter_ne_replicate, app_nil_r. }
  split; [apply get_listeners_on_times|]. split; [exact Hoff|]. split.
  - rewrite Hoff. intros Hin. apply list_elem_of_filter in Hin as [Hne _].
    by apply Hne.
  - intros Hfresh. rewrite Hoff. by apply filter_ne_absent.
Qed.

Lemma off_cancels_every_registration_witness :
  (3%positive ∉ get_listeners (on ∅ "new_trade" 1%positive) "new_trade")
  ∧ get_listeners
      (off (on_times 2 (on ∅ "new_trade" 1%positive) "new_trade" 3%positive)
         "new_trade" 3%positive) "new_trade" =
    get_listeners (on ∅ "new_trade" 1%positive) "new_trade".
Proof.
  assert (Hfresh : 3%positive ∉
            get_listeners (on ∅ "new_trade" 1%positive) "new_trade").
  { rewrite get_listeners_on, decide_True by done. simpl.
    intros Hin. apply list_elem_of_singleton in Hin. lia. }
  split; [exact Hfresh|].
  exact (proj2 (proj2 (proj2 (off_cancels_every_registration 2
           (on ∅ "new_trade" 1%positive) "new_trade" 3%positive))) Hfresh).
Defined.

(** X8. The map never loses a key: [on] and [off] both leave an entry
    under their event and keep every other key. An [off] for an event that
    has no entry adds an empty one, so the map changes, but no listener
    list does. *)
Theorem listener_keys_only_grow (listeners : Listeners) (e : string)
    (cb : EventCallback) :
  dom (on listeners e cb) = {[e]} ∪ dom listeners
  ∧ dom (off listeners e cb) = {[e]} ∪ dom listeners
  ∧ (listeners !! e = None →
     off listeners e cb !! e = Some []
     ∧ off listeners e cb ≠ listeners
     ∧ ∀ e', get_listeners (off listeners e cb) e' =
             get_listeners listeners e').
Proof.
  split; [apply dom_insert_L|]. split; [apply dom_insert_L|].
  intros Hnone.
  assert (Hentry : off listeners e cb !! e = Some []).
  { unfold off, get_listeners. rewrite Hnone. simpl.
    by rewrite filter_nil, lookup_insert_eq. }
  split; [exact Hentry|]. split.
  - intros Heq. rewrite Heq in Hentry. congruence.
  - intros e'. destruct (decide (e' = e)) as [->|Hne].
    + unfold get_listeners at 1. rewrite Hentry. unfold get_listeners.
      by rewrite Hnone.
    + unfold get_listeners, off. by rewrite lookup_insert_ne.
Qed.

Lemma listener_keys_only_grow_witness :
  off (on ∅ "new_trade" 1%positive) "price_update" 1%positive
    !! "price_update" = Some []
  ∧ get_listeners (off (on ∅ "new_trade" 1%positive) "price_update" 1%positive)
      "new_trade" =
    get_listeners (on ∅ "new_trade" 1%positive) "new_trade".
Proof.
  assert (Hnone : on ∅ "new_trade" 1%positive !! "price_update" = None).
  { unfold on. rewrite lookup_insert_ne by done. apply lookup_empty. }
  destruct (proj2 (proj2 (listener_keys_only_grow
              (on ∅ "new_trade" 1%positive) "price_update" 1%positive)) Hnone)
    as (Hentry & _ & Hsame).
  split; [exact Hentry|apply Hsame].
Defined.

End WSListeners.

(* ===================================================================== *)
(** * The chart component: what is drawn, and when *)
(* ===================================================================== *)

Module ChartDrawing.

Import Chart.

(** ** Trade markers *)

(** [interface TradeMarker]; [side] is any string at run time (the
    dashboard casts the trade's side). *)
Record TradeMarker : Type := {
  marker_time : string;
  marker_side : string;
  marker_price : Q;
}.

Inductive MarkerPosition : Type := belowBar | aboveBar.
Inductive MarkerShape : Type := arrowUp | arrowDown.

(** A marker as the chart library takes it. *)
Record SeriesMarker : Type := {
  sm_time : Time;
  sm_position : MarkerPosition;
  sm_color : string;
  sm_shape : MarkerShape;
  sm_text : string;
}.

(** [Array.prototype.sort] with the comparator [(a, b) => a.time - b.time]:
    the sort is stable, so an element goes after those that are not later
    than it. *)
Fixpoint insert_marker (m : SeriesMarker) (sorted : list SeriesMarker)
  : list SeriesMarker :=
  match sorted with
  | [] => [m]
  | m' :: rest =>
      if Qle_bool (sm_time m') (sm_time m) then m' :: insert_marker m rest
      else m :: sorted
  end.

Definition sort_markers (ms : list SeriesMarker) : list SeriesMarker :=
  foldl (λ sorted m, insert_marker m sorted) [] ms.

(** ** Support and resistance price lines *)

(** [interface SRLevel]; [type] is any string at run time. *)
Record SRLevel : Type := {
  sr_price : Q;
  sr_type : string;
  sr_strength : Q;
  sr_touches : Q;
}.

(** The options given to [createPriceLine]. *)
Record PriceLine : Type := {
  pl_price : Q;
  pl_color : string;
  pl_lineWidth : nat;
  pl_lineStyle : LineStyle;
  pl_axisLabelVisible : bool;
  pl_title : string;
}.

Section Drawing.

(** [new Date(t).getTime() / 1000]. *)
Variable seconds_of : string → Time.

(** [n.toLocaleString()] and the default conversion of a number in a
    template literal. *)
Variable toLocaleString : Q → string.
Variable toString : Q → string.

(** The marker built from a trade marker. *)
Definition marker_of (m : TradeMarker) : SeriesMarker :=
  let buy := bool_decide (marker_side m = "BUY") in
  {| sm_time := seconds_of (marker_time m);
     sm_position := if buy then belowBar else aboveBar;
     sm_color := if buy then "#3fb950" else "#f85149";
     sm_shape := if buy then arrowUp else arrowDown;
     sm_text := marker_side m |}.

(** The markers block of the data effect: with no marker [setMarkers] is
    not called and the series keeps the markers it has. *)
Definition set_markers (current : list SeriesMarker)
    (markers : list TradeMarker) : list SeriesMarker :=
  match markers with
  | [] => current
  | _ :: _ => sort_markers (marker_of <$> markers)
  end.

(** The price line of a level, with its colour and the letter of its
    title. *)
Definition price_line (color letter : string) (level : SRLevel) : PriceLine :=
  {| pl_price := sr_price level;
     pl_color := color;
     pl_lineWidth := if Qle_bool 3 (sr_strength level) then 2 else 1;
     pl_lineStyle := Dashed;
     pl_axisLabelVisible := true;
     pl_title := letter +:+ " $" +:+ toLocaleString (sr_price level) +:+ " ("
                 +:+ toString (sr_touches level) +:+ "x)" |}.

(** The two price-line blocks, after the old price lines were removed:
    the support levels when "support" is active, then the resistance
    levels when "resistance" is. *)
Definition price_lines (activeOverlays : SetObject) (srLevels : list SRLevel)
  : list PriceLine :=
  (if bool_decide ("support" ∈ members activeOverlays)
   then price_line "#00c853" "S" <$>
        filter (λ l, sr_type l = "support") srLevels
   else [])
  ++
  (if bool_decide ("resistance" ∈ members activeOverlays)
   then price_line "#ff1744" "R" <$>
        filter (λ l, sr_type l = "resistance") srLevels
   else []).

(** What the data effect draws besides the candles and the lines: the
    markers and the price lines. *)
Record Decorations : Type := {
  seriesMarkers : list SeriesMarker;
  priceLinesRef : list PriceLine;
}.

(** The data effect on the markers and the price lines: nothing without a
    chart or without candles; the markers are set before the effect looks
    at the overlays; it returns before the price lines when there are no
    overlays or no timestamps. *)
Definition decorate (ready : bool) (d : Decorations) (candles : list Candle.t)
    (markers : list TradeMarker) (overlays : option Overlays)
    (srLevels : list SRLevel) (activeOverlays : SetObject) : Decorations :=
  match ready, candles with
  | true, _ :: _ =>
      let ms := set_markers (seriesMarkers d) markers in
      match overlays with
      | None => {| seriesMarkers := ms; priceLinesRef := priceLinesRef d |}
      | Some ov =>
          if decide (length (ov_timestamps ov) = 0)
          then {| seriesMarkers := ms; priceLinesRef := priceLinesRef d |}
          else {| seriesMarkers := ms;
                  priceLinesRef := price_lines activeOverlays srLevels |}
      end
  | _, _ => d
  end.

End Drawing.

(** One [addLine] call of the data effect: the overlay that switches it
    on, the key of the line, its values, colour, width and style. *)
Record LineSpec : Type := {
  spec_overlay : OverlayKey;
  spec_key : string;
  spec_values : list (option Q);
  spec_color : string;
  spec_lineWidth : nat;
  spec_lineStyle : LineStyle;
}.

(** The seven [addLine] calls, in the order of the source. *)
Definition line_specs (ov : Overlays) : list LineSpec :=
  [ {| spec_overlay := "ema_9"; spec_key := "ema_9";
       spec_values := ov_ema_9 ov; spec_color := "#58a6ff";
       spec_lineWidth := 1; spec_lineStyle := Solid |};
    {| spec_overlay := "ema_21"; spec_key := "ema_21";
       spec_values := ov_ema_21 ov; spec_color := "#d29922";
       spec_lineWidth := 1; spec_lineStyle := Solid |};
    {| spec_overlay := "ema_50"; spec_key := "ema_50";
       spec_values := ov_ema_50 ov; spec_color := "#bc8cff";
       spec_lineWidth := 2; spec_lineStyle := Solid |};
    {| spec_overlay := "ema_200"; spec_key := "ema_200";
       spec_values := ov_ema_200 ov; spec_color := "#f85149";
       spec_lineWidth := 2; spec_lineStyle := Dashed |};
    {| spec_overlay := "bb"; spec_key := "bb_upper";
       spec_values := ov_bb_upper ov; spec_color := "rgba(139,148,158,0.5)";
       spec_lineWidth := 1; spec_lineStyle := Dotted |};
    {| spec_overlay := "bb"; spec_key := "bb_middle";
       spec_values := ov_bb_middle ov; spec_color := "rgba(139,148,158,0.3)";
       spec_lineWidth := 1; spec_lineStyle := Dashed |};
    {| spec_overlay := "bb"; spec_key := "bb_lower";
       spec_values := ov_bb_lower ov; spec_color := "rgba(139,148,158,0.5)";
       spec_lineWidth := 1; spec_lineStyle := Dotted |} ].

(** The [addLine] call that can draw the line of a key, if there is one. *)
Definition line_of (ov : Overlays) (key : string) : option LineSpec :=
  List.find (λ sp, String.eqb (spec_key sp) key) (line_specs ov).

(** One [addLine] call under its [activeOverlays.has] test. *)
Definition add_line (timestamps : list Time) (active : gset OverlayKey)
    (lineSeries : gmap string LineSeries) (sp : LineSpec)
  : gmap string LineSeries :=
  if bool_decide (spec_overlay sp ∈ active)
  then addLine timestamps lineSeries (spec_key sp) (spec_values sp)
         (spec_color sp) (spec_lineWidth sp) (spec_lineStyle sp)
  else lineSeries.

(** The series [addLine] makes for a call. *)
Definition series_of (timestamps : list Time) (sp : LineSpec) : LineSeries :=
  {| series_color := spec_color sp; series_lineWidth := spec_lineWidth sp;
     series_lineStyle := spec_lineStyle sp;
     series_data := addLine_data 0 timestamps (spec_values sp) |}.

(** The keys of the overlays that switch lines. *)
Definition line_overlays : list OverlayKey :=
  ["ema_9"; "ema_21"; "ema_50"; "ema_200"; "bb"].

(** The candle after the ticks, in their order. *)
Definition after_ticks (c : CandlestickData) (ticks : list TickUpdate)
  : CandlestickData :=
  foldl updated c ticks.

(** The live tick effect run once for each tick with no other effect in
    between. The component does this only in renders where no dependency
    of the data effect has changed ([rerenders_ticks_only] below); in the
    other renders the data effect runs first ([rerender]). *)
Definition live_ticks (st : ChartState) (ticks : list TickUpdate) : ChartState :=
  foldl (λ st tick, live_tick st (Some tick)) st ticks.

(** ** Renders *)

(** The reference of an array or an object: a dependency list compares
    them by identity. *)
Definition Ref : Type := positive.

(** What one render of the component sees, each array or object with its
    reference. A [markers] or [srLevels] prop that is not given is a new
    empty array in every render, so it comes with a new reference every
    time; [latestTick] is [None] when it is null or not given. The
    height, a number the dashboard never changes, is left out, and with it
    the effect that creates the chart. *)
Record Render : Type := {
  r_candles : Ref * list Candle.t;
  r_markers : Ref * list TradeMarker;
  r_overlays : option (Ref * Overlays);
  r_srLevels : Ref * list SRLevel;
  r_activeOverlays : SetObject;
  r_latestTick : option (Ref * TickUpdate);
}.

(** The dependencies of the data effect, [candles, markers, overlays,
    srLevels, activeOverlays]. *)
Definition data_deps (r : Render) : Ref * Ref * option Ref * Ref * Ref :=
  ((r_candles r).1, (r_markers r).1, fst <$> r_overlays r, (r_srLevels r).1,
   ref (r_activeOverlays r)).

(** The dependency of the live tick effect, [latestTick]. *)
Definition tick_dep (r : Render) : option Ref := fst <$> r_latestTick r.

(** A render after the one that saw [prev]: the effects run in the order
    they are written, each only if one of its dependencies is not the one
    of the render before. *)
Definition rerender (seconds_of : string → Time) (prev r : Render)
    (st : ChartState) : ChartState :=
  let st1 :=
    if decide (data_deps r = data_deps prev) then st
    else data_effect seconds_of st (r_candles r).2 (snd <$> r_overlays r)
           (r_activeOverlays r) in
  if decide (tick_dep r = tick_dep prev) then st1
  else live_tick st1 (snd <$> r_latestTick r).

Fixpoint rerenders (seconds_of : string → Time) (prev : Render)
    (st : ChartState) (rs : list Render) : ChartState :=
  match rs with
  | [] => st
  | r :: rs => rerenders seconds_of r (rerender seconds_of prev r st) rs
  end.

(** The renders [rs] after [prev] differ from one to the next in the tick
    only: the dependencies of the data effect keep their identity, and
    each render has a new tick, those of [ticks] in their order. *)
Fixpoint ticks_only (prev : Render) (rs : list Render)
    (ticks : list TickUpdate) : Prop :=
  match rs, ticks with
  | [], [] => True
  | r :: rs, tick :: ticks =>
      data_deps r = data_deps prev
      ∧ tick_dep r ≠ tick_dep prev
      ∧ snd <$> r_latestTick r = Some tick
      ∧ ticks_only r rs ticks
  | _, _ => False
  end.

(** The tracked candle is the last bar the series was given, and every bar
    given to [update] since the last [setData] has the time of the last
    candle of that data. *)
Definition tracks_last (st : ChartState) : Prop :=
  lastCandleRef st = last (candle_data st ++ series_updates st)
  ∧ Forall (λ u, Some (time u) = time <$> last (candle_data st))
           (series_updates st).

(** A run of [toggleOverlay] calls, each copy allocated at its own
    reference. *)
Definition toggles (s : SetObject) (clicks : list (positive * OverlayKey))
  : SetObject :=
  foldl (λ s c, toggleOverlay c.1 s c.2) s clicks.

(** The order of the comparator [(a, b) => a.time - b.time]. *)
Definition by_time (a b : SeriesMarker) : Prop := (sm_time a <= sm_time b)%Q.

(** The markers at a given time. *)
Definition at_time (t : Time) (ms : list SeriesMarker) : list SeriesMarker :=
  filter (λ m, Qeq_bool (sm_time m) t = true) ms.

(** ** Sample values *)

(** Overlays over two timestamps; the long averages are not known yet. *)
Definition two_points : Overlays :=
  {| ov_ema_9 := [None; Some 101%Q];
     ov_ema_21 := [None; Some 100%Q];
     ov_ema_50 := [None; None];
     ov_ema_200 := [None; None];
     ov_bb_upper := [None; Some 110%Q];
     ov_bb_middle := [None; Some 100%Q];
     ov_bb_lower := [None; Some 90%Q];
     ov_timestamps := ["2023-11-14T22:00:00Z"; "2023-11-14T22:15:00Z"] |}.

(** A stand-in for the clock of the samples: the length of the text. *)
Definition sample_seconds (t : string) : Time :=
  inject_Z (Z.of_nat (String.length t)).

(** A stand-in for the number formats of the samples. *)
Definition sample_format (x : Q) : string := pretty (Qnum x).

Definition sample_candle : Candle.t :=
  {| Candle.timestamp := "2023-11-14T22:15:00Z"; Candle.open := 100%Q;
     Candle.high := 105%Q; Candle.low := 98%Q; Candle.close := 101%Q;
     Candle.volume := 12%Q |}.

(** A chart that has its series and no data yet. *)
Definition empty_chart : ChartState :=
  {| seriesRef := true; candle_data := []; series_updates := [];
     lastCandleRef := None; lineSeriesRefs := ∅ |}.

Definition tick_95 : TickUpdate :=
  {| price := 95%Q; timestamp := "2023-11-14T22:14:20Z" |}.

(** A render of the sample chart with the markers array at [markers_ref]
    and the given tick. *)
Definition sample_render (markers_ref : Ref)
    (latestTick : option (Ref * TickUpdate)) : Render :=
  {| r_candles := (1%positive, [sample_candle]);
     r_markers := (markers_ref, []);
     r_overlays := None;
     r_srLevels := (3%positive, []);
     r_activeOverlays := initial_overlays 4%positive;
     r_latestTick := latestTick |}.

(** The sample chart after its data effect has run. *)
Definition sample_chart : ChartState :=
  data_effect sample_seconds empty_chart [sample_candle] None
    (initial_overlays 4%positive).

Definition sample_levels : list SRLevel :=
  [ {| sr_price := 98%Q; sr_type := "support"; sr_strength := 3%Q;
       sr_touches := 4%Q |};
    {| sr_price := 110%Q; sr_type := "resistance"; sr_strength := 1%Q;
       sr_touches := 2%Q |} ].

(** ** Facts about [addLine] *)

Lemma addLine_data_sublist (i : nat) (timestamps : list Time)
    (values : list (option Q)) :
  line_time <$> addLine_data i timestamps values `sublist_of` timestamps.
Proof.
  revert i. induction timestamps as [|t rest IH]; intros i; simpl; [done|].
  destruct (values !! i) as [[v|]|].
  - rewrite fmap_cons. simpl. by apply sublist_skip.
  - by apply sublist_cons.
  - by apply sublist_cons.
Qed.

Lemma addLine_data_take (i : nat) (timestamps : list Time)
    (values : list (option Q)) :
  addLine_data i timestamps values =
  addLine_data i timestamps (take (i + length timestamps) values).
Proof.
  revert i. induction timestamps as [|t rest IH]; intros i; simpl; [done|].
  rewrite lookup_take_lt by lia.
  rewrite (IH (S i)). replace (S i + length rest)%nat with (i + S (length rest))%nat by lia.
  done.
Qed.

Lemma sublist_StronglySorted (l k : list Q) :
  l `sublist_of` k → StronglySorted Qlt k → StronglySorted Qlt l.
Proof.
  induction 1 as [|x l k Hsub IH|x l k Hsub IH]; intros Hsorted.
  - constructor.
  - apply StronglySorted_inv in Hsorted as [Hk Hall]. constructor; [by apply IH|].
    apply Forall_forall. intros y Hy.
    apply (proj1 (Forall_forall _ _) Hall). by apply (sublist_subseteq _ _ Hsub).
  - apply StronglySorted_inv in Hsorted as [Hk _]. by apply IH.
Qed.

(** X9. [addLine] keeps the order of the timestamps: the times of the
    points it plots are taken from the timestamps in their order, so there
    are no more points than timestamps and, when the timestamps increase
    strictly, so do the times of the points; values past the last
    timestamp are never read. *)
Theorem addLine_keeps_time_order (timestamps : list Time)
    (values : list (option Q)) :
  line_time <$> addLine_data 0 timestamps values `sublist_of` timestamps
  ∧ (length (addLine_data 0 timestamps values) ≤ length timestamps)%nat
  ∧ addLine_data 0 timestamps values =
    addLine_data 0 timestamps (take (length timestamps) values)
  ∧ (StronglySorted Qlt timestamps →
     StronglySorted Qlt (line_time <$> addLine_data 0 timestamps values)).
Proof.
  pose proof (addLine_data_sublist 0 timestamps values) as Hsub.
  split; [exact Hsub|]. split.
  { apply sublist_length in Hsub. by rewrite length_fmap in Hsub. }
  split; [apply (addLine_data_take 0)|].
  by apply sublist_StronglySorted.
Qed.

Lemma addLine_keeps_time_order_witness :
  StronglySorted Qlt [1%Q; 2%Q; 3%Q]
  ∧ StronglySorted Qlt
      (line_time <$> addLine_data 0 [1%Q; 2%Q; 3%Q]
                       [Some 10%Q; None; Some 12%Q; Some 13%Q]).
Proof.
  assert (Hsorted : StronglySorted Qlt [1%Q; 2%Q; 3%Q]).
  { repeat constructor. }
  split; [exact Hsorted|].
  exact (proj2 (proj2 (proj2 (addLine_keeps_time_order [1%Q; 2%Q; 3%Q]
           [Some 10%Q; None; Some 12%Q; Some 13%Q]))) Hsorted).
Defined.

(** ** Facts about live ticks *)

Lemma updated_bounds (c : CandlestickData) (tick : TickUpdate) :
  (low (updated c tick) <= low c)%Q
  ∧ (high c <= high (updated c tick))%Q
  ∧ (low (updated c tick) <= price tick <= high (updated c tick))%Q.
Proof.
  simpl. repeat split.
  - apply Q.le_min_l.
  - apply Q.le_max_l.
  - apply Q.le_min_r.
  - apply Q.le_max_r.
Qed.

Lemma after_ticks_snoc (c : CandlestickData) (ticks : list TickUpdate)
    (tick : TickUpdate) :
  after_ticks c (ticks ++ [tick]) = updated (after_ticks c ticks) tick.
Proof. unfold after_ticks. by rewrite foldl_app. Qed.

Lemma live_ticks_snoc (st : ChartState) (ticks : list TickUpdate)
    (tick : TickUpdate) :
  live_ticks st (ticks ++ [tick]) = live_tick (live_ticks st ticks) (Some tick).
Proof. unfold live_ticks. by rewrite foldl_app. Qed.

Lemma live_ticks_seriesRef (ticks : list TickUpdate) :
  ∀ st, seriesRef (live_ticks st ticks) = seriesRef st.
Proof.
  induction ticks as [|t ts IH]; intros st; [done|].
  change (live_ticks st (t :: ts)) with (live_ticks (live_tick st (Some t)) ts).
  rewrite IH. unfold live_tick.
  destruct (seriesRef st) eqn:Hs; [|done]. by destruct (lastCandleRef st).
Qed.

(** The candle after the ticks, and the tick effect run once per tick with
    nothing in between. *)
Lemma after_ticks_stretch (c : CandlestickData) (ticks : list TickUpdate) :
  time (after_ticks c ticks) = time c
  ∧ open (after_ticks c ticks) = open c
  ∧ close (after_ticks c ticks) = default (close c) (price <$> last ticks)
  ∧ (low (after_ticks c ticks) <= low c)%Q
  ∧ (high c <= high (after_ticks c ticks))%Q
  ∧ (∀ tick, tick ∈ ticks →
       (low (after_ticks c ticks) <= price tick)%Q
       ∧ (price tick <= high (after_ticks c ticks))%Q)
  ∧ (∀ st, seriesRef st = true → lastCandleRef st = Some c →
       lastCandleRef (live_ticks st ticks) = Some (after_ticks c ticks)
       ∧ length (series_updates (live_ticks st ticks)) =
         (length (series_updates st) + length ticks)%nat).
Proof.
  induction ticks as [|tick ticks IH] using rev_ind.
  { simpl. split; [done|]. split; [done|]. split; [done|].
    split; [apply Qle_refl|]. split; [apply Qle_refl|]. split.
    - by intros tick ?%elem_of_nil.
    - intros st _ Hlast. split; [done|lia]. }
  destruct IH as (Htime & Hopen & Hclose & Hlow & Hhigh & Hin & Heffect).
  rewrite after_ticks_snoc.
  destruct (updated_bounds (after_ticks c ticks) tick)
    as (Hl & Hh & Hpl & Hph).
  split; [done|]. split; [done|]. split.
  { rewrite last_snoc. done. }
  split; [exact (Qle_trans _ _ _ Hl Hlow)|].
  split; [exact (Qle_trans _ _ _ Hhigh Hh)|]. split.
  - intros t Ht. apply elem_of_app in Ht as [Ht|Ht].
    + destruct (Hin t Ht) as [Ha Hb].
      split; [exact (Qle_trans _ _ _ Hl Ha)|exact (Qle_trans _ _ _ Hb Hh)].
    + apply list_elem_of_singleton in Ht as ->. done.
  - intros st Hseries Hlast. destruct (Heffect st Hseries Hlast) as [Hl1 Hl2].
    rewrite live_ticks_snoc. unfold live_tick.
    rewrite live_ticks_seriesRef, Hseries, Hl1. simpl. split; [done|].
    rewrite !length_app, Hl2. simpl. lia.
Qed.

(** ** Facts about the lines drawn *)

Lemma addLine_lookup (timestamps : list Time)
    (lineSeries : gmap string LineSeries) (key other : string)
    (values : list (option Q)) (color : string) (lineWidth : nat)
    (lineStyle : LineStyle) :
  addLine timestamps lineSeries key values color lineWidth lineStyle !! other =
  if decide (key = other ∧ addLine_data 0 timestamps values ≠ [])
  then Some {| series_color := color; series_lineWidth := lineWidth;
               series_lineStyle := lineStyle;
               series_data := addLine_data 0 timestamps values |}
  else lineSeries !! other.
Proof.
  unfold addLine.
  destruct (addLine_data 0 timestamps values) as [|pt data] eqn:Hdata; simpl.
  - rewrite decide_False; [done|]. by intros [_ ?].
  - destruct (decide (key = other)) as [->|Hne].
    + rewrite lookup_insert_eq, decide_True; done.
    + rewrite lookup_insert_ne by done. rewrite decide_False; [done|].
      by intros [? _].
Qed.

Lemma add_line_lookup (timestamps : list Time) (active : gset OverlayKey)
    (lineSeries : gmap string LineSeries) (sp : LineSpec) (key : string) :
  add_line timestamps active lineSeries sp !! key =
  if decide (spec_key sp = key ∧ spec_overlay sp ∈ active
             ∧ addLine_data 0 timestamps (spec_values sp) ≠ [])
  then Some (series_of timestamps sp)
  else lineSeries !! key.
Proof.
  unfold add_line. destruct (decide (spec_overlay sp ∈ active)) as [Hin|Hout].
  - rewrite bool_decide_true, addLine_lookup by done.
    destruct (decide (spec_key sp = key ∧ _)) as [[Hk Hd]|Hno].
    + by rewrite decide_True.
    + rewrite decide_False; [done|]. intros (Hk & _ & Hd). by apply Hno.
  - rewrite bool_decide_false by done. rewrite decide_False; [done|].
    by intros (_ & ? & _).
Qed.

Lemma foldl_add_line_lookup (timestamps : list Time)
    (active : gset OverlayKey) (key : string) (specs : list LineSpec) :
  ∀ lineSeries,
    NoDup (spec_key <$> specs) →
    foldl (add_line timestamps active) lineSeries specs !! key =
    match List.find (λ sp, String.eqb (spec_key sp) key) specs with
    | Some sp =>
        if decide (spec_overlay sp ∈ active
                   ∧ addLine_data 0 timestamps (spec_values sp) ≠ [])
        then Some (series_of timestamps sp)
        else lineSeries !! key
    | None => lineSeries !! key
    end.
Proof.
  induction specs as [|sp rest IH]; intros lineSeries Hnodup; [done|].
  rewrite fmap_cons in Hnodup. apply NoDup_cons in Hnodup as [Hfresh Hnodup].
  simpl. rewrite (IH _ Hnodup), add_line_lookup.
  destruct (String.eqb (spec_key sp) key) eqn:Heq.
  - apply String.eqb_eq in Heq.
    assert (Hnone : List.find (λ sp, String.eqb (spec_key sp) key) rest = None).
    { destruct (List.find _ rest) as [sp'|] eqn:Hfind; [|done].
      apply List.find_some in Hfind as [Hin Hkey].
      apply String.eqb_eq in Hkey. destruct Hfresh.
      rewrite Heq, <- Hkey. apply list_elem_of_fmap. exists sp'.
      split; [done|]. by apply list_elem_of_In. }
    rewrite Hnone.
    destruct (decide (spec_overlay sp ∈ active ∧ _)) as [[Ho Hd]|Hno].
    + by rewrite decide_True.
    + rewrite decide_False; [done|]. intros (_ & Ho & Hd). by apply Hno.
  - apply String.eqb_neq in Heq.
    rewrite (decide_False (P := spec_key sp = key ∧ _)); [done|].
    by intros [? _].
Qed.

Lemma render_lines_fold (seconds_of : string → Time)
    (activeOverlays : SetObject) (ov : Overlays) :
  ov_timestamps ov ≠ [] →
  render_lines seconds_of activeOverlays (Some ov) =
  foldl (add_line (seconds_of <$> ov_timestamps ov) (members activeOverlays))
        ∅ (line_specs ov).
Proof.
  intros Hts. unfold render_lines.
  rewrite decide_False by (by intros ?%nil_length_inv).
  unfold line_specs, add_line. cbv beta zeta. cbn [foldl spec_overlay spec_key spec_values spec_color spec_lineWidth spec_lineStyle].
  repeat (case_bool_decide; try contradiction); reflexivity.
Qed.

Lemma line_specs_NoDup (ov : Overlays) : NoDup (spec_key <$> line_specs ov).
Proof. apply (bool_decide_unpack _). by vm_compute. Qed.

(** X11. The lines the data effect draws, key by key: a key has a line
    exactly when one of the seven [addLine] calls is for it, the overlay
    that guards the call is active and at least one value in the range of
    the timestamps is not null; the line then has the colour, width, style
    and points of that call. In particular no key outside the seven is ever
    drawn, and the three Bollinger lines all follow the one key "bb". *)
Theorem lines_drawn (seconds_of : string → Time) (activeOverlays : SetObject)
    (ov : Overlays) (key : string) :
  render_lines seconds_of activeOverlays (Some ov) !! key =
  match line_of ov key with
  | Some sp =>
      if decide (spec_overlay sp ∈ members activeOverlays
                 ∧ addLine_data 0 (seconds_of <$> ov_timestamps ov)
                     (spec_values sp) ≠ [])
      then Some (series_of (seconds_of <$> ov_timestamps ov) sp)
      else None
  | None => None
  end.
Proof.
  destruct (ov_timestamps ov) as [|t ts] eqn:Hts.
  - unfold render_lines. rewrite Hts. simpl. rewrite lookup_empty.
    destruct (line_of ov key); [|done].
    rewrite decide_False; [done|]. by intros [_ ?].
  - rewrite <- Hts. rewrite render_lines_fold by (by rewrite Hts).
    rewrite foldl_add_line_lookup by apply line_specs_NoDup.
    rewrite lookup_empty. unfold line_of.
    destruct (List.find _ _); [|done]. by destruct (decide _).
Qed.
(** ** Facts about the overlay set and the lines *)

Lemma toggleOverlay_member (fresh : positive) (s : SetObject)
    (k k' : OverlayKey) :
  bool_decide (k' ∈ members (toggleOverlay fresh s k)) =
  xorb (bool_decide (k' ∈ members s)) (bool_decide (k = k')).
Proof.
  unfold toggleOverlay; simpl.
  destruct (decide (k ∈ members s)) as [Hin|Hout];
    destruct (decide (k = k')) as [<-|Hne].
  - rewrite (bool_decide_true (k ∈ members s)) by done.
    rewrite (bool_decide_true (k = k)) by done.
    apply bool_decide_false. set_solver.
  - rewrite (bool_decide_false (k = k')) by done. rewrite xorb_false_r.
    apply bool_decide_ext. set_solver.
  - rewrite (bool_decide_false (k ∈ members s)) by done.
    rewrite (bool_decide_true (k = k)) by done.
    apply bool_decide_true. set_solver.
  - rewrite (bool_decide_false (k = k')) by done. rewrite xorb_false_r.
    apply bool_decide_ext. set_solver.
Qed.

Lemma toggles_snoc (s : SetObject) (clicks : list (positive * OverlayKey))
    (c : positive * OverlayKey) :
  toggles s (clicks ++ [c]) = toggleOverlay c.1 (toggles s clicks) c.2.
Proof. unfold toggles. by rewrite foldl_app. Qed.

(** X12. After any run of toggles a key is active exactly when it was
    active at the start and was toggled an even number of times, or was not
    and was toggled an odd number of times; toggles of other keys do not
    count. *)
Theorem toggles_parity (s : SetObject)
    (clicks : list (positive * OverlayKey)) (k : OverlayKey) :
  bool_decide (k ∈ members (toggles s clicks)) =
  xorb (bool_decide (k ∈ members s))
       (Nat.odd (length (filter (λ c, c.2 = k) clicks))).
Proof.
  induction clicks as [|c clicks IH] using rev_ind.
  { simpl. by rewrite xorb_false_r. }
  rewrite toggles_snoc, toggleOverlay_member, IH, filter_app, length_app.
  rewrite Nat.odd_add, xorb_assoc. f_equal. f_equal.
  rewrite filter_cons, filter_nil.
  destruct (decide (c.2 = k)) as [Heq|Hne].
  - by rewrite bool_decide_true.
  - by rewrite bool_decide_false.
Qed.

(** X13. [ensureOverlay] changes the state only when it has to, and
    [toggleOverlay] always does: ensuring returns the object it was given
    exactly when the key is already active, and its members are those of
    the old set with the key; toggling never leaves the members as they
    were; a toggle after an ensure hides the key, an ensure after a toggle
    shows it. *)
Theorem ensure_changes_only_when_needed (prev : SetObject) (key : OverlayKey)
    (fresh1 fresh2 : positive) :
  (ensureOverlay fresh1 prev key = prev ↔ key ∈ members prev)
  ∧ members (ensureOverlay fresh1 prev key) = members prev ∪ {[key]}
  ∧ members (toggleOverlay fresh1 prev key) ≠ members prev
  ∧ members (toggleOverlay fresh2 (ensureOverlay fresh1 prev key) key) =
    members prev ∖ {[key]}
  ∧ members (ensureOverlay fresh2 (toggleOverlay fresh1 prev key) key) =
    members prev ∪ {[key]}.
Proof.
  unfold ensureOverlay, toggleOverlay.
  destruct (decide (key ∈ members prev)) as [Hin|Hout]; simpl.
  - split; [done|]. split; [set_solver|]. split; [set_solver|].
    rewrite decide_True by done. split; [done|].
    rewrite decide_False by set_solver. simpl.
    apply set_eq; intros x. destruct (decide (x = key)); set_solver.
  - split.
    { split; [|done]. intros Heq. rewrite <- Heq in Hout. simpl in Hout.
      set_solver. }
    split; [done|]. split; [set_solver|].
    rewrite decide_True by set_solver. split; [set_solver|].
    rewrite decide_True by set_solver. simpl. set_solver.
Qed.

Lemma line_specs_overlay (ov : Overlays) (sp : LineSpec) :
  sp ∈ line_specs ov → spec_overlay sp ∈ line_overlays.
Proof.
  unfold line_specs, line_overlays. rewrite !elem_of_cons.
  intros Hin.
  repeat (destruct Hin as [->|Hin]; [simpl; set_solver|]).
  by apply elem_of_nil in Hin.
Qed.

Lemma foldl_add_line_agree (timestamps : list Time)
    (active active' : gset OverlayKey) (specs : list LineSpec) :
  (∀ sp, sp ∈ specs → spec_overlay sp ∈ active ↔ spec_overlay sp ∈ active') →
  ∀ lineSeries,
    foldl (add_line timestamps active) lineSeries specs =
    foldl (add_line timestamps active') lineSeries specs.
Proof.
  induction specs as [|sp rest IH]; intros Hagree lineSeries; [done|].
  simpl. rewrite IH by (intros sp' Hin; apply Hagree; by right).
  f_equal. unfold add_line.
  assert (Hsp : spec_overlay sp ∈ active ↔ spec_overlay sp ∈ active').
  { apply Hagree. by left. }
  by rewrite (bool_decide_ext _ _ Hsp).
Qed.

(** X14. The lines depend only on the five overlays that guard them: two
    sets of active overlays that agree on "ema_9", "ema_21", "ema_50",
    "ema_200" and "bb" give the same line series, so switching "support",
    "resistance" or a key the chart does not know changes no line. *)
Theorem lines_ignore_other_overlays (seconds_of : string → Time)
    (a b : SetObject) (overlays : option Overlays) :
  (∀ k, k ∈ line_overlays → k ∈ members a ↔ k ∈ members b) →
  render_lines seconds_of a overlays = render_lines seconds_of b overlays.
Proof.
  intros Hagree. destruct overlays as [ov|]; [|done].
  destruct (ov_timestamps ov) as [|t ts] eqn:Hts.
  { unfold render_lines. by rewrite Hts. }
  rewrite !render_lines_fold by (by rewrite Hts).
  apply foldl_add_line_agree. intros sp Hin.
  apply Hagree. by apply (line_specs_overlay ov).
Qed.

Lemma lines_ignore_other_overlays_witness :
  render_lines sample_seconds (initial_overlays 1%positive) (Some two_points) =
  render_lines sample_seconds
    (toggleOverlay 2%positive (initial_overlays 1%positive) "support")
    (Some two_points).
Proof.
  apply lines_ignore_other_overlays.
  intros k Hk.
  assert (Hne : k ≠ "support").
  { intros ->. unfold line_overlays in Hk. set_solver. }
  assert (Hs : "support" ∈ members (initial_overlays 1%positive)).
  { unfold initial_overlays; simpl. set_solver. }
  unfold toggleOverlay; simpl. rewrite decide_True by exact Hs.
  set_solver.
Defined.

Lemma line_of_line_specs (ov : Overlays) (sp : LineSpec) :
  sp ∈ line_specs ov → line_of ov (spec_key sp) = Some sp.
Proof.
  unfold line_of, line_specs. rewrite !elem_of_cons.
  intros Hin.
  repeat (destruct Hin as [->|Hin]; [reflexivity|]).
  by apply elem_of_nil in Hin.
Qed.

(** X15. "Show on chart" draws the line: once [ensureOverlay] has run for
    the overlay that guards an [addLine] call, the data effect draws that
    call's line, whenever the call has a value that is not null within the
    timestamps; whether the overlay was active before does not matter. *)
Theorem show_on_chart_draws_line (seconds_of : string → Time)
    (fresh : positive) (prev : SetObject) (ov : Overlays) (sp : LineSpec) :
  sp ∈ line_specs ov →
  addLine_data 0 (seconds_of <$> ov_timestamps ov) (spec_values sp) ≠ [] →
  render_lines seconds_of (ensureOverlay fresh prev (spec_overlay sp))
               (Some ov) !! spec_key sp =
  Some (series_of (seconds_of <$> ov_timestamps ov) sp).
Proof.
  intros Hin Hdata.
  assert (Hts : ov_timestamps ov ≠ []).
  { intros Hnil. apply Hdata. by rewrite Hnil. }
  rewrite render_lines_fold by done.
  rewrite foldl_add_line_lookup by apply line_specs_NoDup.
  fold (line_of ov (spec_key sp)). rewrite (line_of_line_specs ov sp Hin).
  rewrite decide_True; [done|]. split; [|done].
  unfold ensureOverlay. destruct (decide _); simpl; set_solver.
Qed.

Lemma show_on_chart_draws_line_witness :
  render_lines sample_seconds
    (ensureOverlay 2%positive {| ref := 1%positive; members := ∅ |} "bb")
    (Some two_points) !! "bb_middle" =
  Some {| series_color := "rgba(139,148,158,0.3)"; series_lineWidth := 1;
          series_lineStyle := Dashed;
          series_data := [ {| line_time := 20%Q; line_value := 100%Q |} ] |}.
Proof.
  apply (show_on_chart_draws_line sample_seconds 2%positive
           {| ref := 1%positive; members := ∅ |} two_points
           {| spec_overlay := "bb"; spec_key := "bb_middle";
              spec_values := ov_bb_middle two_points;
              spec_color := "rgba(139,148,158,0.3)";
              spec_lineWidth := 1; spec_lineStyle := Dashed |}).
  - unfold line_specs. set_solver.
  - simpl. discriminate.
Defined.

(** ** Facts about the data effect and the ticks together *)

Lemma chartData_nonempty (seconds_of : string → Time)
    (candles : list Candle.t) :
  candles ≠ [] → ∃ lc, last (chartData seconds_of candles) = Some lc.
Proof.
  intros Hne. unfold chartData. rewrite fmap_last.
  destruct (last candles) as [c|] eqn:Hlast; [by eexists|].
  by apply last_None in Hlast.
Qed.

Lemma data_effect_ready (seconds_of : string → Time) (st : ChartState)
    (candles : list Candle.t) (overlays : option Overlays)
    (activeOverlays : SetObject) (lc : CandlestickData) :
  seriesRef st = true →
  last (chartData seconds_of candles) = Some lc →
  data_effect seconds_of st candles overlays activeOverlays =
  {| seriesRef := true; candle_data := chartData seconds_of candles;
     series_updates := []; lastCandleRef := Some lc;
     lineSeriesRefs := render_lines seconds_of activeOverlays overlays |}.
Proof.
  intros Hseries Hlast. unfold data_effect. rewrite Hseries.
  destruct candles as [|c candles]; [done|]. by rewrite Hlast.
Qed.

(** X16. A data refresh discards the live ticks: on a chart that has its
    series, the data effect run with some candles gives the same state
    whether or not ticks came before; the tracked candle is the last of
    the new candles, with the high and low the server gave, and the list
    of updates is empty again. *)
Theorem refresh_discards_ticks (seconds_of : string → Time) (st : ChartState)
    (ticks : list TickUpdate) (candles : list Candle.t)
    (overlays : option Overlays) (activeOverlays : SetObject) :
  seriesRef st = true →
  candles ≠ [] →
  data_effect seconds_of (live_ticks st ticks) candles overlays activeOverlays
  = data_effect seconds_of st candles overlays activeOverlays
  ∧ lastCandleRef (data_effect seconds_of st candles overlays activeOverlays)
    = last (chartData seconds_of candles)
  ∧ series_updates
      (data_effect seconds_of st candles overlays activeOverlays) = [].
Proof.
  intros Hseries Hne.
  destruct (chartData_nonempty seconds_of candles Hne) as [lc Hlast].
  unfold data_effect. rewrite live_ticks_seriesRef, Hseries.
  destruct candles as [|c candles]; [done|]. rewrite Hlast. done.
Qed.

Lemma refresh_discards_ticks_witness :
  data_effect sample_seconds (live_ticks empty_chart [tick_107])
    [sample_candle] (Some two_points) (initial_overlays 1%positive)
  = data_effect sample_seconds empty_chart [sample_candle] (Some two_points)
      (initial_overlays 1%positive).
Proof.
  apply (refresh_discards_ticks sample_seconds empty_chart [tick_107]
           [sample_candle] (Some two_points) (initial_overlays 1%positive)).
  - reflexivity.
  - discriminate.
Defined.

Lemma live_tick_tracked (st : ChartState) (tick : TickUpdate)
    (lc : CandlestickData) :
  seriesRef st = true → lastCandleRef st = Some lc →
  live_tick st (Some tick) =
  {| seriesRef := true; candle_data := candle_data st;
     series_updates := series_updates st ++ [updated lc tick];
     lastCandleRef := Some (updated lc tick);
     lineSeriesRefs := lineSeriesRefs st |}.
Proof. intros Hs Hl. unfold live_tick. by rewrite Hs, Hl. Qed.

Lemma live_ticks_candle_data (ticks : list TickUpdate) :
  ∀ st, candle_data (live_ticks st ticks) = candle_data st
        ∧ lineSeriesRefs (live_ticks st ticks) = lineSeriesRefs st.
Proof.
  induction ticks as [|t ts IH]; intros st; [done|].
  change (live_ticks st (t :: ts)) with (live_ticks (live_tick st (Some t)) ts).
  destruct (IH (live_tick st (Some t))) as [-> ->]. unfold live_tick.
  destruct (seriesRef st); [|done]. by destruct (lastCandleRef st).
Qed.

(** ** Facts about renders *)

Lemma rerender_tick_only (seconds_of : string → Time) (prev r : Render)
    (st : ChartState) :
  data_deps r = data_deps prev →
  tick_dep r ≠ tick_dep prev →
  rerender seconds_of prev r st = live_tick st (snd <$> r_latestTick r).
Proof.
  intros Hdata Htick. unfold rerender.
  rewrite (decide_True (P := data_deps r = data_deps prev)) by done.
  by rewrite (decide_False (P := tick_dep r = tick_dep prev)) by done.
Qed.

Lemma rerenders_ticks_only (seconds_of : string → Time) (rs : list Render) :
  ∀ prev st ticks,
    ticks_only prev rs ticks →
    rerenders seconds_of prev st rs = live_ticks st ticks.
Proof.
  induction rs as [|r rs IH]; intros prev st [|tick ticks]; simpl; try done.
  intros (Hdata & Htick & Hlatest & Hrest).
  rewrite (rerender_tick_only _ _ _ _ Hdata Htick), Hlatest.
  by apply IH.
Qed.

Lemma live_tick_tracks_last (st : ChartState) (latestTick : option TickUpdate) :
  tracks_last st → tracks_last (live_tick st latestTick).
Proof.
  intros Hst. pose proof Hst as [Htracked Hall]. unfold live_tick.
  destruct latestTick as [tick|]; [|done].
  destruct (seriesRef st); [|done].
  destruct (lastCandleRef st) as [lc|] eqn:Hlc; [|done].
  assert (Htime : Some (time lc) = time <$> last (candle_data st)).
  { revert Htracked Hall. generalize (series_updates st).
    intros us Htracked Hall. destruct us as [|u us _] using rev_ind.
    - rewrite app_nil_r in Htracked. by rewrite <- Htracked.
    - rewrite app_assoc, last_snoc in Htracked. injection Htracked as ->.
      rewrite Forall_app, Forall_singleton in Hall. by destruct Hall. }
  split; simpl.
  - by rewrite app_assoc, last_snoc.
  - apply Forall_app. split; [done|]. by apply Forall_singleton.
Qed.

Lemma data_effect_tracks_last (seconds_of : string → Time) (st : ChartState)
    (candles : list Candle.t) (overlays : option Overlays)
    (activeOverlays : SetObject) :
  tracks_last st →
  tracks_last (data_effect seconds_of st candles overlays activeOverlays).
Proof.
  intros Hst. destruct (seriesRef st) eqn:Hseries.
  - destruct (decide (candles = [])) as [->|Hne].
    + unfold data_effect. by rewrite Hseries.
    + destruct (chartData_nonempty seconds_of candles Hne) as [lc Hlast].
      rewrite (data_effect_ready _ _ _ _ _ lc Hseries Hlast).
      split; simpl; [by rewrite app_nil_r|constructor].
  - unfold data_effect. by rewrite Hseries.
Qed.

Lemma rerender_tracks_last (seconds_of : string → Time) (prev r : Render)
    (st : ChartState) :
  tracks_last st → tracks_last (rerender seconds_of prev r st).
Proof.
  intros Hst. unfold rerender.
  destruct (decide (tick_dep r = tick_dep prev));
    destruct (decide (data_deps r = data_deps prev));
    repeat first [done | apply live_tick_tracks_last
                 | apply data_effect_tracks_last].
Qed.

Lemma rerenders_tracks_last (seconds_of : string → Time) (rs : list Render) :
  ∀ prev st, tracks_last st → tracks_last (rerenders seconds_of prev st rs).
Proof.
  induction rs as [|r rs IH]; intros prev st Hst; [done|].
  simpl. by apply IH, rerender_tracks_last.
Qed.

(** X10. While the dependencies of the data effect keep their identity
    from render to render, the ticks add up: after renders that differ in
    the tick only, on a chart that has its series and tracks a candle, the
    tracked candle still has the time and the open it started with, closes
    at the last tick's price, its low and high enclose the low and high it
    started with and the price of every tick, and the series was handed
    one update per tick. In a render where a dependency of the data effect
    has changed as well, the data effect runs first: the tracked candle is
    then the last of the render's candles, as the server sent it, stretched
    by this render's tick alone, and it is the only update since the data
    was set. *)
Theorem ticks_stretch_candle (seconds_of : string → Time) (prev : Render)
    (st : ChartState) :
  (∀ rs ticks c,
     seriesRef st = true → lastCandleRef st = Some c →
     ticks_only prev rs ticks →
     let st' := rerenders seconds_of prev st rs in
     lastCandleRef st' = Some (after_ticks c ticks)
     ∧ length (series_updates st') =
       (length (series_updates st) + length ticks)%nat
     ∧ time (after_ticks c ticks) = time c
     ∧ open (after_ticks c ticks) = open c
     ∧ close (after_ticks c ticks) = default (close c) (price <$> last ticks)
     ∧ (low (after_ticks c ticks) <= low c)%Q
     ∧ (high c <= high (after_ticks c ticks))%Q
     ∧ (∀ tick, tick ∈ ticks →
          (low (after_ticks c ticks) <= price tick)%Q
          ∧ (price tick <= high (after_ticks c ticks))%Q))
  ∧ (∀ r tick,
       seriesRef st = true →
       data_deps r ≠ data_deps prev →
       tick_dep r ≠ tick_dep prev →
       snd <$> r_latestTick r = Some tick →
       (r_candles r).2 ≠ [] →
       ∃ lc, last (chartData seconds_of (r_candles r).2) = Some lc
             ∧ lastCandleRef (rerender seconds_of prev r st) =
               Some (updated lc tick)
             ∧ series_updates (rerender seconds_of prev r st) =
               [updated lc tick]).
Proof.
  split.
  - intros rs ticks c Hseries Hlast Honly. simpl.
    rewrite (rerenders_ticks_only _ _ _ _ _ Honly).
    destruct (after_ticks_stretch c ticks)
      as (Htime & Hopen & Hclose & Hlow & Hhigh & Hin & Heffect).
    destruct (Heffect st Hseries Hlast) as [Htracked Hlen].
    done.
  - intros r tick Hseries Hdata Htick Hlatest Hne.
    destruct (chartData_nonempty seconds_of _ Hne) as [lc Hlc].
    exists lc. split; [done|]. unfold rerender.
    rewrite decide_False, decide_False by done.
    rewrite (data_effect_ready _ _ _ _ _ lc Hseries Hlc), Hlatest.
    done.
Qed.

Lemma ticks_stretch_candle_witness :
  high <$> lastCandleRef
             (rerenders sample_seconds (sample_render 2%positive None)
                sample_chart
                [sample_render 2%positive (Some (10%positive, tick_107));
                 sample_render 2%positive (Some (11%positive, tick_95))])
  = Some 107%Q
  ∧ high <$> lastCandleRef
               (rerender sample_seconds
                  (sample_render 5%positive (Some (10%positive, tick_107)))
                  (sample_render 6%positive (Some (11%positive, tick_95)))
                  (rerender sample_seconds (sample_render 2%positive None)
                     (sample_render 5%positive (Some (10%positive, tick_107)))
                     sample_chart))
    = Some 105%Q.
Proof.
  split.
  - destruct (proj1 (ticks_stretch_candle sample_seconds
                       (sample_render 2%positive None) sample_chart)
                [sample_render 2%positive (Some (10%positive, tick_107));
                 sample_render 2%positive (Some (11%positive, tick_95))]
                [tick_107; tick_95]
                {| time := 20%Q; open := 100%Q; high := 105%Q; low := 98%Q;
                   close := 101%Q |})
      as [Htracked _].
    + reflexivity.
    + reflexivity.
    + simpl. repeat split; (done || discriminate).
    + cbv zeta in Htracked. rewrite Htracked. reflexivity.
  - destruct (proj2 (ticks_stretch_candle sample_seconds
                       (sample_render 5%positive (Some (10%positive, tick_107)))
                       (rerender sample_seconds (sample_render 2%positive None)
                          (sample_render 5%positive
                             (Some (10%positive, tick_107)))
                          sample_chart))
                (sample_render 6%positive (Some (11%positive, tick_95)))
                tick_95)
      as (lc & Hlc & Htracked & _).
    + reflexivity.
    + discriminate.
    + discriminate.
    + reflexivity.
    + discriminate.
    + rewrite Htracked. simpl in Hlc. injection Hlc as <-. reflexivity.
Defined.

(** X17. Live ticks only ever redraw the last bar. In any run of renders,
    whichever effects they set off, every bar handed to [update] since the
    last [setData] has the time of the last candle of that data, so none
    opens a new bar, and the tracked candle is the last bar the series was
    given. While the renders differ in the tick only, the candles and the
    lines stay as they are and each tick adds one update. *)
Theorem ticks_redraw_last_bar (seconds_of : string → Time) (prev : Render)
    (st : ChartState) (rs : list Render) :
  tracks_last st →
  tracks_last (rerenders seconds_of prev st rs)
  ∧ (∀ ticks,
       ticks_only prev rs ticks →
       candle_data (rerenders seconds_of prev st rs) = candle_data st
       ∧ lineSeriesRefs (rerenders seconds_of prev st rs) = lineSeriesRefs st
       ∧ (seriesRef st = true → lastCandleRef st ≠ None →
          length (series_updates (rerenders seconds_of prev st rs)) =
          (length (series_updates st) + length ticks)%nat)).
Proof.
  intros Hst. split; [by apply rerenders_tracks_last|].
  intros ticks Honly. rewrite (rerenders_ticks_only _ _ _ _ _ Honly).
  destruct (live_ticks_candle_data ticks st) as [Hdata Hlines].
  split; [done|]. split; [done|].
  intros Hseries Hsome.
  destruct (lastCandleRef st) as [c|] eqn:Hc; [|done].
  destruct (after_ticks_stretch c ticks) as (_ & _ & _ & _ & _ & _ & Heffect).
  by destruct (Heffect st Hseries Hc).
Qed.

Lemma ticks_redraw_last_bar_witness :
  tracks_last
    (rerenders sample_seconds (sample_render 2%positive None) empty_chart
       [sample_render 5%positive (Some (10%positive, tick_107));
        sample_render 5%positive (Some (11%positive, tick_95));
        sample_render 6%positive (Some (11%positive, tick_95))]).
Proof.
  apply (ticks_redraw_last_bar sample_seconds (sample_render 2%positive None)
           empty_chart).
  split; [reflexivity|constructor].
Defined.

(** ** Facts about the markers *)

Lemma insert_marker_perm (m : SeriesMarker) (sorted : list SeriesMarker) :
  insert_marker m sorted ≡ₚ m :: sorted.
Proof.
  induction sorted as [|m' rest IH]; simpl; [done|].
  destruct (Qle_bool (sm_time m') (sm_time m)); [|done].
  rewrite IH. apply Permutation_swap.
Qed.

Lemma insert_marker_sorted (m : SeriesMarker) (sorted : list SeriesMarker) :
  StronglySorted by_time sorted → StronglySorted by_time (insert_marker m sorted).
Proof.
  induction sorted as [|m' rest IH]; intros Hsorted; simpl.
  { repeat constructor. }
  apply StronglySorted_inv in Hsorted as [Hrest Hall].
  destruct (Qle_bool (sm_time m') (sm_time m)) eqn:Hle.
  - constructor; [by apply IH|].
    rewrite insert_marker_perm. constructor; [|done].
    by apply Qle_bool_iff.
  - assert (Hlt : (sm_time m < sm_time m')%Q).
    { apply Qnot_le_lt. intros Hle'. apply Qle_bool_iff in Hle'. congruence. }
    constructor; [by constructor|].
    constructor; [by apply Qlt_le_weak|].
    eapply Forall_impl; [exact Hall|]. intros x Hx. unfold by_time in *.
    apply Qlt_le_weak. exact (Qlt_le_trans _ _ _ Hlt Hx).
Qed.

Lemma filter_none {A} (P : A → Prop) `{!∀ x, Decision (P x)} (l : list A) :
  Forall (λ x, ¬ P x) l → filter P l = [].
Proof.
  induction 1 as [|x l Hx Hl IH]; [done|].
  by rewrite filter_cons, decide_False.
Qed.

Lemma filter_all {A} (P : A → Prop) `{!∀ x, Decision (P x)} (l : list A) :
  Forall P l → filter P l = l.
Proof.
  induction 1 as [|x l Hx Hl IH]; [done|].
  by rewrite filter_cons, decide_True, IH.
Qed.

Lemma insert_marker_at_time (t : Time) (m : SeriesMarker)
    (sorted : list SeriesMarker) :
  StronglySorted by_time sorted →
  at_time t (insert_marker m sorted) = at_time t sorted ++ at_time t [m].
Proof.
  unfold at_time.
  induction sorted as [|m' rest IH]; intros Hsorted; simpl; [done|].
  apply StronglySorted_inv in Hsorted as [Hrest Hall].
  destruct (Qle_bool (sm_time m') (sm_time m)) eqn:Hle.
  - rewrite !filter_cons, IH by done. by destruct (decide _).
  - assert (Hlt : (sm_time m < sm_time m')%Q).
    { apply Qnot_le_lt. intros Hle'. apply Qle_bool_iff in Hle'. congruence. }
    rewrite (filter_cons _ m (m' :: rest)), (filter_cons _ m []), filter_nil.
    destruct (decide (Qeq_bool (sm_time m) t = true)) as [Heq|Hne].
    + apply Qeq_bool_iff in Heq.
      assert (Hnone : filter (λ m0, Qeq_bool (sm_time m0) t = true)
                        (m' :: rest) = []).
      { apply filter_none. apply Forall_cons. split.
        - intros Heq'%Qeq_bool_iff. rewrite Heq, <- Heq' in Hlt.
          by apply Qlt_irrefl in Hlt.
        - eapply Forall_impl; [exact Hall|]. intros x Hx Heq'%Qeq_bool_iff.
          unfold by_time in Hx. rewrite Heq, <- Heq' in Hlt.
          apply (Qlt_irrefl (sm_time x)). exact (Qlt_le_trans _ _ _ Hlt Hx). }
      by rewrite Hnone.
    + by rewrite app_nil_r.
Qed.

Lemma foldl_insert_marker (t : Time) (ms : list SeriesMarker) :
  ∀ sorted, StronglySorted by_time sorted →
    let out := foldl (λ sorted m, insert_marker m sorted) sorted ms in
    out ≡ₚ sorted ++ ms
    ∧ StronglySorted by_time out
    ∧ at_time t out = at_time t sorted ++ at_time t ms.
Proof.
  induction ms as [|m ms IH]; intros sorted Hsorted; simpl.
  { unfold at_time. rewrite ?filter_nil, !app_nil_r. done. }
  destruct (IH (insert_marker m sorted) (insert_marker_sorted m sorted Hsorted))
    as (Hperm & Hout & Htime).
  split; [|split; [done|]].
  - rewrite Hperm, insert_marker_perm. simpl. apply Permutation_middle.
  - simpl in Htime. rewrite Htime, insert_marker_at_time by done.
    rewrite <- app_assoc. f_equal. unfold at_time.
    by rewrite <- filter_app.
Qed.

(** X18. The markers handed to the series are the given ones put in the
    order of their times: the same markers, each as often as given, no time
    before an earlier one, and markers with the same time in the order in
    which they were given. *)
Theorem markers_sorted_stable (ms : list SeriesMarker) (t : Time) :
  sort_markers ms ≡ₚ ms
  ∧ StronglySorted by_time (sort_markers ms)
  ∧ at_time t (sort_markers ms) = at_time t ms.
Proof.
  destruct (foldl_insert_marker t ms [] ltac:(constructor))
    as (Hperm & Hsorted & Htime).
  done.
Qed.

(** ** Facts about the price lines *)

Lemma filter_disjoint_submseteq {A} (P Q : A → Prop)
    `{!∀ x, Decision (P x)} `{!∀ x, Decision (Q x)} (l : list A) :
  (∀ x, P x → Q x → False) → filter P l ++ filter Q l ⊆+ l.
Proof.
  intros Hdisj. induction l as [|x l IH]; [done|].
  rewrite !filter_cons.
  destruct (decide (P x)) as [HP|HnP]; destruct (decide (Q x)) as [HQ|HnQ].
  - by destruct (Hdisj x).
  - simpl. by apply submseteq_skip.
  - rewrite <- Permutation_middle. by apply submseteq_skip.
  - by apply submseteq_cons.
Qed.

Lemma price_line_price (toLocaleString toString : Q → string)
    (color letter : string) (levels : list SRLevel) :
  pl_price <$> (price_line toLocaleString toString color letter <$> levels)
  = sr_price <$> levels.
Proof. rewrite <- list_fmap_compose. by apply list_fmap_ext. Qed.

(** X19. Every price line belongs to a level and no level is drawn twice:
    the prices of the lines are prices of the levels, each at most as often
    as it is listed, the supports first; a level whose type is neither
    "support" nor "resistance" gets no line; with both overlays active and
    only levels of these two types, each level gets exactly one line. *)
Theorem price_lines_of_levels (toLocaleString toString : Q → string)
    (activeOverlays : SetObject) (srLevels : list SRLevel) :
  let lines := price_lines toLocaleString toString activeOverlays srLevels in
  pl_price <$> lines ⊆+ sr_price <$> srLevels
  ∧ (length lines ≤
     length (filter (λ l, sr_type l = "support" ∨ sr_type l = "resistance")
               srLevels))%nat
  ∧ ("support" ∈ members activeOverlays →
     "resistance" ∈ members activeOverlays →
     Forall (λ l, sr_type l = "support" ∨ sr_type l = "resistance") srLevels →
     pl_price <$> lines ≡ₚ sr_price <$> srLevels).
Proof.
  simpl. unfold price_lines.
  set (S := filter (λ l, sr_type l = "support") srLevels).
  set (R := filter (λ l, sr_type l = "resistance") srLevels).
  assert (Hsub : S ++ R ⊆+ srLevels).
  { apply filter_disjoint_submseteq. intros x Hs Hr. congruence. }
  assert (Hlen : (length S + length R =
    length (filter (λ l, sr_type l = "support" ∨ sr_type l = "resistance")
              srLevels))%nat).
  { unfold S, R. clear. induction srLevels as [|x l IH]; [done|].
    rewrite !filter_cons.
    destruct (decide (sr_type x = "support")) as [Hs|Hs];
      destruct (decide (sr_type x = "resistance")) as [Hr|Hr];
      try congruence.
    - rewrite decide_True by (by left). simpl. lia.
    - rewrite decide_True by (by right). simpl. lia.
    - rewrite decide_False by (by intros [?|?]). done. }
  assert (HS : S ⊆+ srLevels).
  { etrans; [|exact Hsub]. by apply submseteq_inserts_r. }
  assert (HR : R ⊆+ srLevels).
  { etrans; [|exact Hsub]. by apply submseteq_inserts_l. }
  split; [|split].
  - rewrite fmap_app.
    destruct (bool_decide ("support" ∈ _)), (bool_decide ("resistance" ∈ _));
      rewrite ?price_line_price; simpl; rewrite ?app_nil_r.
    + rewrite <- fmap_app. by apply fmap_submseteq.
    + by apply fmap_submseteq.
    + by apply fmap_submseteq.
    + apply submseteq_nil_l.
  - rewrite length_app, <- Hlen.
    destruct (bool_decide ("support" ∈ _)), (bool_decide ("resistance" ∈ _));
      rewrite ?length_fmap; simpl; lia.
  - intros Hs Hr Hall.
    rewrite !bool_decide_true by done.
    rewrite fmap_app, !price_line_price, <- fmap_app.
    apply fmap_Permutation. apply submseteq_length_Permutation; [done|].
    rewrite length_app. fold S R. rewrite Hlen.
    by rewrite filter_all by done.
Qed.

Lemma price_lines_of_levels_witness :
  pl_price <$> price_lines sample_format sample_format
                 (initial_overlays 1%positive) sample_levels
  ≡ₚ sr_price <$> sample_levels.
Proof.
  apply (price_lines_of_levels sample_format sample_format
           (initial_overlays 1%positive) sample_levels).
  - unfold initial_overlays; simpl. set_solver.
  - unfold initial_overlays; simpl. set_solver.
  - unfold sample_levels.
    constructor; [by left|]. constructor; [by right|]. constructor.
Defined.

(** X20. What the data effect leaves stale: an empty list of trade markers
    never clears the markers on the series; and when the overlays are
    missing or have no timestamps, a chart with candles loses all its line
    series but keeps the price lines it had, whatever the active overlays
    and the levels are now. *)
Theorem stale_decorations (seconds_of : string → Time)
    (toLocaleString toString : Q → string) (ready : bool) (d : Decorations)
    (st : ChartState) (candles : list Candle.t) (markers : list TradeMarker)
    (overlays : option Overlays) (srLevels : list SRLevel)
    (activeOverlays : SetObject) :
  (markers = [] →
   seriesMarkers (decorate seconds_of toLocaleString toString ready d candles
                    markers overlays srLevels activeOverlays)
   = seriesMarkers d)
  ∧ (seriesRef st = true → candles ≠ [] →
     from_option (λ ov, ov_timestamps ov = []) True overlays →
     lineSeriesRefs
       (data_effect seconds_of st candles overlays activeOverlays) = ∅
     ∧ priceLinesRef (decorate seconds_of toLocaleString toString true d
                        candles markers overlays srLevels activeOverlays)
       = priceLinesRef d).
Proof.
  split.
  - intros ->. unfold decorate.
    destruct ready; [|done]. destruct candles; [done|].
    destruct overlays as [ov|]; [|done]. by destruct (decide _).
  - intros Hseries Hne Hov. unfold data_effect, decorate. rewrite Hseries.
    destruct candles as [|c candles]; [done|].
    destruct overlays as [ov|]; simpl in *; [|done].
    rewrite Hov. done.
Qed.

Lemma stale_decorations_witness :
  priceLinesRef
    (decorate sample_seconds sample_format sample_format true
       {| seriesMarkers := [];
          priceLinesRef := price_lines sample_format sample_format
                             (initial_overlays 1%positive) sample_levels |}
       [sample_candle] [] None [] {| ref := 2%positive; members := ∅ |})
  = price_lines sample_format sample_format (initial_overlays 1%positive)
      sample_levels.
Proof.
  apply (stale_decorations sample_seconds sample_format sample_format true
           {| seriesMarkers := [];
              priceLinesRef := price_lines sample_format sample_format
                                 (initial_overlays 1%positive) sample_levels |}
           empty_chart [sample_candle] [] None [] {| ref := 2%positive; members := ∅ |}).
  - reflexivity.
  - discriminate.
  - exact I.
Defined.

End ChartDrawing.

(* ===================================================================== *)
(** * The dashboard's trade markers on the chart *)
(* ===================================================================== *)

Module DashboardMarkers.

Import Chart ChartDrawing.

(** [interface Trade] of the dashboard. *)
Record Trade : Type := {
  id : Q;
  pair : string;
  side : string;
  entry_price : Q;
  exit_price : option Q;
  status : string;
  pnl : option Q;
  pnl_percent : option Q;
  strategy : string;
  confluence_score : Q;
  created_at : string;
}.

(** [tradeMarkers]: the open trades, then the recent ones, without those
    whose [created_at] is empty, each as a marker. *)
Definition tradeMarkers (open_trades recent_trades : list Trade)
  : list TradeMarker :=
  (λ t, {| marker_time := created_at t; marker_side := side t;
           marker_price := entry_price t |})
  <$> filter (λ t, created_at t ≠ "") (open_trades ++ recent_trades).

Definition sample_trade (i : Q) (s at_ : string) : Trade :=
  {| id := i; pair := "BTCUSDT"; side := s; entry_price := 100%Q;
     exit_price := None; status := "OPEN"; pnl := None; pnl_percent := None;
     strategy := "confluence"; confluence_score := 3%Q; created_at := at_ |}.

(** X21. One marker per listing: when some listed trade has a creation
    time, the series gets a marker for every such trade of the open list
    and for every such trade of the recent list (so two for a trade that is
    in both), each with the trade's side as its text, in the order of the
    creation times; a marker points up from below the bar exactly when the
    side is "BUY". *)
Theorem one_marker_per_listing (seconds_of : string → Time)
    (current : list SeriesMarker) (open_trades recent_trades : list Trade) :
  let dated := filter (λ t, created_at t ≠ "") (open_trades ++ recent_trades) in
  let shown := set_markers seconds_of current
                 (tradeMarkers open_trades recent_trades) in
  dated ≠ [] →
  sm_text <$> shown ≡ₚ side <$> dated
  ∧ length shown =
    (length (filter (λ t, created_at t ≠ "") open_trades)
     + length (filter (λ t, created_at t ≠ "") recent_trades))%nat
  ∧ StronglySorted by_time shown
  ∧ Forall (λ m, (sm_position m = belowBar ↔ sm_text m = "BUY")
                 ∧ (sm_shape m = arrowUp ↔ sm_text m = "BUY")) shown.
Proof.
  intros dated shown Hne.
  assert (Hshown : shown = sort_markers
            (marker_of seconds_of <$> tradeMarkers open_trades recent_trades)).
  { unfold shown, set_markers, tradeMarkers. fold dated.
    by destruct dated. }
  destruct (foldl_insert_marker 0%Q
              (marker_of seconds_of <$> tradeMarkers open_trades recent_trades)
              [] ltac:(constructor)) as (Hperm & Hsorted & _).
  simpl in Hperm. fold (sort_markers
    (marker_of seconds_of <$> tradeMarkers open_trades recent_trades))
    in Hperm, Hsorted.
  rewrite <- Hshown in Hperm, Hsorted.
  split; [|split; [|split; [done|]]].
  - rewrite Hperm. unfold tradeMarkers. fold dated.
    rewrite <- !list_fmap_compose. done.
  - rewrite Hperm. unfold tradeMarkers.
    rewrite !length_fmap, filter_app, length_app. done.
  - rewrite Hperm. unfold tradeMarkers.
    apply Forall_fmap, Forall_fmap, Forall_forall. intros t _. simpl.
    unfold marker_of; simpl. case_bool_decide; naive_solver.
Qed.

Lemma one_marker_per_listing_witness :
  length (set_markers sample_seconds []
            (tradeMarkers [sample_trade 1 "BUY" "2023-11-14T22:00:00Z"]
               [sample_trade 1 "BUY" "2023-11-14T22:00:00Z";
                sample_trade 2 "SELL" ""])) = 2%nat.
Proof.
  apply (one_marker_per_listing sample_seconds []
           [sample_trade 1 "BUY" "2023-11-14T22:00:00Z"]
           [sample_trade 1 "BUY" "2023-11-14T22:00:00Z";
            sample_trade 2 "SELL" ""]).
  vm_compute. discriminate.
Defined.

End DashboardMarkers.

(* ===================================================================== *)
(** * The confidence badge's colours *)
(* ===================================================================== *)

Module BadgeColors.

Import TradeLog.

(** X22. The badge always has a colour: for every score the class is one
    of the five colour classes, never the empty entry; the scores 2 to 5
    have their own, different classes, and every other score, 0 and the
    scores off the palette included, is shown in the class of score 1. *)
Theorem badge_never_colourless (score : Z) :
  badge_color score ≠ ""
  ∧ Some (badge_color score) ∈ (λ i : nat, colors !! i) <$> [1; 2; 3; 4; 5]%nat
  ∧ ((score < 2 ∨ 5 < score)%Z → badge_color score = badge_color 1)
  ∧ (∀ other : Z, (1 ≤ score ≤ 5)%Z → (1 ≤ other ≤ 5)%Z →
       badge_color score = badge_color other → score = other).
Proof.
  assert (Hcases : (score < 0 ∨ score = 0 ∨ score = 1 ∨ score = 2 ∨ score = 3
                    ∨ score = 4 ∨ score = 5 ∨ 5 < score)%Z) by lia.
  assert (Hout : (score < 0 ∨ 5 < score)%Z →
                 badge_color score = "bg-red-500/20 text-red-400").
  { intros Hrange. unfold badge_color, colors_at.
    destruct (score <? 0)%Z eqn:Hneg; [done|].
    apply Z.ltb_ge in Hneg.
    rewrite (lookup_ge_None_2 colors (Z.to_nat score)); [done|].
    simpl. lia. }
  split; [|split; [|split]].
  - destruct Hcases as [H|[->|[->|[->|[->|[->|[->|H]]]]]]];
      try (rewrite Hout by lia); done.
  - destruct Hcases as [H|[->|[->|[->|[->|[->|[->|H]]]]]]];
      try (rewrite Hout by lia); vm_compute; set_solver.
  - intros Hrange.
    destruct Hcases as [H|[->|[->|[->|[->|[->|[->|H]]]]]]];
      try lia; try (rewrite Hout by lia); done.
  - intros other Hs Ho.
    assert (Hs' : (score = 1 ∨ score = 2 ∨ score = 3 ∨ score = 4 ∨ score = 5)%Z)
      by lia.
    assert (Ho' : (other = 1 ∨ other = 2 ∨ other = 3 ∨ other = 4 ∨ other = 5)%Z)
      by lia.
    destruct Hs' as [->|[->|[->|[->| ->]]]];
      destruct Ho' as [->|[->|[->|[->| ->]]]];
      vm_compute; (done || discriminate).
Qed.

Lemma badge_never_colourless_witness :
  badge_color 0 = badge_color 1 ∧ badge_color 7 = badge_color 1.
Proof.
  split.
  - apply (badge_never_colourless 0). lia.
  - apply (badge_never_colourless 7). lia.
Defined.

End BadgeColors.

(* ===================================================================== *)
(** * frontend/src/app/settings/page.tsx *)
(* ===================================================================== *)

From Stdlib Require Import Ascii.

Module Settings.

(** [interface Strategy]. *)
Record Strategy : Type := {
  id : Q;
  name : string;
  enabled : bool;
  parameters : list (string * WSClient.json);
  description : string;
}.

(** [{ ...s, enabled }]. *)
Definition with_enabled (s : Strategy) (enabled' : bool) : Strategy :=
  {| id := id s; name := name s; enabled := enabled';
     parameters := parameters s; description := description s |}.

(** [toggleStrategy], as far as the state goes: when the request succeeds
    ([updated = true]) every strategy with the given id takes the new flag;
    when it fails the error is logged and the state is left alone. *)
Definition toggleStrategy (updated : bool) (prev : list Strategy) (id' : Q)
    (enabled' : bool) : list Strategy :=
  if updated
  then (λ s, if Qeq_bool (id s) id' then with_enabled s enabled' else s)
       <$> prev
  else prev.

(** The button of a strategy: [toggleStrategy(strategy.id,
    !strategy.enabled)]. *)
Definition click (updated : bool) (prev : list Strategy) (strategy : Strategy)
  : list Strategy :=
  toggleStrategy updated prev (id strategy) (negb (enabled strategy)).

(** ** The displayed name *)

(** [\w] of a regular expression without the unicode flag. *)
Definition is_word (c : ascii) : bool :=
  let n := nat_of_ascii c in
  ((48 <=? n) && (n <=? 57)) || ((65 <=? n) && (n <=? 90))
  || ((97 <=? n) && (n <=? 122)) || (n =? 95).

(** [c.toUpperCase()] for one character matched by [\w]. *)
Definition toUpperCase (c : ascii) : ascii :=
  let n := nat_of_ascii c in
  if (97 <=? n) && (n <=? 122) then ascii_of_nat (n - 32) else c.

(** [.replace(/_/g, " ")]. *)
Fixpoint replace_underscores (s : string) : string :=
  match s with
  | EmptyString => EmptyString
  | String c rest =>
      String (if Ascii.eqb c "_"%char then " "%char else c)
             (replace_underscores rest)
  end.

(** [.replace(/\b\w/g, (c) => c.toUpperCase())]: a word character is
    replaced when the character before it, in the string the method is
    called on, is not a word character, or when it is the first. *)
Fixpoint capitalize (after_word : bool) (s : string) : string :=
  match s with
  | EmptyString => EmptyString
  | String c rest =>
      String (if is_word c && negb after_word then toUpperCase c else c)
             (capitalize (is_word c) rest)
  end.

(** The name shown for a strategy. A character outside ASCII is one or
    more code units that [\w] does not match, in the string of bytes as in
    the string of UTF-16 units. *)
Definition display_name (name : string) : string :=
  capitalize false (replace_underscores name).

(** No underscore in the string. *)
Fixpoint no_underscore (s : string) : bool :=
  match s with
  | EmptyString => true
  | String c rest => negb (Ascii.eqb c "_"%char) && no_underscore rest
  end.

Definition unique_id (prev : list Strategy) (strategy : Strategy) : Prop :=
  ∀ s, s ∈ prev → Qeq (id s) (id strategy) → s = strategy.

Definition sample_strategy (i : Q) (n : string) (e : bool) : Strategy :=
  {| id := i; name := n; enabled := e; parameters := [];
     description := n |}.

(** ** Facts about [toggleStrategy] *)

Lemma toggle_one (s : Strategy) (id' : Q) (enabled' : bool) :
  let s' := if Qeq_bool (id s) id' then with_enabled s enabled' else s in
  id s' = id s ∧ name s' = name s ∧ parameters s' = parameters s
  ∧ description s' = description s
  ∧ enabled s' = if Qeq_bool (id s) id' then enabled' else enabled s.
Proof. simpl. by destruct (Qeq_bool (id s) id'). Qed.

(** X23. [toggleStrategy] touches one flag only: the list keeps its
    length and the ids, names, parameters and descriptions in their order;
    the strategies with the given id end up with the given flag and the
    others keep theirs; doing it twice is doing it once; and when the
    request fails nothing changes. *)
Theorem toggle_touches_only_flag (updated : bool) (prev : list Strategy)
    (id' : Q) (enabled' : bool) :
  let next := toggleStrategy updated prev id' enabled' in
  id <$> next = id <$> prev
  ∧ name <$> next = name <$> prev
  ∧ parameters <$> next = parameters <$> prev
  ∧ description <$> next = description <$> prev
  ∧ enabled <$> next =
    (λ s, if updated && Qeq_bool (id s) id' then enabled' else enabled s)
    <$> prev
  ∧ toggleStrategy updated next id' enabled' = next
  ∧ toggleStrategy false prev id' enabled' = prev.
Proof.
  simpl. unfold toggleStrategy. destruct updated; simpl.
  - rewrite <- !list_fmap_compose.
    repeat (split; [apply list_fmap_ext; intros i s _; simpl;
                    by destruct (Qeq_bool (id s) id')|]).
    split; [|done].
    apply list_fmap_ext. intros i s _. simpl.
    destruct (Qeq_bool (id s) id') eqn:Heq; simpl; by rewrite Heq.
  - repeat (split; [done|]). done.
Qed.

Lemma with_enabled_back (s : Strategy) (b : bool) :
  with_enabled (with_enabled s b) (enabled s) = s.
Proof. by destruct s. Qed.

(** X24. Two presses of a strategy's button, when no other strategy
    shares its id and both requests succeed. The button sends the flag of
    the strategy it was rendered with. If the second press is on the button
    as rendered again after the first request has updated the list, the
    list is back as it was. If both presses are on the same rendering,
    before the first request has come back, they send the same flag: the
    list ends as after one press, with the flag flipped, and is not
    restored. *)
Theorem second_press_by_rendering (prev : list Strategy)
    (strategy : Strategy) :
  strategy ∈ prev →
  unique_id prev strategy →
  let once := click true prev strategy in
  let flipped := with_enabled strategy (negb (enabled strategy)) in
  flipped ∈ once
  ∧ enabled <$> once =
    (λ s, if Qeq_bool (id s) (id strategy) then negb (enabled s)
          else enabled s) <$> prev
  ∧ click true once flipped = prev
  ∧ click true once strategy = once
  ∧ click true once strategy ≠ prev.
Proof.
  intros Hin Hunique once flipped.
  assert (Honce : once =
            (λ s, if Qeq_bool (id s) (id strategy) then flipped else s) <$> prev).
  { unfold once, click, toggleStrategy. apply list_fmap_ext. intros i s Hs.
    destruct (Qeq_bool (id s) (id strategy)) eqn:Heq; [|done].
    apply Qeq_bool_iff in Heq.
    by rewrite (Hunique s (list_elem_of_lookup_2 _ _ _ Hs) Heq). }
  assert (Hrefl : Qeq_bool (id strategy) (id strategy) = true).
  { apply Qeq_bool_iff. apply Qeq_refl. }
  assert (Hflags : enabled <$> once =
            (λ s, if Qeq_bool (id s) (id strategy) then negb (enabled s)
                  else enabled s) <$> prev).
  { rewrite Honce, <- list_fmap_compose. apply list_fmap_ext.
    intros i s Hs. simpl.
    destruct (Qeq_bool (id s) (id strategy)) eqn:Heq; [|done].
    apply Qeq_bool_iff in Heq.
    by rewrite (Hunique s (list_elem_of_lookup_2 _ _ _ Hs) Heq). }
  assert (Hsame : click true once strategy = once).
  { unfold once, click, toggleStrategy.
    rewrite <- list_fmap_compose. apply list_fmap_ext.
    intros i s Hs. simpl.
    destruct (Qeq_bool (id s) (id strategy)) eqn:Heq; simpl; by rewrite Heq. }
  split; [|split; [exact Hflags|split; [|split; [exact Hsame|]]]].
  - rewrite Honce. apply list_elem_of_fmap. exists strategy. split; [|done].
    by rewrite Hrefl.
  - rewrite Honce. unfold click, toggleStrategy.
    rewrite <- list_fmap_compose.
    rewrite <- (list_fmap_id prev) at 2. apply list_fmap_ext.
    intros i s Hs. simpl.
    destruct (Qeq_bool (id s) (id strategy)) eqn:Heq.
    + simpl. rewrite Hrefl, negb_involutive.
      apply Qeq_bool_iff in Heq.
      rewrite (Hunique s (list_elem_of_lookup_2 _ _ _ Hs) Heq).
      apply with_enabled_back.
    + simpl. by rewrite Heq.
  - rewrite Hsame. intros Heq. rewrite Heq in Hflags.
    apply list_elem_of_lookup_1 in Hin as [i Hi].
    apply (f_equal (λ l, l !! i)) in Hflags.
    rewrite !list_lookup_fmap, Hi in Hflags. simpl in Hflags.
    rewrite Hrefl in Hflags. injection Hflags as Hflag.
    by destruct (enabled strategy).
Qed.

Lemma second_press_by_rendering_witness :
  click true
    (click true [sample_strategy 1 "ema_crossover" true;
                 sample_strategy 2 "rsi_divergence" false]
       (sample_strategy 1 "ema_crossover" true))
    (sample_strategy 1 "ema_crossover" false)
  = [sample_strategy 1 "ema_crossover" true;
     sample_strategy 2 "rsi_divergence" false]
  ∧ click true
      (click true [sample_strategy 1 "ema_crossover" true;
                   sample_strategy 2 "rsi_divergence" false]
         (sample_strategy 1 "ema_crossover" true))
      (sample_strategy 1 "ema_crossover" true)
    ≠ [sample_strategy 1 "ema_crossover" true;
       sample_strategy 2 "rsi_divergence" false].
Proof.
  assert (Hin : sample_strategy 1 "ema_crossover" true
                ∈ [sample_strategy 1 "ema_crossover" true;
                   sample_strategy 2 "rsi_divergence" false]) by (by left).
  assert (Hunique : unique_id [sample_strategy 1 "ema_crossover" true;
                               sample_strategy 2 "rsi_divergence" false]
                      (sample_strategy 1 "ema_crossover" true)).
  { intros s Hs Hid. apply elem_of_cons in Hs as [->|Hs]; [done|].
    apply list_elem_of_singleton in Hs as ->. vm_compute in Hid. discriminate. }
  destruct (second_press_by_rendering _ _ Hin Hunique)
    as (_ & _ & Hback & _ & Hstale).
  split; [exact Hback|exact Hstale].
Defined.

(** ** Facts about the displayed name *)

Lemma toUpperCase_twice (c : ascii) :
  toUpperCase (toUpperCase c) = toUpperCase c.
Proof. destruct c as [[] [] [] [] [] [] [] []]; reflexivity. Qed.

Lemma is_word_toUpperCase (c : ascii) :
  is_word (toUpperCase c) = is_word c.
Proof. destruct c as [[] [] [] [] [] [] [] []]; reflexivity. Qed.

Lemma toUpperCase_underscore (c : ascii) :
  Ascii.eqb c "_"%char = false → Ascii.eqb (toUpperCase c) "_"%char = false.
Proof. destruct c as [[] [] [] [] [] [] [] []]; done. Qed.

Lemma replace_underscores_no_underscore (s : string) :
  no_underscore (replace_underscores s) = true.
Proof.
  induction s as [|c s IH]; [done|]. simpl. rewrite IH.
  by destruct (Ascii.eqb c "_"%char) eqn:Heq; rewrite ?Heq.
Qed.

Lemma replace_underscores_id (s : string) :
  no_underscore s = true → replace_underscores s = s.
Proof.
  induction s as [|c s IH]; [done|]. simpl.
  intros [Hc Hs]%andb_prop. rewrite (IH Hs).
  by destruct (Ascii.eqb c "_"%char).
Qed.

Lemma capitalize_no_underscore (s : string) :
  ∀ after_word, no_underscore s = true →
                no_underscore (capitalize after_word s) = true.
Proof.
  induction s as [|c s IH]; intros after_word; [done|]. simpl.
  intros [Hc Hs]%andb_prop. rewrite (IH _ Hs), andb_true_r.
  apply negb_true_iff in Hc.
  destruct (is_word c && negb after_word); [|by rewrite Hc].
  by rewrite toUpperCase_underscore.
Qed.

Lemma capitalize_twice (s : string) :
  ∀ after_word,
    capitalize after_word (capitalize after_word s) = capitalize after_word s.
Proof.
  induction s as [|c s IH]; intros after_word; [done|]. simpl.
  destruct (is_word c && negb after_word) eqn:Hcap.
  - rewrite is_word_toUpperCase, Hcap, toUpperCase_twice. by rewrite IH.
  - rewrite Hcap. by rewrite IH.
Qed.

Lemma capitalize_length (s : string) :
  ∀ after_word, String.length (capitalize after_word s) = String.length s.
Proof.
  induction s as [|c s IH]; intros after_word; [done|]. simpl. by rewrite IH.
Qed.

Lemma replace_underscores_length (s : string) :
  String.length (replace_underscores s) = String.length s.
Proof. induction s as [|c s IH]; [done|]. simpl. by rewrite IH. Qed.

(** X25. The displayed name is as long as the stored name, has no
    underscore, and displaying it again changes nothing. *)
Theorem display_name_settled (name : string) :
  String.length (display_name name) = String.length name
  ∧ no_underscore (display_name name) = true
  ∧ display_name (display_name name) = display_name name.
Proof.
  unfold display_name. split; [|split].
  - by rewrite capitalize_length, replace_underscores_length.
  - apply capitalize_no_underscore, replace_underscores_no_underscore.
  - rewrite replace_underscores_id.
    + apply capitalize_twice.
    + apply capitalize_no_underscore, replace_underscores_no_underscore.
Qed.

End Settings.
